(** * Beauty product recommendation engine (src/app.py)

    A shallow embedding of [BeautyProductRecommendationSystem]: the skin-type
    canonicaliser, the schema normaliser, the compatibility filter, the
    cosine-similarity matrix and the ranker.

    Modelling conventions
    - Python [str] values are [string]s of 8-bit characters; the character
      classes ([str.lower], [str.strip], the regex class [\w]) are those of
      ASCII text, and larger code points are left alone by them.
    - A Python [set] of [str] is a [gset string].
    - Python [float]s are idealised as real numbers ([R]); the missing value
      [NaN] of a numeric column is [None] / [CNaN].  The theorems state of
      these numbers what rounding keeps (order, zero, the symmetry of a
      product); what rounding changes is shown on binary64 numbers
      themselves ([cosine_similarity_f64]).
    - A method that may raise returns a [result]: [Ok v] or [Raise e].
    - What the libraries decide is an argument of the method that calls
      them: the parse and the print of a number ([pd.to_numeric],
      [astype(str)]), the order in which the set [required_cols] is
      iterated, the weights of [TfidfVectorizer.fit_transform] or the error
      it raises, and the permutation [DataFrame.sort_values] applies.  The
      theorems state what they need of these arguments as hypotheses. *)

From Corelib Require Import PrimFloat.
From Stdlib Require Import ZArith List Ascii String Reals Lra Lia Sorted Permutation.
From stdpp Require Import base gmap strings list.

Local Open Scope string_scope.

(** ** Text primitives *)

Definition code_between (lo hi : nat) (c : ascii) : bool :=
  let n := nat_of_ascii c in Nat.leb lo n && Nat.leb n hi.

Definition is_upper (c : ascii) : bool := code_between 65 90 c.

(** [str.lower] on one character. *)
Definition lower_char (c : ascii) : ascii :=
  if is_upper c then ascii_of_nat (nat_of_ascii c + 32) else c.

(** [str.lower]. *)
Fixpoint lower (s : string) : string :=
  match s with
  | EmptyString => EmptyString
  | String c r => String (lower_char c) (lower r)
  end.

(** [str.isspace] on one character: TAB..CR, FS..US and the blank. *)
Definition is_space (c : ascii) : bool :=
  code_between 9 13 c || code_between 28 32 c.

Fixpoint lstrip (s : string) : string :=
  match s with
  | EmptyString => EmptyString
  | String c r => if is_space c then lstrip r else s
  end.

Fixpoint string_rev (s : string) : string :=
  match s with
  | EmptyString => EmptyString
  | String c r => string_rev r ++ String c EmptyString
  end.

Definition rstrip (s : string) : string := string_rev (lstrip (string_rev s)).

(** [str.strip()] with no argument. *)
Definition strip (s : string) : string := lstrip (rstrip s).

(** The regex class [\w] on ASCII text. *)
Definition is_word (c : ascii) : bool :=
  code_between 48 57 c || code_between 65 90 c
  || code_between 97 122 c || code_between 95 95 c.

Definition is_word_opt (c : option ascii) : bool :=
  match c with Some a => is_word a | None => false end.

(** The regex assertion [\b] between two neighbouring positions; [None]
    stands for the start or the end of the text. *)
Definition word_boundary (before after : option ascii) : bool :=
  xorb (is_word_opt before) (is_word_opt after).

(** [w in s] for Python strings. *)
Fixpoint contains (w s : string) : bool :=
  String.prefix w s ||
  match s with
  | EmptyString => false
  | String _ r => contains w r
  end.

(** [p] occurs in [s] as a contiguous piece. *)
Definition occurs_in (p s : string) : Prop := exists a b, s = a ++ p ++ b.

(** Every character of [w] is a word character. *)
Fixpoint all_word (w : string) : bool :=
  match w with
  | EmptyString => true
  | String c r => is_word c && all_word r
  end.

Definition head_char (s : string) : option ascii := String.get 0 s.

(** Does [\bw\b] match at the head of [s], the character before being
    [prev]?  [w] is a non-empty literal. *)
Definition literal_word_at (prev : option ascii) (w s : string) : bool :=
  word_boundary prev (head_char s)
  && String.prefix w s
  && word_boundary (String.get (String.length w - 1) s)
                   (String.get (String.length w) s).

(** Length of the match of [\b(kulit|dan)\b] at the head of [s], if any:
    the alternatives are tried from left to right. *)
Definition kulit_dan_at (prev : option ascii) (s : string) : option nat :=
  if literal_word_at prev "kulit" s then Some 5
  else if literal_word_at prev "dan" s then Some 3
  else None.

(** The scan of [re.sub]: [skip] characters of a match are still to be
    dropped; otherwise a match is looked for at the current position. *)
Fixpoint sub_scan (prev : option ascii) (skip : nat) (s : string) : string :=
  match s with
  | EmptyString => EmptyString
  | String c r =>
      match skip with
      | S k => sub_scan (Some c) k r
      | O =>
          match kulit_dan_at prev s with
          | Some (S k) => sub_scan (Some c) k r
          | _ => String c (sub_scan (Some c) 0 r)
          end
      end
  end.

(** [re.sub(r"\b(kulit|dan)\b", "", t)]. *)
Definition re_sub_kulit_dan (t : string) : string := sub_scan None 0 t.

Definition is_delim (c : ascii) : bool :=
  match c with
  | ","%char | "|"%char | "/"%char | ";"%char | "&"%char => true
  | _ => false
  end.

(** [re.split(r"[,|/;&]", text)]: one more part than there are delimiters,
    empty parts kept. *)
Fixpoint re_split (s : string) : list string :=
  match s with
  | EmptyString => [EmptyString]
  | String c r =>
      if is_delim c then EmptyString :: re_split r
      else match re_split r with
           | p :: ps => String c p :: ps
           | [] => [String c EmptyString]
           end
  end.

(** ** Skin-token canonicaliser *)

Definition CANON : list string :=
  ["berjerawat"; "berminyak"; "kering"; "sensitif"; "normal"; "kombinasi";
   "kusam"; "semua"].

Definition in_list (x : string) (l : list string) : bool :=
  existsb (String.eqb x) l.

(** [_canonicalize_skin_token]. *)
Definition _canonicalize_skin_token (raw : string) : option string :=
  if String.eqb raw "" then None else
  let t := strip (lower raw) in
  let t := strip (re_sub_kulit_dan t) in
  if in_list t CANON then Some t
  else if contains "semua" t then Some "semua"
  else if contains "acne" t || contains "jerawat" t then Some "berjerawat"
  else if contains "oily" t || contains "berminyak" t then Some "berminyak"
  else if contains "dry" t || contains "kering" t then Some "kering"
  else if contains "sensitive" t || contains "sensitif" t then Some "sensitif"
  else if contains "comb" t || contains "kombinasi" t then Some "kombinasi"
  else if contains "dull" t || contains "kusam" t then Some "kusam"
  else None.

(** Truth value of the result of [_canonicalize_skin_token] in the filter of
    the set comprehension: [None] and the empty string are false. *)
Definition truthy (o : option string) : bool :=
  match o with
  | Some t => negb (String.eqb t "")
  | None => false
  end.

(** The tokens of the set comprehension, in the order of the phrases. *)
Definition phrase_tokens (parts : list string) : list string :=
  flat_map (fun p =>
              match _canonicalize_skin_token p with
              | Some t => if truthy (Some t) then [t] else []
              | None => []
              end) parts.

(** [_parse_skin_tokens]; the argument is [None] when [pd.isna(s)] holds. *)
Definition _parse_skin_tokens (s : option string) : gset string :=
  match s with
  | None => {["semua"]}
  | Some raw =>
      let text := lower raw in
      if contains "semua" text then {["semua"]}
      else
        let toks : gset string := list_to_set (phrase_tokens (re_split text)) in
        if decide (toks = ∅) then {["semua"]} else toks
  end.

(** ** Results of methods that may raise *)

Inductive exn : Type :=
  TypeError | KeyError | IndexError | ValueError | OverflowError.

Inductive result (A : Type) : Type :=
| Ok (a : A)
| Raise (e : exn).

Arguments Ok {A} a.
Arguments Raise {A} e.

Definition bind {A B : Type} (r : result A) (f : A -> result B) : result B :=
  match r with
  | Ok a => f a
  | Raise e => Raise e
  end.

Notation "'try!' x := r 'in' k" := (bind r (fun x => k))
  (at level 10, x name, r at level 100, k at level 200).

(** ** Schema normaliser *)

(** A cell of a table: text, a number, or the missing value. *)
Inductive cell : Type :=
| CStr (s : string)
| CNum (x : R)
| CNaN.

(** A [pd.DataFrame]: the number of rows and the columns in order, each with
    its label; a label may occur more than once. *)
Record DataFrame : Type := {
  nrows : nat;
  columns : list (string * list cell)
}.

Fixpoint replace_char (a b : ascii) (s : string) : string :=
  match s with
  | EmptyString => EmptyString
  | String c r => String (if Ascii.eqb c a then b else c) (replace_char a b r)
  end.

Fixpoint remove_char (a : ascii) (s : string) : string :=
  match s with
  | EmptyString => EmptyString
  | String c r => if Ascii.eqb c a then remove_char a r
                  else String c (remove_char a r)
  end.

(** [str(c).lower().strip().replace(" ", "_").replace(".", "")]. *)
Definition normalize_column_name (c : string) : string :=
  remove_char "."%char (replace_char " "%char "_"%char (strip (lower c))).

Definition alias_map : list (string * string) :=
  [("product_name", "nama_produk"); ("merek", "brand");
   ("subkategori", "sub_kategori");
   ("skin_type", "jenis_kulit_kompatibel"); ("description", "deskripsi");
   ("harga", "harga_idr"); ("price", "harga_idr"); ("size", "size_ml");
   ("gambar", "url_gambar"); ("image", "url_gambar");
   ("link_gambar", "url_gambar")].

Fixpoint assoc_get (k : string) (m : list (string * string)) : option string :=
  match m with
  | [] => None
  | (k', v) :: m' => if String.eqb k k' then Some v else assoc_get k m'
  end.

(** [df.rename(columns=alias_map)] on one label. *)
Definition rename_column (c : string) : string :=
  match assoc_get c alias_map with
  | Some v => v
  | None => c
  end.

(** The label of an input column after lines 80 and 88. *)
Definition canonical_name (c : string) : string :=
  rename_column (normalize_column_name c).

Definition required_cols : list string :=
  ["id"; "nama_produk"; "brand"; "sub_kategori"; "manfaat";
   "jenis_kulit_kompatibel"; "rating"; "deskripsi"; "harga_idr"; "size_ml";
   "klaim"; "url_gambar"].

Definition numeric_cols : list string := ["rating"; "harga_idr"; "size_ml"].

Definition col_names (df : DataFrame) : list string := map fst (columns df).

Definition rename_columns (df : DataFrame) : DataFrame :=
  {| nrows := nrows df;
     columns := map (fun '(c, v) => (canonical_name c, v)) (columns df) |}.

(** The value a missing canonical column is filled with. *)
Definition fill_value (col : string) : cell :=
  if in_list col numeric_cols then CNaN else CStr "".

(** One round of the loop of lines 94-96. *)
Definition add_missing (df : DataFrame) (col : string) : DataFrame :=
  if in_list col (col_names df) then df
  else {| nrows := nrows df;
          columns := columns df ++ [(col, repeat (fill_value col) (nrows df))] |}.

Definition count_col (col : string) (df : DataFrame) : nat :=
  List.length (List.filter (fun cv => String.eqb col (fst cv)) (columns df)).

(** Apply [f] to the cells of every column labelled [col]. *)
Definition map_col (f : cell -> cell) (col : string) (df : DataFrame) : DataFrame :=
  {| nrows := nrows df;
     columns := map (fun cv => if String.eqb col (fst cv)
                               then (fst cv, map f (snd cv)) else cv)
                    (columns df) |}.

(** The first column labelled [col]. *)
Fixpoint get_col (col : string) (cols : list (string * list cell)) : option (list cell) :=
  match cols with
  | [] => None
  | (c, v) :: r => if String.eqb col c then Some v else get_col col r
  end.

Section Schema.

(** Python's parse of a numeric text, as [pd.to_numeric] applies it to a
    cell of text, and the text [astype(str)] gives a number.  What
    [astype(str)] makes of a missing value depends on the version of pandas,
    which the repository does not pin: the text "nan" ([nan_as_text], pandas
    before 3.0) or the missing value again (pandas 3). *)
Variable parse_float : string -> option R.
Variable repr_float : R -> string.
Variable nan_as_text : bool.

(** [pd.to_numeric(_, errors="coerce")] on one cell. *)
Definition to_numeric_cell (c : cell) : cell :=
  match c with
  | CStr s => match parse_float s with Some x => CNum x | None => CNaN end
  | CNum x => CNum x
  | CNaN => CNaN
  end.

(** [astype(str)] on one cell. *)
Definition astype_str_cell (c : cell) : cell :=
  match c with
  | CStr s => CStr s
  | CNum x => CStr (repr_float x)
  | CNaN => if nan_as_text then CStr "nan" else CNaN
  end.

(** [fillna('')] on one cell. *)
Definition fillna_empty_cell (c : cell) : cell :=
  match c with
  | CNaN => CStr ""
  | _ => c
  end.

(** One round of the loop of lines 98-99.  [df[col]] is a column when the
    label occurs once; when it occurs more than once [df[col]] is a table
    and [pd.to_numeric] raises [TypeError]. *)
Definition coerce_numeric (df : DataFrame) (col : string) : result DataFrame :=
  match count_col col df with
  | 0 => Raise KeyError
  | 1 => Ok (map_col to_numeric_cell col df)
  | _ => Raise TypeError
  end.

(** One round of the loop of lines 101-103. *)
Definition stringify (df : DataFrame) (col : string) : result DataFrame :=
  if in_list col ("id" :: numeric_cols) then Ok df
  else match count_col col df with
       | 0 => Raise KeyError
       | _ => Ok (map_col (fun c => fillna_empty_cell (astype_str_cell c)) col df)
       end.

Fixpoint for_each (step : DataFrame -> string -> result DataFrame)
         (cols : list string) (df : DataFrame) : result DataFrame :=
  match cols with
  | [] => Ok df
  | c :: r => try! df' := step df c in for_each step r df'
  end.

(** [_normalize_schema].  [order] is the order in which Python iterates
    the set [required_cols]. *)
Definition _normalize_schema (order : list string) (df : DataFrame) : result DataFrame :=
  let df := rename_columns df in
  let df := fold_left add_missing order df in
  try! df := for_each coerce_numeric numeric_cols df in
  for_each stringify order df.

End Schema.

(** ** Catalog and engine state *)

Record Product : Type := {
  id : cell;
  nama_produk : string;
  brand : string;
  sub_kategori : string;
  manfaat : string;
  jenis_kulit_kompatibel : string;
  rating : option R;
  deskripsi : string;
  harga_idr : option R;
  size_ml : option R;
  klaim : string;
  url_gambar : string;
  combined_features : string;
  skin_tokens : gset string
}.

(** The fields of the object the methods below read. *)
Record System : Type := {
  products_df : option (list Product);
  similarity_matrix : option (list (list R))
}.

(** ** Compatibility filter *)

Definition skin_type_mapping : list (string * list string) :=
  [("berjerawat", ["berjerawat"; "jerawat"; "acne"]);
   ("berminyak", ["berminyak"; "oily"; "minyak"]);
   ("kering", ["kering"; "dry"]);
   ("sensitif", ["sensitif"; "sensitive"]);
   ("normal", ["normal"]);
   ("kombinasi", ["kombinasi"; "combination"]);
   ("kusam", ["kusam"; "dull"])].

(** [normalize_skin_type]. *)
Definition normalize_skin_type (user_skin_type : string) : string :=
  let user_skin_type_lower := lower user_skin_type in
  match List.find (fun sv => existsb (fun variant => contains variant user_skin_type_lower)
                                     (snd sv))
                  skin_type_mapping with
  | Some sv => fst sv
  | None => user_skin_type_lower
  end.

(** The reading of the normalisation as a rule table: the first group of
    [skin_type_mapping] one of whose variants occurs in the lower-cased text
    gives the token; the lower-cased text itself when no group has one. *)
Definition matches_group (text : string) (g : string * list string) : Prop :=
  exists v, In v (snd g) /\ contains v text = true.

Definition first_match_or_lower (user_skin_type t : string) : Prop :=
  (exists pre g post,
      skin_type_mapping = (pre ++ g :: post)%list /\
      matches_group (lower user_skin_type) g /\
      (forall g', In g' pre -> ~ matches_group (lower user_skin_type) g') /\
      t = fst g)
  \/
  ((forall g, In g skin_type_mapping -> ~ matches_group (lower user_skin_type) g) /\
   t = lower user_skin_type).

(** The predicate of the mask of line 197. *)
Definition compatible (normalized_skin_type : string) (s : gset string) : bool :=
  bool_decide ("semua" ∈ s) || bool_decide (normalized_skin_type ∈ s).

(** The rows of a table with their index labels [0 .. N-1]. *)
Definition indexed {A : Type} (l : list A) : list (nat * A) :=
  combine (seq 0 (List.length l)) l.

(** [find_compatible_products]: the selected rows keep their index label. *)
Definition find_compatible_products (self : System) (user_skin_type : string)
  : result (list (nat * Product)) :=
  match products_df self with
  | None => Raise TypeError
  | Some df =>
      let normalized_skin_type := normalize_skin_type user_skin_type in
      Ok (List.filter (fun ip => compatible normalized_skin_type (skin_tokens (snd ip)))
                      (indexed df))
  end.

(** ** Similarity engine *)

Local Open Scope R_scope.

Definition dot (x y : list R) : R :=
  fold_right Rplus 0 (map (fun p => fst p * snd p) (combine x y)).

Definition row_norm (x : list R) : R := sqrt (dot x x).

(** A zero norm is replaced by one before the division, so a zero row
    stays a zero row. *)
Definition handle_zero (n : R) : R := if Req_dec_T n 0 then 1 else n.

Definition normalize_row (x : list R) : list R :=
  map (fun v => v / handle_zero (row_norm x)) x.

(** [sklearn.metrics.pairwise.cosine_similarity(X)]: the rows are scaled to
    unit length and multiplied pairwise. *)
Definition cosine_similarity (X : list (list R)) : list (list R) :=
  let Xn := map normalize_row X in
  map (fun a => map (fun b => dot a b) Xn) Xn.

(** [build_similarity_matrix].  [fit_transform] is the vectoriser: it gives
    one row of term weights for each document, or raises ([ValueError], empty
    vocabulary, when no document has a token); the matrix is then left as it
    was. *)
Definition build_similarity_matrix
           (fit_transform : list string -> result (list (list R)))
           (self : System) : result System :=
  match products_df self with
  | None => Raise TypeError
  | Some df =>
      try! tfidf_matrix := fit_transform (map combined_features df) in
      Ok {| products_df := products_df self;
            similarity_matrix := Some (cosine_similarity tfidf_matrix) |}
  end.

(** ** Similarity engine in binary64

    The same computation on the numbers of the machine, in the order the
    library adds them (a running sum from the first term on): the row norm of
    [sklearn.preprocessing.normalize], which leaves a row of norm zero as it
    is, and the products of the scaled rows. *)

Definition dot_f64 (x y : list float) : float :=
  fold_left (fun acc p => PrimFloat.add acc (PrimFloat.mul (fst p) (snd p)))
            (combine x y) 0%float.

Definition normalize_row_f64 (x : list float) : list float :=
  let norm := PrimFloat.sqrt (dot_f64 x x) in
  if PrimFloat.eqb norm 0%float then x
  else map (fun v => PrimFloat.div v norm) x.

Definition cosine_similarity_f64 (X : list (list float)) : list (list float) :=
  let Xn := map normalize_row_f64 X in
  map (fun a => map (fun b => dot_f64 a b) Xn) Xn.

(** Entry [(i, j)] of a matrix. *)
Definition entry (M : list (list R)) (i j : nat) : R := nth j (nth i M []) 0.

(** ** Ranker *)

(** [max] of a non-empty list of integers. *)
Definition list_max_Z (l : list Z) : Z :=
  match l with
  | [] => 0%Z
  | x :: r => fold_left Z.max r x
  end.

(** The position an integer index denotes along an axis of length [n] of an
    array: a negative index counts from the end; [None] is [IndexError]. *)
Definition array_index (n : nat) (k : Z) : option nat :=
  if (0 <=? k)%Z && (k <? Z.of_nat n)%Z then Some (Z.to_nat k)
  else if (- Z.of_nat n <=? k)%Z && (k <? 0)%Z then Some (Z.to_nat (k + Z.of_nat n))
  else None.

Fixpoint all_some {A : Type} (l : list (option A)) : option (list A) :=
  match l with
  | [] => Some []
  | Some a :: r => match all_some r with Some r' => Some (a :: r') | None => None end
  | None :: _ => None
  end.

Definition n_columns (M : list (list R)) : nat :=
  match M with
  | [] => 0%nat
  | row :: _ => List.length row
  end.

(** [M[np.ix_(idx, idx)]]. *)
Definition ix_submatrix (M : list (list R)) (idx : list Z) : result (list (list R)) :=
  match all_some (map (array_index (List.length M)) idx),
        all_some (map (array_index (n_columns M)) idx) with
  | Some rows, Some cols => Ok (map (fun i => map (fun j => entry M i j) cols) rows)
  | _, _ => Raise IndexError
  end.

Definition sum_R (l : list R) : R := fold_right Rplus 0 l.

(** [mean] of one row. *)
Definition mean (l : list R) : R := sum_R l / INR (List.length l).

(** [df.loc[k]] on a table with index labels [0 .. N-1]. *)
Definition loc {A : Type} (df : list A) (k : Z) : option A :=
  if (0 <=? k)%Z then nth_error df (Z.to_nat k) else None.

(** [df.loc[labels]]: [KeyError] when a label is missing. *)
Definition loc_list {A : Type} (df : list A) (labels : list Z) : result (list A) :=
  match all_some (map (loc df) labels) with
  | Some rows => Ok rows
  | None => Raise KeyError
  end.

(** [fillna(3.0) / 5.0] on one rating. *)
Definition normalized_rating (p : Product) : R :=
  match rating p with
  | Some r => r
  | None => 3
  end / 5.

Definition blend (avg_sim rating01 : R) : R := avg_sim * 0.6 + rating01 * 0.4.

(** [DataFrame.head(n)]. *)
Definition df_head {A : Type} (n : Z) (l : list A) : list A :=
  if (0 <=? n)%Z then firstn (Z.to_nat n) l
  else firstn (List.length l - Z.to_nat (- n)) l.

Fixpoint result_list {A : Type} (l : list (result A)) : result (list A) :=
  match l with
  | [] => Ok []
  | r :: rs => try! a := r in try! t := result_list rs in Ok (a :: t)
  end.

Definition opt_result {A : Type} (e : exn) (o : option A) : result A :=
  match o with
  | Some a => Ok a
  | None => Raise e
  end.

(** [rank_on_subset].  [sort_values] is [DataFrame.sort_values(by='score',
    ascending=False)] on the rows [(original_index, score)]. *)
Definition rank_on_subset (sort_values : list (Z * R) -> list (Z * R))
           (self : System) (subset_indices : list Z) (top_n : Z)
  : result (list (Z * R * Product)) :=
  match subset_indices with
  | [] => Ok []
  | _ :: _ =>
      match similarity_matrix self with
      | None => Ok []
      | Some M =>
          try! df := opt_result TypeError (products_df self) in
          if (Z.of_nat (List.length df) <=? list_max_Z subset_indices)%Z then Ok []
          else
            try! sim_sub_matrix := ix_submatrix M subset_indices in
            let avg_sim_scores := map mean sim_sub_matrix in
            try! subset_df := loc_list df subset_indices in
            let ratings := map normalized_rating subset_df in
            let final_scores :=
              map (fun ar => blend (fst ar) (snd ar)) (combine avg_sim_scores ratings) in
            let ranked_df := combine subset_indices final_scores in
            let ranked_df := df_head top_n (sort_values ranked_df) in
            result_list
              (map (fun row =>
                      try! prod := opt_result KeyError (loc df (fst row)) in
                      Ok (fst row, snd row, prod))
                   ranked_df)
      end
  end.

(** A stable sort by descending score, by insertion. *)
Fixpoint insert_desc (x : Z * R) (l : list (Z * R)) : list (Z * R) :=
  match l with
  | [] => [x]
  | y :: r => if Rlt_dec (snd x) (snd y) then y :: insert_desc x r else x :: l
  end.

Definition insertion_sort_desc (l : list (Z * R)) : list (Z * R) :=
  fold_right insert_desc [] l.

(** A sort by descending score that puts a row after the rows of equal
    score it meets, so that the rows of one score come out in the reverse of
    the order they had.  [sort_values] is called with its default kind
    ('quicksort'), which promises no order among equal keys: this result is
    as good a one as that of the stable sort. *)
Fixpoint insert_after_ties (x : Z * R) (l : list (Z * R)) : list (Z * R) :=
  match l with
  | [] => [x]
  | y :: r => if Rle_dec (snd x) (snd y) then y :: insert_after_ties x r else x :: l
  end.

Definition sort_ties_reversed (l : list (Z * R)) : list (Z * R) :=
  fold_right insert_after_ties [] l.

(** ** Reading of the spec's ranking rule *)

(** A candidate index that is a row of a table of [n] rows. *)
Definition valid_index (n : nat) (k : Z) : Prop := (0 <= k < Z.of_nat n)%Z.

(** Mean similarity of candidate [k] to all candidates of the subset,
    itself included. *)
Definition mean_similarity (M : list (list R)) (subset : list Z) (k : Z) : R :=
  mean (map (fun j => entry M (Z.to_nat k) (Z.to_nat j)) subset).

(** The rating of a row, 3.0 when it is missing. *)
Definition rating_or_default (p : Product) : R :=
  match rating p with
  | Some r => r
  | None => 3
  end.

(** 0.6 x mean similarity + 0.4 x (rating / 5.0). *)
Definition blended_score (M : list (list R)) (subset : list Z) (k : Z) (p : Product) : R :=
  0.6 * mean_similarity M subset k + 0.4 * (rating_or_default p / 5).

(** ** Reading of the spec's tie-breaking rule *)

Definition score_is (v : R) (row : Z * R) : bool :=
  if Req_dec_T (snd row) v then true else false.

(** A sort is stable when it keeps, for every score, the rows of that score
    in the order they had. *)
Definition stable_on_ties (sort_values : list (Z * R) -> list (Z * R)) : Prop :=
  forall l v, List.filter (score_is v) (sort_values l) = List.filter (score_is v) l.

(** [x] stands somewhere before [y] in [l]. *)
Definition precedes {A : Type} (x y : A) (l : list A) : Prop :=
  exists l1 l2 l3, l = (l1 ++ x :: l2 ++ y :: l3)%list.

(** Entries of equal score are in the order their indices have in the
    candidate list. *)
Definition ties_keep_list_order (subset : list Z) (out : list (Z * R * Product)) : Prop :=
  forall a b, precedes a b out -> snd (fst a) = snd (fst b) ->
              precedes (fst (fst a)) (fst (fst b)) subset.

(** Entries of equal score are in ascending order of catalogue index. *)
Definition ties_ascending_index (out : list (Z * R * Product)) : Prop :=
  forall a b, precedes a b out -> snd (fst a) = snd (fst b) ->
              (fst (fst a) < fst (fst b))%Z.

(** The blended score of candidate [k], when [k] is a row of the
    catalogue. *)
Definition candidate_score (df : list Product) (M : list (list R)) (subset : list Z)
           (k : Z) : option R :=
  option_map (blended_score M subset k) (loc df k).

(** What the vectoriser must give for a catalogue of [n] rows: a matrix of
    [n] rows of one length, of weights that are not negative. *)
Definition tfidf_well_formed (X : list (list R)) (n : nat) : Prop :=
  List.length X = n /\
  (exists d, Forall (fun row => List.length row = d) X) /\
  Forall (Forall (fun v => 0 <= v)) X.

(** A vectoriser whose vocabulary is the single term [term]: the row of a
    document, scaled to unit length, is [1] when the term occurs in it and
    [0] when it does not.  It stands for the capped vocabulary of
    [TfidfVectorizer(max_features=1000)]: a document none of whose terms is
    kept gets a zero row, and when no document has a term the vocabulary is
    empty and the vectoriser raises [ValueError]. *)
Definition one_term_vectorizer (term : string) (docs : list string)
  : result (list (list R)) :=
  if existsb (contains term) docs
  then Ok (map (fun d => [if contains term d then 1 else 0]) docs)
  else Raise ValueError.

(** ** Example data *)

(** The columns lines 172-175 derive for one row. *)
Definition with_derived (p : Product) : Product :=
  {| id := id p; nama_produk := nama_produk p; brand := brand p;
     sub_kategori := sub_kategori p; manfaat := manfaat p;
     jenis_kulit_kompatibel := jenis_kulit_kompatibel p; rating := rating p;
     deskripsi := deskripsi p; harga_idr := harga_idr p; size_ml := size_ml p;
     klaim := klaim p; url_gambar := url_gambar p;
     combined_features :=
       lower (jenis_kulit_kompatibel p ++ " " ++ sub_kategori p ++ " "
              ++ manfaat p ++ " " ++ klaim p)%string;
     skin_tokens := _parse_skin_tokens (Some (jenis_kulit_kompatibel p)) |}.

(** Two rows of the built-in catalogue. *)
Definition micellar_water : Product :=
  with_derived
    {| id := CNum 3; nama_produk := "The Originote"; brand := "The Originote";
       sub_kategori := "Micellar Water";
       manfaat := "Membersihkan Kotoran & Makeup";
       jenis_kulit_kompatibel := "Semua jenis kulit"; rating := Some 5;
       deskripsi := "Micellar water untuk makeup waterproof";
       harga_idr := Some 45000; size_ml := Some 300;
       klaim := "Cleansing|Oil control"; url_gambar := "";
       combined_features := ""; skin_tokens := ∅ |}.

Definition ceramide_moisturizer : Product :=
  with_derived
    {| id := CNum 2; nama_produk := "Glad2Glow"; brand := "Glad2Glow";
       sub_kategori := "Ceramide Moisturizer";
       manfaat := "Merawat Skin Barrier";
       jenis_kulit_kompatibel := "Kulit kering"; rating := None;
       deskripsi := "Moisturizer dengan ekstrak blueberry dan ceramide";
       harga_idr := Some 34000; size_ml := Some 30;
       klaim := "Soothing|Barrier"; url_gambar := "";
       combined_features := ""; skin_tokens := ∅ |}.

(** A row whose text fields hold only a dash: its combined text
    ["- - - -"] has no token of two or more word characters, so the
    vectoriser gives it a row of zeros whatever the vocabulary. *)
Definition unlabelled_serum : Product :=
  with_derived
    {| id := CNum 11; nama_produk := "Serum"; brand := "-";
       sub_kategori := "-"; manfaat := "-";
       jenis_kulit_kompatibel := "-"; rating := None;
       deskripsi := "-"; harga_idr := None; size_ml := None;
       klaim := "-"; url_gambar := "";
       combined_features := ""; skin_tokens := ∅ |}.

(** One product tagged {semua} and one tagged {kering}. *)
Definition skin_catalog : list Product := [micellar_water; ceramide_moisturizer].

Definition loaded_skin : System :=
  {| products_df := Some skin_catalog; similarity_matrix := None |}.

Definition two_products : list Product := [micellar_water; unlabelled_serum].

(** The object after [load_and_preprocess_data] on these rows, before
    [build_similarity_matrix]. *)
Definition loaded : System :=
  {| products_df := Some two_products; similarity_matrix := None |}.

(** A catalogue whose only row has no token. *)
Definition loaded_unlabelled : System :=
  {| products_df := Some [unlabelled_serum]; similarity_matrix := None |}.

(** The object after [build_similarity_matrix]: the first row of weights is
    not zero, the second one is. *)
Definition built : System :=
  {| products_df := Some two_products;
     similarity_matrix := Some (cosine_similarity [[1]; [0]]) |}.

(** A catalogue with one row twice: the combined texts are the same, so
    every similarity is 1 and the two blended scores are equal. *)
Definition twin_products : list Product := [micellar_water; micellar_water].

Definition tied : System :=
  {| products_df := Some twin_products;
     similarity_matrix := Some [[1; 1]; [1; 1]] |}.

(** A parser of unsigned decimal integers, a fragment of what Python reads
    as a number, and a printer of numbers; they run the examples of the
    schema normaliser. *)
Fixpoint digits_value (acc : Z) (s : string) : option Z :=
  match s with
  | EmptyString => Some acc
  | String c r =>
      if code_between 48 57 c
      then digits_value (10 * acc + Z.of_nat (nat_of_ascii c) - 48)%Z r
      else None
  end.

Definition parse_unsigned (s : string) : option R :=
  if String.eqb s "" then None else option_map IZR (digits_value 0 s).

Definition print_number (x : R) : string := "<number>".

(** An uploaded table with free-form headers. *)
Definition raw_table : DataFrame :=
  {| nrows := 2;
     columns := [("Product Name", [CStr "Skintific"; CStr "Glad2Glow"]);
                 ("Harga", [CStr "89000"; CStr "murah"]);
                 ("Rating", [CNum 5; CNaN])] |}.

(** An uploaded table in which two headers are aliases of one canonical
    column. *)
Definition price_and_harga : DataFrame :=
  {| nrows := 1;
     columns := [("harga", [CStr "89000"]); ("price", [CStr "95000"])] |}.

(** ** Price bounds of the slider *)

(** Python's [int] of a float: the fraction is cut off. *)
Definition py_int (x : R) : Z := if Rle_dec 0 x then Zfloor x else Zceil x.

(** A float that is no NaN: a real number or an infinity. *)
Inductive number : Type :=
| Finite (x : R)
| Infinite (positive : bool).

(** [pd.to_numeric(_, errors="coerce")] on one cell of the column: the
    parse of a text may give an infinity ("inf", "1e999"). *)
Definition to_number (parse_number : string -> option number) (c : cell)
  : option number :=
  match c with
  | CStr s => parse_number s
  | CNum x => Some (Finite x)
  | CNaN => None
  end.

(** [pd.to_numeric(series, errors="coerce").dropna()]. *)
Definition dropna_numbers (parse_number : string -> option number)
           (series : list cell) : list number :=
  flat_map (fun c => match to_number parse_number c with
                     | Some v => [v]
                     | None => []
                     end) series.

Definition number_le (a b : number) : bool :=
  match a, b with
  | Infinite false, _ => true
  | _, Infinite true => true
  | Finite x, Finite y => if Rle_dec x y then true else false
  | _, _ => false
  end.

Definition number_min (a b : number) : number := if number_le a b then a else b.

Definition number_max (a b : number) : number := if number_le a b then b else a.

(** Python's [int] of a float that is no NaN: [OverflowError] on an
    infinity. *)
Definition int_of_number (v : number) : result Z :=
  match v with
  | Finite x => Ok (py_int x)
  | Infinite _ => Raise OverflowError
  end.

(** [safe_price_bounds]; the parse of a number is the one of
    [pd.to_numeric], and [min] and [max] are taken over the numbers that
    are left. *)
Definition safe_price_bounds (parse_number : string -> option number)
           (series : list cell) : result (Z * Z) :=
  match dropna_numbers parse_number series with
  | [] => Ok (0, 500000)%Z
  | x :: r =>
      try! vmin := int_of_number (fold_left number_min r x) in
      try! vmax := int_of_number (fold_left number_max r x) in
      if (vmax <=? vmin)%Z then Ok (Z.max 0 (vmin - 1), vmax + 50000)%Z
      else Ok (vmin, vmax)
  end.

(** What [safe_price_bounds] returns on numbers that are all finite. *)
Definition finite_bounds (xs : list R) : Z * Z :=
  match xs with
  | [] => (0, 500000)%Z
  | x :: r =>
      let vmin := py_int (fold_left Rmin r x) in
      let vmax := py_int (fold_left Rmax r x) in
      if (vmax <=? vmin)%Z then (Z.max 0 (vmin - 1), vmax + 50000)%Z
      else (vmin, vmax)
  end.

(** ** The handler of the button (lines 314-334) *)

(** What the handler shows: the warning of an empty filter result, the
    warning of an empty ranking, or the ranked products. *)
Inductive outcome : Type :=
| NoMatch
| NoRanking
| Recommendations (ranked : list (Z * R * Product)).

Definition Rle_bool (x y : R) : bool := if Rle_dec x y then true else false.

(** The mask of lines 317-322 on one row.  ["(Semua)"] in a choice box
    switches its test off; the price test is made when the compatible table
    has a row ([price_test]); a missing rating counts as 0 and a missing
    price as -1. *)
Definition passes_filters (sub_kat brand_choice : string) (min_rating : R)
           (price_range : R * R) (price_test : bool) (p : Product) : bool :=
  (String.eqb sub_kat "(Semua)" || String.eqb (strip (sub_kategori p)) sub_kat)
  && (String.eqb brand_choice "(Semua)" || String.eqb (strip (brand p)) brand_choice)
  && Rle_bool min_rating (match rating p with Some r => r | None => 0 end)
  && (negb price_test
      || (let price := match harga_idr p with Some h => h | None => -1 end in
          Rle_bool (fst price_range) price && Rle_bool price (snd price_range))).

(** The handler: the choices of the sidebar are its arguments, and
    [sort_values] is the library sort [rank_on_subset] calls. *)
Definition recommend (sort_values : list (Z * R) -> list (Z * R)) (self : System)
           (skin_choice_raw sub_kat brand_choice : string) (min_rating : R)
           (price_range : R * R) (top_n : Z) : result outcome :=
  try! compatible := find_compatible_products self skin_choice_raw in
  let price_test := match compatible with [] => false | _ :: _ => true end in
  let filtered :=
    List.filter (fun ip => passes_filters sub_kat brand_choice min_rating price_range
                                          price_test (snd ip))
                compatible in
  match filtered with
  | [] => Ok NoMatch
  | _ :: _ =>
      let idxs := map (fun ip => Z.of_nat (fst ip)) filtered in
      try! ranked := rank_on_subset sort_values self idxs top_n in
      match ranked with
      | [] => Ok NoRanking
      | _ :: _ => Ok (Recommendations ranked)
      end
  end.

(** ** Readings used by the theorems on the parser and the handler *)

(** The substrings lines 60-67 look for before they give token [t]. *)
Definition keywords (t : string) : list string :=
  if String.eqb t "berjerawat" then ["acne"; "jerawat"]
  else if String.eqb t "berminyak" then ["oily"; "berminyak"]
  else if String.eqb t "kering" then ["dry"; "kering"]
  else if String.eqb t "sensitif" then ["sensitive"; "sensitif"]
  else if String.eqb t "kombinasi" then ["comb"; "kombinasi"]
  else if String.eqb t "kusam" then ["dull"; "kusam"]
  else [t].

(** The mask of lines 317-322, condition by condition. *)
Definition filter_conditions (sub_kat brand_choice : string) (min_rating : R)
           (price_range : R * R) (p : Product) : Prop :=
  (sub_kat = "(Semua)" \/ strip (sub_kategori p) = sub_kat) /\
  (brand_choice = "(Semua)" \/ strip (brand p) = brand_choice) /\
  match rating p with Some r => min_rating <= r | None => min_rating <= 0 end /\
  match harga_idr p with
  | Some h => fst price_range <= h <= snd price_range
  | None => fst price_range <= -1 <= snd price_range
  end.

(** The column [harga_idr] of the catalogue. *)
Definition harga_idr_column (df : list Product) : list cell :=
  map (fun p => match harga_idr p with Some h => CNum h | None => CNaN end) df.

(** ** More example data *)

(** A catalogue of two rows with the matrix built for a catalogue of one
    row: a second [load_and_preprocess_data] without
    [build_similarity_matrix]. *)
Definition stale : System :=
  {| products_df := Some two_products;
     similarity_matrix := Some (cosine_similarity [[1]]) |}.

(** A parser of the numeric texts of the examples: unsigned decimal
    integers and the infinity "inf". *)
Definition parse_unsigned_or_inf (s : string) : option number :=
  if String.eqb s "inf" then Some (Infinite true)
  else option_map Finite (parse_unsigned s).

(** A price column with a text that is no number and a missing value. *)
Definition price_series : list cell := [CNum 89000; CStr "murah"; CNaN; CNum 28000].

(** A price column with an infinite price. *)
Definition price_series_inf : list cell := [CNum 89000; CStr "inf"].

(** An uploaded table with a column the schema does not know and a missing
    product name. *)
Definition notes_table : DataFrame :=
  {| nrows := 2;
     columns := [("Nama Produk", [CStr "Serum"; CNaN]);
                 ("Catatan", [CNum 1; CNaN])] |}.

(** An uploaded table in which two headers are aliases of one text column. *)
Definition brand_and_merek : DataFrame :=
  {| nrows := 1;
     columns := [("Brand", [CStr "Wardah"]); ("Merek", [CStr "Wardah"]);
                 ("Harga", [CStr "40000"])] |}.

(** An uploaded table with two headers that are normalised to one name. *)
Definition two_ratings : DataFrame :=
  {| nrows := 1;
     columns := [("Rating", [CNum 5]); ("rating ", [CNum 4])] |}.

Local Close Scope R_scope.
Local Open Scope string_scope.

(** * Text lemmas *)



Lemma append_cons (c : ascii) (a b : string) : String c a ++ b = String c (a ++ b).
Proof. reflexivity. Qed.

Lemma append_nil_r (a : string) : a ++ "" = a.
Proof. induction a as [|c a IH]; [reflexivity|]. rewrite append_cons, IH. reflexivity. Qed.

Lemma append_assoc (a b c : string) : (a ++ b) ++ c = a ++ (b ++ c).
Proof.
  induction a as [|x a IH]; [reflexivity|].
  rewrite !append_cons, IH. reflexivity.
Qed.

Lemma prefix_spec (w s : string) :
  String.prefix w s = true <-> exists b, s = w ++ b.
Proof.
  revert s. induction w as [|a w IH]; intros s.
  - destruct s; simpl; (split; [intros _; eexists; reflexivity | reflexivity]).
  - destruct s as [|c s]; simpl.
    + split; [discriminate | intros [b Hb]; discriminate].
    + destruct (ascii_dec a c) as [->|Hne].
      * rewrite IH. split; intros [b Hb]; exists b.
        -- rewrite Hb. reflexivity.
        -- rewrite append_cons in Hb. now inversion Hb.
      * split; [discriminate | intros [b Hb]; rewrite append_cons in Hb; inversion Hb; congruence].
Qed.

Lemma contains_spec (w s : string) : contains w s = true <-> occurs_in w s.
Proof.
  induction s as [|c s IH].
  - cbn [contains]. rewrite orb_false_r, prefix_spec. split.
    + intros [b Hb]. exists "", b. exact Hb.
    + intros (a & b & H). destruct a; [exists b; exact H | discriminate].
  - cbn [contains]. rewrite orb_true_iff, IH, prefix_spec. split.
    + intros [[b Hb] | (a & b & H)].
      * exists "", b. exact Hb.
      * exists (String c a), b. rewrite append_cons, H. reflexivity.
    + intros (a & b & H). destruct a as [|x a].
      * left. exists b. exact H.
      * right. rewrite append_cons in H. inversion H. exists a, b. reflexivity.
Qed.

Lemma occurs_in_refl (s : string) : occurs_in s s.
Proof. exists "", "". simpl. now rewrite append_nil_r. Qed.

Lemma occurs_in_trans (p q s : string) : occurs_in p q -> occurs_in q s -> occurs_in p s.
Proof.
  intros (a & b & ->) (a' & b' & ->).
  exists (a' ++ a), (b ++ b'). now rewrite !append_assoc.
Qed.

Lemma occurs_in_prefix (a b : string) : occurs_in a (a ++ b).
Proof. exists "", b. reflexivity. Qed.

Lemma occurs_in_suffix (a b : string) : occurs_in b (a ++ b).
Proof. exists a, "". now rewrite append_nil_r. Qed.

Lemma contains_mono (w p s : string) :
  occurs_in p s -> contains w p = true -> contains w s = true.
Proof. rewrite !contains_spec. intros H1 H2. exact (occurs_in_trans _ _ _ H2 H1). Qed.

Lemma lstrip_suffix (s : string) : exists a, s = a ++ lstrip s.
Proof.
  induction s as [|c s [a IH]]; [exists ""; reflexivity|].
  simpl. destruct (is_space c).
  - exists (String c a). rewrite append_cons, <- IH. reflexivity.
  - exists "". reflexivity.
Qed.

Lemma string_rev_app (a b : string) : string_rev (a ++ b) = string_rev b ++ string_rev a.
Proof.
  induction a as [|c a IH].
  - change ("" ++ b) with b. simpl. now rewrite append_nil_r.
  - rewrite append_cons. simpl. rewrite IH, append_assoc. reflexivity.
Qed.

Lemma string_rev_involutive (s : string) : string_rev (string_rev s) = s.
Proof.
  induction s as [|c s IH]; [reflexivity|].
  simpl. rewrite string_rev_app, IH. reflexivity.
Qed.

Lemma rstrip_prefix (s : string) : exists b, s = rstrip s ++ b.
Proof.
  unfold rstrip. destruct (lstrip_suffix (string_rev s)) as [a Ha].
  exists (string_rev a).
  rewrite <- string_rev_app, <- Ha, string_rev_involutive. reflexivity.
Qed.

Lemma strip_occurs (s : string) : occurs_in (strip s) s.
Proof.
  unfold strip. destruct (rstrip_prefix s) as [b Hb].
  destruct (lstrip_suffix (rstrip s)) as [a Ha].
  exists a, b. rewrite <- append_assoc, <- Ha. exact Hb.
Qed.

Lemma lower_app (a b : string) : lower (a ++ b) = lower a ++ lower b.
Proof.
  induction a as [|c a IH]; [reflexivity|].
  rewrite append_cons. simpl. rewrite IH. reflexivity.
Qed.

Lemma lower_char_idem (c : ascii) : lower_char (lower_char c) = lower_char c.
Proof. destruct c as [[] [] [] [] [] [] [] []]; reflexivity. Qed.

Lemma lower_idem (s : string) : lower (lower s) = lower s.
Proof. induction s as [|c s IH]; simpl; [|rewrite lower_char_idem, IH]; reflexivity. Qed.

Lemma lower_occurs (p s : string) : occurs_in p s -> occurs_in (lower p) (lower s).
Proof. intros (a & b & ->). exists (lower a), (lower b). now rewrite !lower_app. Qed.

Lemma re_split_nonempty (s : string) : re_split s <> [].
Proof.
  induction s as [|c s IH]; simpl; [discriminate|].
  destruct (is_delim c); [discriminate|]. destruct (re_split s); discriminate.
Qed.

Lemma re_split_head_prefix (s q : string) (qs : list string) :
  re_split s = q :: qs -> exists b, s = q ++ b.
Proof.
  revert q qs. induction s as [|c s IH]; intros q qs; simpl.
  - intros [= <- <-]. exists "". reflexivity.
  - destruct (is_delim c).
    + intros [= <- <-]. exists (String c s). reflexivity.
    + destruct (re_split s) as [|q' qs'] eqn:E.
      * exfalso. now apply (re_split_nonempty s).
      * intros [= <- <-]. destruct (IH _ _ eq_refl) as [b ->].
        exists b. reflexivity.
Qed.

Lemma re_split_occurs (s p : string) : In p (re_split s) -> occurs_in p s.
Proof.
  revert p. induction s as [|c s IH]; intros p; simpl.
  - intros [<-|[]]. apply occurs_in_refl.
  - destruct (is_delim c).
    + intros [<-|H].
      * exists "", (String c s). reflexivity.
      * destruct (IH _ H) as (a & b & ->). exists (String c a), b. reflexivity.
    + destruct (re_split s) as [|q qs] eqn:E.
      * exfalso. now apply (re_split_nonempty s).
      * intros [<-|H].
        -- destruct (re_split_head_prefix _ _ _ E) as [b ->].
           exists "", b. reflexivity.
        -- destruct (IH _ (or_intror H)) as (a & b & ->). exists (String c a), b. reflexivity.
Qed.

Lemma literal_word_at_inv (prev : option ascii) (w s : string) :
  literal_word_at prev w s = true ->
  word_boundary prev (head_char s) = true /\
  (exists rest, s = w ++ rest) /\
  word_boundary (String.get (String.length w - 1) s) (String.get (String.length w) s) = true.
Proof.
  unfold literal_word_at. rewrite !andb_true_iff, prefix_spec. tauto.
Qed.

(** A match of a literal that starts with a word character: the text
    starts with the literal and no word character stands before it. *)
Lemma literal_word_at_head (prev : option ascii) (a : ascii) (w s : string) :
  is_word a = true ->
  literal_word_at prev (String a w) s = true ->
  is_word_opt prev = false /\ exists rest, s = String a (w ++ rest).
Proof.
  intros Ha H. apply literal_word_at_inv in H as (Hb & [rest ->] & _).
  rewrite append_cons in Hb. unfold word_boundary, head_char in Hb.
  cbn [get is_word_opt] in Hb. rewrite Ha in Hb.
  split; [destruct (is_word_opt prev); [discriminate Hb | reflexivity]|].
  exists rest. reflexivity.
Qed.

Lemma kulit_dan_at_None (prev : option ascii) (s : string) :
  literal_word_at prev "kulit" s = false ->
  literal_word_at prev "dan" s = false ->
  kulit_dan_at prev s = None.
Proof. intros H1 H2. unfold kulit_dan_at. now rewrite H1, H2. Qed.

Lemma kulit_dan_at_nonword_head (prev : option ascii) (c : ascii) (r : string) :
  is_word c = false -> kulit_dan_at prev (String c r) = None.
Proof.
  intros Hc. apply kulit_dan_at_None.
  - destruct (literal_word_at prev "kulit" (String c r)) eqn:E; [|reflexivity].
    apply literal_word_at_head in E as [_ [rest E]]; [|reflexivity].
    injection E as -> _. discriminate Hc.
  - destruct (literal_word_at prev "dan" (String c r)) eqn:E; [|reflexivity].
    apply literal_word_at_head in E as [_ [rest E]]; [|reflexivity].
    injection E as -> _. discriminate Hc.
Qed.

Lemma kulit_dan_at_word_prev (prev : option ascii) (s : string) :
  is_word_opt prev = true -> kulit_dan_at prev s = None.
Proof.
  intros Hp. apply kulit_dan_at_None.
  - destruct (literal_word_at prev "kulit" s) eqn:E; [|reflexivity].
    apply literal_word_at_head in E as [E _]; [congruence | reflexivity].
  - destruct (literal_word_at prev "dan" s) eqn:E; [|reflexivity].
    apply literal_word_at_head in E as [E _]; [congruence | reflexivity].
Qed.

Lemma sub_scan_no_match (prev : option ascii) (c : ascii) (r : string) :
  kulit_dan_at prev (String c r) = None ->
  sub_scan prev 0 (String c r) = String c (sub_scan (Some c) 0 r).
Proof. intros H. cbn [sub_scan]. rewrite H. reflexivity. Qed.

(** A match is dropped whole, and the text goes on with a character that
    is not a word character, or ends. *)
Lemma sub_scan_match (prev : option ascii) (s : string) (n : nat) :
  kulit_dan_at prev s = Some n ->
  exists x m rest last,
    s = String x m ++ rest /\ is_word_opt (head_char rest) = false /\
    sub_scan prev 0 s = sub_scan (Some last) 0 rest.
Proof.
  unfold kulit_dan_at.
  destruct (literal_word_at prev "kulit" s) eqn:Hk;
    [|destruct (literal_word_at prev "dan" s) eqn:Hd; [|discriminate]]; intros _.
  - pose proof Hk as Hk'.
    apply literal_word_at_inv in Hk' as (_ & [rest ->] & Ha).
    exists "k"%char, "ulit", rest, "t"%char. split; [reflexivity|].
    cbv [append] in *. unfold word_boundary in Ha. simpl in Ha.
    split. { unfold head_char. destruct (is_word_opt (get 0 rest)); [discriminate|reflexivity]. }
    cbn [sub_scan]. unfold kulit_dan_at. rewrite Hk. reflexivity.
  - pose proof Hd as Hd'.
    apply literal_word_at_inv in Hd' as (_ & [rest ->] & Ha).
    exists "d"%char, "an", rest, "n"%char. split; [reflexivity|].
    cbv [append] in *. unfold word_boundary in Ha. simpl in Ha.
    split. { unfold head_char. destruct (is_word_opt (get 0 rest)); [discriminate|reflexivity]. }
    cbn [sub_scan]. unfold kulit_dan_at. rewrite Hk, Hd. reflexivity.
Qed.

Lemma prefix_cons (a c : ascii) (w s : string) :
  String.prefix (String a w) (String c s) = true <-> a = c /\ String.prefix w s = true.
Proof.
  cbn [String.prefix]. destruct (ascii_dec a c) as [->|Hne]; [tauto|].
  split; [discriminate | intros [? _]; contradiction].
Qed.

(** After a word character the scan copies a run of word characters. *)
Lemma sub_scan_prefix_after_word (w s : string) (prev : option ascii) :
  all_word w = true -> is_word_opt prev = true ->
  String.prefix w (sub_scan prev 0 s) = true -> String.prefix w s = true.
Proof.
  revert s prev. induction w as [|a w IH]; intros s prev Hw Hp H.
  - destruct s; reflexivity.
  - simpl in Hw. apply andb_true_iff in Hw as [Ha Hw].
    destruct s as [|c r]; [discriminate H|].
    rewrite sub_scan_no_match in H by now apply kulit_dan_at_word_prev.
    apply prefix_cons in H as [<- H]. apply prefix_cons. split; [reflexivity|].
    apply (IH r (Some a)); assumption.
Qed.

(** A run of word characters at the head of the result is at the head of
    the text. *)
Lemma sub_scan_prefix (w s : string) (prev : option ascii) :
  all_word w = true -> w <> "" ->
  String.prefix w (sub_scan prev 0 s) = true -> String.prefix w s = true.
Proof.
  intros Hw Hne H. destruct w as [|a w]; [contradiction|].
  simpl in Hw. apply andb_true_iff in Hw as [Ha Hw].
  destruct s as [|c r]; [discriminate H|].
  destruct (kulit_dan_at prev (String c r)) as [n|] eqn:E.
  - exfalso. apply sub_scan_match in E as (x0 & m & rest & last & _ & Hr & Hs).
    rewrite Hs in H. destruct rest as [|x rest]; [discriminate H|].
    simpl in Hr. rewrite sub_scan_no_match in H by now apply kulit_dan_at_nonword_head.
    apply prefix_cons in H as [<- _]. congruence.
  - rewrite sub_scan_no_match in H by assumption.
    apply prefix_cons in H as [<- H]. apply prefix_cons. split; [reflexivity|].
    apply (sub_scan_prefix_after_word w r (Some a)); assumption.
Qed.

Lemma append_length (a b : string) : String.length (a ++ b) = String.length a + String.length b.
Proof. induction a as [|c a IH]; [reflexivity|]. rewrite append_cons. simpl. now rewrite IH. Qed.

(** The substitution makes no new occurrence of a run of word characters. *)
Lemma sub_scan_contains (w : string) :
  all_word w = true -> w <> "" ->
  forall (n : nat) (s : string) (prev : option ascii),
    String.length s <= n ->
    contains w (sub_scan prev 0 s) = true -> contains w s = true.
Proof.
  intros Hw Hne. induction n as [|n IH]; intros s prev Hlen H.
  - destruct s; [|simpl in Hlen; lia]. exact H.
  - destruct s as [|c r]; [exact H|].
    destruct (kulit_dan_at prev (String c r)) as [k|] eqn:E.
    + apply sub_scan_match in E as (x & m & rest & last & Hs & Hr & Hscan).
      rewrite Hscan in H. rewrite Hs.
      apply (contains_mono w rest); [apply occurs_in_suffix|].
      apply (IH rest (Some last)); [|exact H].
      apply (f_equal String.length) in Hs. rewrite append_length in Hs.
      simpl in Hs, Hlen. lia.
    + rewrite sub_scan_no_match in H by assumption.
      cbn [contains] in H |- *. apply orb_true_iff in H as [H|H]; apply orb_true_iff.
      * left. rewrite <- (sub_scan_no_match prev) in H by assumption.
        now apply (sub_scan_prefix w _ prev).
      * right. apply (IH r (Some c)); [simpl in Hlen; lia | exact H].
Qed.

(** * Skin-token canonicaliser *)

Ltac case_ifs :=
  repeat match goal with
         | H : context [if ?b then _ else _] |- _ => destruct b eqn:?
         end.

Lemma in_list_In (x : string) (l : list string) : in_list x l = true -> In x l.
Proof.
  unfold in_list. rewrite existsb_exists. intros (y & Hy & E).
  apply String.eqb_eq in E. now subst.
Qed.

Lemma canonicalize_in_CANON (p t : string) :
  _canonicalize_skin_token p = Some t -> In t CANON.
Proof.
  unfold _canonicalize_skin_token. intros H. case_ifs; try discriminate;
    injection H as <-; try (now apply in_list_In); cbn; tauto.
Qed.

Lemma canonicalize_truthy (p t : string) :
  _canonicalize_skin_token p = Some t -> truthy (Some t) = true.
Proof.
  intros H. apply canonicalize_in_CANON in H. cbn in H.
  repeat destruct H as [<-|H]; try reflexivity. contradiction.
Qed.

Lemma phrase_tokens_In (parts : list string) (t : string) :
  In t (phrase_tokens parts) <-> exists p, In p parts /\ _canonicalize_skin_token p = Some t.
Proof.
  unfold phrase_tokens. rewrite in_flat_map. split.
  - intros (p & Hp & Ht). exists p. split; [exact Hp|].
    destruct (_canonicalize_skin_token p) as [t'|] eqn:E; [|contradiction].
    rewrite (canonicalize_truthy _ _ E) in Ht. destruct Ht as [->|[]]. reflexivity.
  - intros (p & Hp & E). exists p. split; [exact Hp|].
    rewrite E, (canonicalize_truthy _ _ E). now left.
Qed.

Lemma phrase_tokens_nil (parts : list string) :
  phrase_tokens parts = [] <-> forall p, In p parts -> _canonicalize_skin_token p = None.
Proof.
  split.
  - intros H p Hp. destruct (_canonicalize_skin_token p) as [t|] eqn:E; [|reflexivity].
    assert (Ht : In t (phrase_tokens parts)) by (apply phrase_tokens_In; eauto).
    rewrite H in Ht. contradiction.
  - intros H. destruct (phrase_tokens parts) as [|t l] eqn:E; [reflexivity|].
    assert (Ht : In t (phrase_tokens parts)) by (rewrite E; now left).
    apply phrase_tokens_In in Ht as (p & Hp & Hc). rewrite (H p Hp) in Hc. discriminate.
Qed.

(** A phrase of a text without "semua" is not canonicalised to "semua". *)
Lemma canonicalize_not_semua (p : string) :
  contains "semua" (lower p) = false -> _canonicalize_skin_token p <> Some "semua".
Proof.
  intros Hp H.
  assert (Ht : contains "semua" (strip (re_sub_kulit_dan (strip (lower p)))) = false).
  { destruct (contains "semua" (strip (re_sub_kulit_dan (strip (lower p))))) eqn:E; [|reflexivity].
    apply (contains_mono _ _ _ (strip_occurs _)) in E.
    apply (sub_scan_contains "semua" eq_refl ltac:(discriminate) _ _ None (le_n _)) in E.
    apply (contains_mono _ _ _ (strip_occurs _)) in E. congruence. }
  unfold _canonicalize_skin_token in H.
  destruct (String.eqb p ""); [discriminate|].
  destruct (in_list _ CANON).
  - injection H as H. rewrite H in Ht. discriminate Ht.
  - rewrite Ht in H. case_ifs; discriminate.
Qed.

Lemma phrase_tokens_not_semua (raw : string) :
  contains "semua" (lower raw) = false ->
  ~ In "semua" (phrase_tokens (re_split (lower raw))).
Proof.
  intros Hraw Hin. apply phrase_tokens_In in Hin as (p & Hp & Hc).
  apply (canonicalize_not_semua p); [|exact Hc].
  destruct (contains "semua" (lower p)) eqn:E; [|reflexivity].
  apply re_split_occurs, lower_occurs in Hp. rewrite lower_idem in Hp.
  apply (contains_mono _ _ _ Hp) in E. congruence.
Qed.

Lemma list_to_set_empty_nil (l : list string) :
  list_to_set (C := gset string) l = ∅ <-> l = [].
Proof.
  split; [|intros ->; reflexivity].
  destruct l as [|x l]; [reflexivity|]. intros H. exfalso.
  assert (Hx : x ∈ (list_to_set (x :: l) : gset string)) by set_solver.
  rewrite H in Hx. set_solver.
Qed.

(** The three outcomes of [_parse_skin_tokens]. *)
Lemma parse_skin_tokens_cases (s : option string) :
  (s = None /\ _parse_skin_tokens s = {["semua"]}) \/
  (exists raw, s = Some raw /\
     ((contains "semua" (lower raw) = true /\ _parse_skin_tokens s = {["semua"]}) \/
      (contains "semua" (lower raw) = false /\
       phrase_tokens (re_split (lower raw)) = [] /\ _parse_skin_tokens s = {["semua"]}) \/
      (contains "semua" (lower raw) = false /\
       phrase_tokens (re_split (lower raw)) <> [] /\
       _parse_skin_tokens s = list_to_set (phrase_tokens (re_split (lower raw)))))).
Proof.
  destruct s as [raw|]; [right; exists raw; split; [reflexivity|] | left; split; reflexivity].
  unfold _parse_skin_tokens.
  destruct (contains "semua" (lower raw)); [left; split; reflexivity | right].
  destruct (decide (list_to_set (phrase_tokens (re_split (lower raw))) = (∅ : gset string))) as [E|E].
  - left. split; [reflexivity|]. split; [|reflexivity]. now apply list_to_set_empty_nil.
  - right. split; [reflexivity|]. split; [|reflexivity].
    intros H. apply E. now apply list_to_set_empty_nil.
Qed.

Lemma singleton_semua_props :
  ({["semua"]} : gset string) <> ∅ /\
  (forall t, t ∈ ({["semua"]} : gset string) -> In t CANON).
Proof.
  split; [apply non_empty_singleton_L|].
  intros t Ht. apply elem_of_singleton in Ht as ->. cbn. tauto.
Qed.

(** C3.  For every raw skin-type value, absent or text,
    [_parse_skin_tokens] gives a set that is not empty and holds only tokens
    of the canonical vocabulary; the set is exactly {semua} when the value is
    absent, and when no phrase of the text is canonicalised to a token. *)
Theorem parse_skin_tokens_nonempty (s : option string) :
  _parse_skin_tokens s <> ∅ /\
  (forall t, t ∈ _parse_skin_tokens s -> In t CANON) /\
  (s = None -> _parse_skin_tokens s = {["semua"]}) /\
  (forall raw, s = Some raw ->
     (forall p, In p (re_split (lower raw)) -> _canonicalize_skin_token p = None) ->
     _parse_skin_tokens s = {["semua"]}).
Proof.
  destruct singleton_semua_props as [Hne Hcanon].
  destruct (parse_skin_tokens_cases s) as
    [[-> H] | (raw & -> & [[Hc H] | [(Hc & Hn & H) | (Hc & Hn & H)]])];
    rewrite H.
  1-3: repeat split; try assumption; discriminate.
  split; [|split; [|split]].
  - intros E. apply list_to_set_empty_nil in E. contradiction.
  - intros t Ht. apply elem_of_list_to_set, list_elem_of_In, phrase_tokens_In in Ht
      as (p & _ & Hp). exact (canonicalize_in_CANON _ _ Hp).
  - discriminate.
  - intros raw' [= <-] Hall. apply phrase_tokens_nil in Hall. contradiction.
Qed.

(** C7, as the code has it.  When [semua] is in the token set, the set is
    exactly {semua}, and the value was absent, or its lower-cased text
    contains "semua", or no phrase of it is canonicalised to a token (the
    fail-open rule).  The English word "all" is no signal. *)
Theorem semua_token_origin (s : option string) :
  "semua" ∈ _parse_skin_tokens s ->
  _parse_skin_tokens s = {["semua"]} /\
  (s = None \/
   exists raw, s = Some raw /\
     (contains "semua" (lower raw) = true \/
      forall p, In p (re_split (lower raw)) -> _canonicalize_skin_token p = None)).
Proof.
  destruct (parse_skin_tokens_cases s) as
    [[-> H] | (raw & -> & [[Hc H] | [(Hc & Hn & H) | (Hc & Hn & H)]])];
    rewrite H; intros Hin.
  - split; [reflexivity | now left].
  - split; [reflexivity | right; exists raw; split; [reflexivity | now left]].
  - split; [reflexivity | right; exists raw; split; [reflexivity | right]].
    now apply phrase_tokens_nil.
  - exfalso. apply elem_of_list_to_set, list_elem_of_In in Hin.
    exact (phrase_tokens_not_semua raw Hc Hin).
Qed.

Lemma semua_token_origin_witness :
  "semua" ∈ _parse_skin_tokens (Some "Semua jenis kulit") /\
  _parse_skin_tokens (Some "Semua jenis kulit") = {["semua"]}.
Proof.
  assert (H : "semua" ∈ _parse_skin_tokens (Some "Semua jenis kulit")).
  { vm_compute. reflexivity. }
  split; [exact H|]. exact (proj1 (semua_token_origin _ H)).
Defined.

Lemma semua_without_signal :
  "semua" ∈ _parse_skin_tokens (Some "nan") /\
  _parse_skin_tokens (Some "nan") = {["semua"]} /\
  contains "semua" (lower "nan") = false /\ contains "all" (lower "nan") = false /\
  _parse_skin_tokens None = {["semua"]}.
Proof. repeat split; vm_compute; reflexivity. Qed.

(** C8, as the code has it.  A text whose lower-cased form contains "semua"
    gives exactly {semua}, whatever else it holds; and a text gives exactly
    {semua} only if it contains "semua" or none of its phrases is
    canonicalised to a token.  The word "all" alone does not short-circuit. *)
Theorem semua_text_short_circuit (raw : string) :
  (contains "semua" (lower raw) = true -> _parse_skin_tokens (Some raw) = {["semua"]}) /\
  (_parse_skin_tokens (Some raw) = {["semua"]} <->
   contains "semua" (lower raw) = true \/ phrase_tokens (re_split (lower raw)) = []).
Proof.
  destruct (parse_skin_tokens_cases (Some raw)) as
    [[[=] _] | (raw' & [= <-] & [[Hc H] | [(Hc & Hn & H) | (Hc & Hn & H)]])].
  - split; [intros _; exact H|]. split; [now left | intros _; exact H].
  - split; [intros _; exact H|]. split; [now right | intros _; exact H].
  - split; [congruence|]. split.
    + intros E. exfalso. rewrite E in H.
      apply (phrase_tokens_not_semua raw Hc).
      apply list_elem_of_In, (elem_of_list_to_set (C := gset string)). rewrite <- H.
      now apply elem_of_singleton.
    + intros [E|E]; [congruence | contradiction].
Qed.

Lemma english_all_not_short_circuit :
  contains "all" (lower "all, dry") = true /\
  _parse_skin_tokens (Some "all, dry") = {["kering"]} /\
  "semua" ∉ _parse_skin_tokens (Some "all, dry").
Proof. repeat split; vm_compute; try reflexivity. intros H. discriminate H. Qed.

(** * Schema normaliser *)

Lemma in_list_iff (x : string) (l : list string) : in_list x l = true <-> In x l.
Proof.
  unfold in_list. rewrite existsb_exists. split.
  - intros (y & Hy & E). apply String.eqb_eq in E. now subst.
  - intros H. exists x. split; [exact H | apply String.eqb_refl].
Qed.

Lemma in_list_false (x : string) (l : list string) : in_list x l = false <-> ~ In x l.
Proof. rewrite <- in_list_iff. destruct (in_list x l); split; congruence. Qed.

Lemma get_col_None (c : string) (cols : list (string * list cell)) :
  ~ In c (map fst cols) -> get_col c cols = None.
Proof.
  induction cols as [|[c' v] cols IH]; [reflexivity|]. simpl. intros H.
  destruct (String.eqb_spec c c') as [->|Hne]; [exfalso; apply H; now left|].
  apply IH. tauto.
Qed.

Lemma get_col_app_l (c : string) (cols more : list (string * list cell)) :
  In c (map fst cols) -> get_col c (cols ++ more) = get_col c cols.
Proof.
  induction cols as [|[c' v] cols IH]; [intros []|]. simpl.
  destruct (String.eqb_spec c c') as [->|Hne]; [reflexivity|].
  intros [H|H]; [congruence | now apply IH].
Qed.

Lemma get_col_app_r (c : string) (cols more : list (string * list cell)) :
  ~ In c (map fst cols) -> get_col c (cols ++ more) = get_col c more.
Proof.
  induction cols as [|[c' v] cols IH]; [reflexivity|]. simpl. intros H.
  destruct (String.eqb_spec c c') as [->|Hne]; [exfalso; apply H; now left|].
  apply IH. tauto.
Qed.

Lemma get_col_Some_In (c : string) (cols : list (string * list cell)) :
  In c (map fst cols) -> exists v, get_col c cols = Some v.
Proof.
  induction cols as [|[c' v] cols IH]; [intros []|]. simpl.
  destruct (String.eqb_spec c c') as [->|Hne]; [eauto|].
  intros [H|H]; [congruence | now apply IH].
Qed.

Lemma NoDup_snoc (l : list string) (a : string) :
  List.NoDup l -> ~ In a l -> List.NoDup (l ++ [a]).
Proof.
  induction 1 as [|x l Hx Hl IH]; intros Ha; simpl.
  - constructor; [intros [] | constructor].
  - constructor.
    + intros Hin. apply in_app_or in Hin as [Hin|[<-|[]]]; [contradiction|].
      apply Ha. now left.
    + apply IH. intros Hin. apply Ha. now right.
Qed.

(** ** Filling the missing columns *)

Lemma add_missing_nrows (df : DataFrame) (col : string) :
  nrows (add_missing df col) = nrows df.
Proof. unfold add_missing. now destruct (in_list col (col_names df)). Qed.

Lemma add_missing_names (df : DataFrame) (col : string) :
  col_names (add_missing df col)
  = if in_list col (col_names df) then col_names df else (col_names df ++ [col])%list.
Proof.
  unfold add_missing. destruct (in_list col (col_names df)); [reflexivity|].
  unfold col_names. cbn [columns]. now rewrite map_app.
Qed.

Lemma add_missing_get_old (df : DataFrame) (col c : string) :
  In c (col_names df) ->
  get_col c (columns (add_missing df col)) = get_col c (columns df).
Proof.
  intros H. unfold add_missing. destruct (in_list col (col_names df)); [reflexivity|].
  cbn [columns]. now apply get_col_app_l.
Qed.

Lemma add_missing_get_new (df : DataFrame) (col : string) :
  ~ In col (col_names df) ->
  get_col col (columns (add_missing df col))
  = Some (repeat (fill_value col) (nrows df)).
Proof.
  intros H. unfold add_missing. rewrite (proj2 (in_list_false _ _) H).
  cbn [columns]. rewrite get_col_app_r by exact H. simpl.
  now rewrite String.eqb_refl.
Qed.

Lemma fill_missing_spec (order : list string) (df : DataFrame) :
  List.NoDup (col_names df) ->
  let df' := fold_left add_missing order df in
  nrows df' = nrows df /\
  List.NoDup (col_names df') /\
  (forall c, In c (col_names df) -> In c (col_names df') /\
             get_col c (columns df') = get_col c (columns df)) /\
  (forall c, In c order -> In c (col_names df')) /\
  (forall c, In c order -> ~ In c (col_names df) ->
             get_col c (columns df') = Some (repeat (fill_value c) (nrows df))).
Proof.
  revert df. induction order as [|a order IH]; intros df Hnd; cbn [fold_left].
  - repeat split; try assumption; try (intros c []); tauto.
  - assert (Hnd' : List.NoDup (col_names (add_missing df a))).
    { rewrite add_missing_names. destruct (in_list a (col_names df)) eqn:E; [exact Hnd|].
      apply in_list_false in E. now apply NoDup_snoc. }
    destruct (IH (add_missing df a) Hnd') as (Hn & Hnd2 & Hold & Hall & Hnew).
    assert (Hsub : forall c, In c (col_names df) -> In c (col_names (add_missing df a))).
    { intros c Hc. rewrite add_missing_names. destruct (in_list a (col_names df)); [exact Hc|].
      apply in_or_app. now left. }
    assert (Ha : In a (col_names (add_missing df a))).
    { rewrite add_missing_names. destruct (in_list a (col_names df)) eqn:E.
      - now apply in_list_iff. - apply in_or_app. right. now left. }
    split; [now rewrite Hn, add_missing_nrows|]. split; [exact Hnd2|]. split; [|split].
    + intros c Hc. destruct (Hold c (Hsub c Hc)) as [H1 H2].
      split; [exact H1|]. rewrite H2. now apply add_missing_get_old.
    + intros c [<-|Hc]; [apply (Hold _ Ha) | now apply Hall].
    + intros c Hc Hnot. destruct (string_dec c a) as [->|Hne].
      * destruct (Hold a Ha) as [_ ->]. now apply add_missing_get_new.
      * destruct Hc as [Hc|Hc]; [congruence|].
        rewrite <- (add_missing_nrows df a). apply Hnew; [exact Hc|].
        rewrite add_missing_names. destruct (in_list a (col_names df)); [exact Hnot|].
        intros Hin. apply in_app_or in Hin as [Hin|[Hin|[]]]; congruence.
Qed.

(** ** Coercing one column *)

Lemma map_col_names (f : cell -> cell) (col : string) (df : DataFrame) :
  col_names (map_col f col df) = col_names df.
Proof.
  unfold col_names, map_col. cbn [columns]. rewrite List.map_map.
  apply map_ext. intros [c v]. cbn [fst]. now destruct (String.eqb col c).
Qed.

Lemma map_col_get (f : cell -> cell) (col c : string) (df : DataFrame) :
  get_col c (columns (map_col f col df))
  = if String.eqb col c then option_map (map f) (get_col c (columns df))
    else get_col c (columns df).
Proof.
  unfold map_col. cbn [columns].
  induction (columns df) as [|[c' v] cols IH]; [now destruct (String.eqb col c)|].
  cbn [map fst snd]. destruct (String.eqb_spec col c') as [->|Hne]; cbn [get_col fst snd].
  - destruct (String.eqb_spec c c') as [->|Hne'].
    + now rewrite String.eqb_refl.
    + exact IH.
  - destruct (String.eqb_spec c c') as [->|Hne'].
    + destruct (String.eqb_spec col c'); [congruence | reflexivity].
    + exact IH.
Qed.

Lemma count_col_present (col : string) (df : DataFrame) :
  In col (col_names df) -> count_col col df <> 0.
Proof.
  unfold count_col, col_names. induction (columns df) as [|[c v] cols IH]; [intros []|].
  cbn [map fst List.filter]. destruct (String.eqb_spec col c) as [->|Hne]; [discriminate|].
  intros [H|H]; [congruence | now apply IH].
Qed.

Lemma count_col_absent (col : string) (df : DataFrame) :
  ~ In col (col_names df) -> count_col col df = 0.
Proof.
  unfold count_col, col_names. induction (columns df) as [|[c v] cols IH]; [reflexivity|].
  cbn [map fst List.filter]. intros H.
  destruct (String.eqb_spec col c) as [->|Hne]; [exfalso; apply H; now left|].
  apply IH. intros Hin. apply H. now right.
Qed.

Lemma count_col_once (col : string) (df : DataFrame) :
  List.NoDup (col_names df) -> In col (col_names df) -> count_col col df = 1.
Proof.
  unfold col_names. intros Hnd Hin.
  assert (H : forall cols : list (string * list cell),
             List.NoDup (map fst cols) -> In col (map fst cols) ->
             List.length (List.filter (fun cv => String.eqb col (fst cv)) cols) = 1).
  { induction cols as [|[c v] cols IH]; [intros _ []|].
    cbn [map fst List.filter]. intros Hn Hi. inversion Hn as [|? ? Hc Hn']; subst.
    destruct (String.eqb_spec col c) as [->|Hne].
    - cbn [List.length]. f_equal.
      apply (count_col_absent c {| nrows := 0; columns := cols |}). exact Hc.
    - destruct Hi as [Hi|Hi]; [congruence | now apply IH]. }
  now apply H.
Qed.

Lemma count_col_names (c : string) (df : DataFrame) :
  count_col c df = List.length (List.filter (String.eqb c) (col_names df)).
Proof.
  unfold count_col, col_names. induction (columns df) as [|[c' v] cols IH]; [reflexivity|].
  cbn [map fst List.filter]. destruct (String.eqb c c'); cbn [List.length]; now rewrite IH.
Qed.

Lemma add_missing_count (df : DataFrame) (a c : string) :
  (count_col c df <= count_col c (add_missing df a))%nat.
Proof.
  rewrite !count_col_names, add_missing_names.
  destruct (in_list a (col_names df)); [reflexivity|].
  rewrite List.filter_app, length_app. lia.
Qed.

Lemma fill_missing_count (order : list string) (df : DataFrame) (c : string) :
  (count_col c df <= count_col c (fold_left add_missing order df))%nat.
Proof.
  revert df. induction order as [|a order IH]; intros df; cbn [fold_left]; [reflexivity|].
  etransitivity; [apply add_missing_count | apply IH].
Qed.

Lemma fill_missing_present (order : list string) (df : DataFrame) (c : string) :
  In c order -> (1 <= count_col c (fold_left add_missing order df))%nat.
Proof.
  revert df. induction order as [|a order IH]; intros df; [intros []|].
  cbn [fold_left]. intros [->|Hc]; [|now apply IH].
  etransitivity; [|apply fill_missing_count].
  assert (Hin : In c (col_names (add_missing df c))).
  { rewrite add_missing_names. destruct (in_list c (col_names df)) eqn:E.
    - now apply in_list_iff.
    - apply in_or_app. right. now left. }
  apply count_col_present in Hin. lia.
Qed.

Lemma map_col_count (f : cell -> cell) (col c : string) (df : DataFrame) :
  count_col c (map_col f col df) = count_col c df.
Proof. now rewrite !count_col_names, map_col_names. Qed.

Lemma add_missing_count_le_one (df : DataFrame) (a c : string) :
  (count_col c df <= 1)%nat -> (count_col c (add_missing df a) <= 1)%nat.
Proof.
  intros H. unfold add_missing. destruct (in_list a (col_names df)) eqn:E; [exact H|].
  apply in_list_false in E. unfold count_col. cbn [columns].
  rewrite List.filter_app, length_app. cbn [List.filter fst].
  destruct (String.eqb_spec c a) as [->|Hne]; cbn [List.length].
  - fold (count_col a df). rewrite (count_col_absent a df E). lia.
  - fold (count_col c df). lia.
Qed.

Lemma fill_missing_count_le_one (order : list string) (df : DataFrame) (c : string) :
  (count_col c df <= 1)%nat -> (count_col c (fold_left add_missing order df) <= 1)%nat.
Proof.
  revert df. induction order as [|a order IH]; intros df H; cbn [fold_left]; [exact H|].
  now apply IH, add_missing_count_le_one.
Qed.

(** The loop of lines 94-96, whatever labels the table repeats. *)
Lemma fill_missing_gen (order : list string) (df : DataFrame) :
  let df' := fold_left add_missing order df in
  nrows df' = nrows df /\
  (forall c, In c (col_names df) -> In c (col_names df') /\
             get_col c (columns df') = get_col c (columns df)) /\
  (forall c, In c order -> In c (col_names df')) /\
  (forall c, In c order -> ~ In c (col_names df) ->
             get_col c (columns df') = Some (repeat (fill_value c) (nrows df))).
Proof.
  revert df. induction order as [|a order IH]; intros df; cbn [fold_left].
  - repeat split; try assumption; try (intros c []); tauto.
  - destruct (IH (add_missing df a)) as (Hn & Hold & Hall & Hnew).
    assert (Hsub : forall c, In c (col_names df) -> In c (col_names (add_missing df a))).
    { intros c Hc. rewrite add_missing_names. destruct (in_list a (col_names df)); [exact Hc|].
      apply in_or_app. now left. }
    assert (Ha : In a (col_names (add_missing df a))).
    { rewrite add_missing_names. destruct (in_list a (col_names df)) eqn:E.
      - now apply in_list_iff. - apply in_or_app. right. now left. }
    split; [now rewrite Hn, add_missing_nrows|]. split; [|split].
    + intros c Hc. destruct (Hold c (Hsub c Hc)) as [H1 H2].
      split; [exact H1|]. rewrite H2. now apply add_missing_get_old.
    + intros c [<-|Hc]; [apply (Hold _ Ha) | now apply Hall].
    + intros c Hc Hnot. destruct (string_dec c a) as [->|Hne].
      * destruct (Hold a Ha) as [_ ->]. now apply add_missing_get_new.
      * destruct Hc as [Hc|Hc]; [congruence|].
        rewrite <- (add_missing_nrows df a). apply Hnew; [exact Hc|].
        rewrite add_missing_names. destruct (in_list a (col_names df)); [exact Hnot|].
        intros Hin. apply in_app_or in Hin as [Hin|[Hin|[]]]; congruence.
Qed.

Section SchemaProofs.

Variable parse_float : string -> option R.
Variable repr_float : R -> string.
Variable nan_as_text : bool.

Lemma to_numeric_cell_idem (c : cell) :
  to_numeric_cell parse_float (to_numeric_cell parse_float c)
  = to_numeric_cell parse_float c.
Proof. destruct c as [s| |]; simpl; [destruct (parse_float s)|..]; reflexivity. Qed.

Lemma to_numeric_cell_not_text (c : cell) :
  to_numeric_cell parse_float c = CNaN \/ exists x, to_numeric_cell parse_float c = CNum x.
Proof. destruct c as [s|x|]; simpl; [destruct (parse_float s)|..]; eauto. Qed.

(** The loop of lines 98-99 on columns that occur once. *)
Lemma coerce_numeric_loop_once (cols : list string) (df : DataFrame) :
  List.NoDup cols ->
  (forall c, In c cols -> count_col c df = 1%nat) ->
  exists df',
    for_each (coerce_numeric parse_float) cols df = Ok df' /\
    nrows df' = nrows df /\ col_names df' = col_names df /\
    forall c, get_col c (columns df')
              = if in_list c cols
                then option_map (map (to_numeric_cell parse_float)) (get_col c (columns df))
                else get_col c (columns df).
Proof.
  revert df. induction cols as [|a cols IH]; intros df Hc Hin; cbn [for_each].
  - exists df. repeat split; reflexivity.
  - inversion Hc as [|? ? Ha Hc']; subst.
    unfold coerce_numeric at 1.
    rewrite (Hin a (or_introl eq_refl)). cbn [bind].
    destruct (IH (map_col (to_numeric_cell parse_float) a df) Hc') as (df' & Hf & Hn & Hnames & Hget).
    + intros c H. rewrite map_col_count. apply Hin. now right.
    + exists df'. split; [exact Hf|]. split; [exact Hn|].
      split; [now rewrite Hnames, map_col_names|].
      intros c. rewrite Hget, map_col_get. unfold in_list. cbn [existsb].
      fold (in_list c cols). rewrite (String.eqb_sym c a).
      destruct (String.eqb_spec a c) as [->|Hne]; cbn [orb]; [|reflexivity].
      rewrite (proj2 (in_list_false _ _) Ha). reflexivity.
Qed.

Lemma coerce_numeric_loop (cols : list string) (df : DataFrame) :
  List.NoDup cols -> List.NoDup (col_names df) ->
  (forall c, In c cols -> In c (col_names df)) ->
  exists df',
    for_each (coerce_numeric parse_float) cols df = Ok df' /\
    nrows df' = nrows df /\ col_names df' = col_names df /\
    forall c, get_col c (columns df')
              = if in_list c cols
                then option_map (map (to_numeric_cell parse_float)) (get_col c (columns df))
                else get_col c (columns df).
Proof.
  intros Hc Hnd Hin. apply coerce_numeric_loop_once; [exact Hc|].
  intros c H. apply count_col_once; [exact Hnd | now apply Hin].
Qed.

(** The loop of lines 101-103 on columns that are present. *)
Lemma stringify_loop (cols : list string) (df : DataFrame) :
  List.NoDup cols ->
  (forall c, In c cols -> In c (col_names df)) ->
  exists df',
    for_each (stringify repr_float nan_as_text) cols df = Ok df' /\
    nrows df' = nrows df /\ col_names df' = col_names df /\
    forall c, get_col c (columns df')
              = if in_list c cols && negb (in_list c ("id" :: numeric_cols))
                then option_map (map (fun x => fillna_empty_cell (astype_str_cell repr_float nan_as_text x)))
                                (get_col c (columns df))
                else get_col c (columns df).
Proof.
  revert df. induction cols as [|a cols IH]; intros df Hc Hin; cbn [for_each].
  - exists df. repeat split; reflexivity.
  - inversion Hc as [|? ? Ha Hc']; subst.
    unfold stringify at 1.
    destruct (in_list a ("id" :: numeric_cols)) eqn:Ea; cbn [bind].
    + destruct (IH df Hc') as (df' & Hf & Hn & Hnames & Hget).
      { intros c H. apply Hin. now right. }
      exists df'. split; [exact Hf|]. split; [exact Hn|]. split; [exact Hnames|].
      intros c. rewrite Hget. unfold in_list at 3. cbn [existsb].
      fold (in_list c cols).
      destruct (String.eqb_spec c a) as [->|Hne]; cbn [orb]; [|reflexivity].
      rewrite Ea, (proj2 (in_list_false _ _) Ha). reflexivity.
    + pose proof (count_col_present a df (Hin a (or_introl eq_refl))) as Hcnt.
      destruct (count_col a df) as [|n] eqn:En; [contradiction|]. cbn [bind].
      destruct (IH (map_col (fun c => fillna_empty_cell (astype_str_cell repr_float nan_as_text c)) a df) Hc')
        as (df' & Hf & Hn & Hnames & Hget).
      { intros c H. rewrite map_col_names. apply Hin. now right. }
      exists df'. split; [exact Hf|]. split; [exact Hn|].
      split; [now rewrite Hnames, map_col_names|].
      intros c. rewrite Hget, map_col_get. unfold in_list at 3. cbn [existsb].
      fold (in_list c cols). rewrite (String.eqb_sym c a).
      destruct (String.eqb_spec a c) as [->|Hne]; cbn [orb]; [|reflexivity].
      rewrite Ea, (proj2 (in_list_false _ _) Ha). reflexivity.
Qed.

End SchemaProofs.

Section SchemaTheorem.

Variable parse_float : string -> option R.
Variable repr_float : R -> string.
Variable nan_as_text : bool.

Lemma rename_columns_names (df : DataFrame) :
  col_names (rename_columns df) = map canonical_name (col_names df).
Proof.
  unfold col_names, rename_columns. cbn [columns]. rewrite !List.map_map.
  apply map_ext. now intros [c v].
Qed.

Lemma required_cols_NoDup : List.NoDup required_cols.
Proof.
  unfold required_cols.
  repeat (constructor; [cbn; intros H; repeat destruct H as [H|H]; try discriminate H; exact H|]).
  constructor.
Qed.

Lemma numeric_cols_required (c : string) : In c numeric_cols -> In c required_cols.
Proof. cbn. intros H. repeat destruct H as [<-|H]; tauto. Qed.

(** C9, as the code has it.  For every input table in which at most one
    header is normalised to each of the numeric columns [rating],
    [harga_idr], [size_ml] (any other header may occur more than once),
    every order of iteration of the set of canonical columns, and either
    version of pandas, [_normalize_schema] returns a table with every
    canonical column: an absent text column is filled with the empty string,
    an absent numeric column with the missing value, and a numeric column
    holds only numbers and missing values, a text that does not parse
    becoming the missing value. *)
Theorem normalize_schema_total (order : list string) (df : DataFrame) :
  Permutation order required_cols ->
  (forall c, In c numeric_cols -> (count_col c (rename_columns df) <= 1)%nat) ->
  exists df',
    _normalize_schema parse_float repr_float nan_as_text order df = Ok df' /\
    nrows df' = nrows df /\
    (forall c, In c required_cols -> In c (col_names df')) /\
    (forall c, In c required_cols -> ~ In c numeric_cols ->
       ~ In c (map canonical_name (col_names df)) ->
       get_col c (columns df') = Some (repeat (CStr "") (nrows df))) /\
    (forall c, In c numeric_cols ->
       ~ In c (map canonical_name (col_names df)) ->
       get_col c (columns df') = Some (repeat CNaN (nrows df))) /\
    (forall c cells, In c numeric_cols ->
       get_col c (columns (rename_columns df)) = Some cells ->
       get_col c (columns df') = Some (map (to_numeric_cell parse_float) cells)) /\
    (forall c cells, In c numeric_cols ->
       get_col c (columns df') = Some cells ->
       Forall (fun x => x = CNaN \/ exists r, x = CNum r) cells) /\
    (forall s, parse_float s = None -> to_numeric_cell parse_float (CStr s) = CNaN).
Proof.
  intros Hperm Hcount. unfold _normalize_schema.
  rewrite <- rename_columns_names.
  set (df1 := rename_columns df) in *.
  assert (Hn1 : nrows df1 = nrows df) by reflexivity.
  destruct (fill_missing_gen order df1) as (Hn2 & Hold2 & Hall2 & Hnew2).
  pose proof (fun c => fill_missing_count_le_one order df1 c) as Hle2.
  pose proof (fun c => fill_missing_present order df1 c) as Hge2.
  set (df2 := fold_left add_missing order df1) in *.
  assert (Hord : forall c, In c order <-> In c required_cols).
  { intros c. split; [apply (Permutation_in _ Hperm) |
                      apply (Permutation_in _ (Permutation_sym Hperm))]. }
  assert (Hndo : List.NoDup order)
    by exact (Permutation_NoDup (Permutation_sym Hperm) required_cols_NoDup).
  assert (Hndn : List.NoDup numeric_cols).
  { unfold numeric_cols.
    repeat (constructor; [cbn; intros H; repeat destruct H as [H|H]; try discriminate H; exact H|]).
    constructor. }
  destruct (coerce_numeric_loop_once parse_float numeric_cols df2 Hndn)
    as (df3 & Hf3 & Hn3 & Hnames3 & Hget3).
  { intros c Hc.
    pose proof (Hle2 c (Hcount c Hc)).
    pose proof (Hge2 c (proj2 (Hord c) (numeric_cols_required c Hc))). lia. }
  rewrite Hf3. cbn [bind].
  destruct (stringify_loop repr_float nan_as_text order df3 Hndo)
    as (df4 & Hf4 & Hn4 & Hnames4 & Hget4).
  { intros c Hc. rewrite Hnames3. now apply Hall2. }
  exists df4. split; [exact Hf4|]. split; [congruence|].
  assert (Hnum4 : forall c, In c numeric_cols ->
            get_col c (columns df4)
            = option_map (map (to_numeric_cell parse_float)) (get_col c (columns df2))).
  { intros c Hc. rewrite Hget4, Hget3.
    assert (E : in_list c ("id" :: numeric_cols) = true) by (apply in_list_iff; now right).
    rewrite E, andb_false_r. now rewrite (proj2 (in_list_iff _ _) Hc). }
  split; [|split; [|split; [|split; [|split]]]].
  - intros c Hc. rewrite Hnames4, Hnames3. now apply Hall2, Hord.
  - intros c Hc Hnn Habs. rewrite Hget4, Hget3.
    rewrite (proj2 (in_list_false _ _) Hnn).
    rewrite (Hnew2 c (proj2 (Hord c) Hc) Habs), Hn1.
    unfold fill_value. rewrite (proj2 (in_list_false _ _) Hnn).
    destruct (_ && _); [|reflexivity]. cbn [option_map]. now rewrite map_repeat.
  - intros c Hc Habs. rewrite (Hnum4 c Hc).
    rewrite (Hnew2 c (proj2 (Hord c) (numeric_cols_required c Hc)) Habs), Hn1.
    unfold fill_value. rewrite (proj2 (in_list_iff _ _) Hc).
    cbn [option_map]. now rewrite map_repeat.
  - intros c cells Hc Hcells. rewrite (Hnum4 c Hc).
    assert (Hin : In c (col_names df1)).
    { unfold col_names. destruct (in_dec string_dec c (map fst (columns df1))) as [H|H]; [exact H|].
      rewrite (get_col_None _ _ H) in Hcells. discriminate. }
    destruct (Hold2 c Hin) as [_ ->]. now rewrite Hcells.
  - intros c cells Hc Hcells. rewrite (Hnum4 c Hc) in Hcells.
    destruct (get_col c (columns df2)) as [cells2|]; [|discriminate].
    injection Hcells as <-. apply Forall_map.
    apply List.Forall_forall. intros x _. apply to_numeric_cell_not_text.
  - intros s Hs. simpl. now rewrite Hs.
Qed.

End SchemaTheorem.

Lemma normalize_schema_total_witness :
  exists df',
    _normalize_schema parse_unsigned print_number true required_cols brand_and_merek
    = Ok df' /\
    nrows df' = 1%nat /\
    get_col "harga_idr" (columns df') = Some [CNum 40000] /\
    get_col "size_ml" (columns df') = Some [CNaN] /\
    get_col "klaim" (columns df') = Some [CStr ""].
Proof.
  assert (Hcount : forall c, In c numeric_cols ->
                     (count_col c (rename_columns brand_and_merek) <= 1)%nat).
  { intros c Hc. cbn in Hc. repeat destruct Hc as [<-|Hc]; vm_compute; lia. }
  destruct (normalize_schema_total parse_unsigned print_number true required_cols
              brand_and_merek (Permutation_refl _) Hcount)
    as (df' & Hok & Hrows & _ & Htext & Hmissing & Hnum & _).
  exists df'. split; [exact Hok|]. split; [exact Hrows|]. split; [|split].
  - apply (Hnum "harga_idr" [CStr "40000"]); [cbn; tauto | vm_compute; reflexivity].
  - apply (Hmissing "size_ml"); [cbn; tauto|].
    vm_compute. intros H. repeat destruct H as [H|H]; try discriminate H. exact H.
  - apply (Htext "klaim"); [cbn; tauto | |].
    + cbn. intros H. repeat destruct H as [H|H]; try discriminate H. exact H.
    + vm_compute. intros H. repeat destruct H as [H|H]; try discriminate H. exact H.
Defined.

(** C9: two headers that are aliases of one numeric column. *)
Lemma normalize_schema_alias_collision :
  Permutation required_cols required_cols /\
  map canonical_name (col_names price_and_harga) = ["harga_idr"; "harga_idr"] /\
  count_col "harga_idr" (rename_columns price_and_harga) = 2%nat /\
  _normalize_schema parse_unsigned print_number true required_cols price_and_harga
  = Raise TypeError /\
  _normalize_schema parse_unsigned print_number false required_cols price_and_harga
  = Raise TypeError.
Proof. split; [reflexivity|]. repeat split; vm_compute; reflexivity. Qed.

(** * Compatibility filter *)

Lemma find_first {A : Type} (f : A -> bool) (l : list A) (x : A) :
  List.find f l = Some x ->
  exists pre post, l = (pre ++ x :: post)%list /\ f x = true /\
                   forall y, In y pre -> f y = false.
Proof.
  induction l as [|a l IH]; [discriminate|]. simpl.
  destruct (f a) eqn:E.
  - intros [= ->]. exists [], l. repeat split; [exact E | intros y []].
  - intros H. destruct (IH H) as (pre & post & -> & Hx & Hpre).
    exists (a :: pre), post. repeat split; [exact Hx|].
    intros y [<-|Hy]; [exact E | now apply Hpre].
Qed.

Lemma existsb_matches_group (text : string) (g : string * list string) :
  existsb (fun variant => contains variant text) (snd g) = true <-> matches_group text g.
Proof. unfold matches_group. now rewrite existsb_exists. Qed.

Lemma normalize_skin_type_first_match (user_skin_type : string) :
  first_match_or_lower user_skin_type (normalize_skin_type user_skin_type).
Proof.
  unfold normalize_skin_type, first_match_or_lower.
  destruct (List.find _ skin_type_mapping) as [g|] eqn:E.
  - left. apply find_first in E as (pre & post & Hl & Hg & Hpre).
    exists pre, g, post. split; [exact Hl|]. split; [now apply existsb_matches_group|].
    split; [|reflexivity]. intros g' Hg' Hm.
    apply existsb_matches_group in Hm. rewrite (Hpre g' Hg') in Hm. discriminate.
  - right. split; [|reflexivity]. intros g Hg Hm.
    apply existsb_matches_group in Hm.
    pose proof (find_none _ _ E g Hg) as Hn. cbv beta in Hn. congruence.
Qed.

Lemma In_combine_seq {A : Type} (l : list A) (a i : nat) (x : A) :
  In (i, x) (combine (seq a (List.length l)) l) <-> a <= i /\ nth_error l (i - a) = Some x.
Proof.
  revert a. induction l as [|y l IH]; intros a; simpl.
  - split; [intros [] | intros [_ H]]. destruct (i - a); discriminate.
  - rewrite IH. split.
    + intros [[= <- <-] | [Hle H]].
      * split; [lia|]. now rewrite Nat.sub_diag.
      * split; [lia|]. replace (i - a) with (S (i - S a)) by lia. exact H.
    + intros [Hle H]. destruct (i - a) as [|k] eqn:E.
      * left. injection H as <-. f_equal. lia.
      * right. split; [lia|]. replace (i - S a) with k by lia. exact H.
Qed.

Lemma In_indexed {A : Type} (l : list A) (i : nat) (x : A) :
  In (i, x) (indexed l) <-> nth_error l i = Some x.
Proof.
  unfold indexed. rewrite In_combine_seq, Nat.sub_0_r. split; [tauto | split; [lia | assumption]].
Qed.

Lemma filter_combine_seq_sorted {A : Type} (f : nat * A -> bool) (l : list A) (a : nat) :
  StronglySorted lt (map fst (List.filter f (combine (seq a (List.length l)) l))) /\
  Forall (fun i => a <= i) (map fst (List.filter f (combine (seq a (List.length l)) l))).
Proof.
  revert a. induction l as [|y l IH]; intros a; simpl.
  - split; constructor.
  - destruct (IH (S a)) as [Hs Hf].
    assert (Hf' : Forall (fun i => a <= i)
                    (map fst (List.filter f (combine (seq (S a) (List.length l)) l)))).
    { eapply List.Forall_impl; [|exact Hf]. intros i Hi. cbv beta in Hi. lia. }
    destruct (f (a, y)); simpl.
    + split; constructor; try assumption; lia.
    + split; assumption.
Qed.

(** C4.  On a loaded catalogue [find_compatible_products] returns exactly
    the rows whose token set holds [semua] or the normalised user token, each
    with its index label, in ascending order of index; the normalised token
    is the one of the first synonym group that has a variant occurring in the
    lower-cased user text, and the lower-cased text when no group has one. *)
Theorem find_compatible_products_exact (self : System) (df : list Product)
        (user_skin_type : string) :
  products_df self = Some df ->
  exists out,
    find_compatible_products self user_skin_type = Ok out /\
    first_match_or_lower user_skin_type (normalize_skin_type user_skin_type) /\
    (forall i p, In (i, p) out <->
                 nth_error df i = Some p /\
                 ("semua" ∈ skin_tokens p \/
                  normalize_skin_type user_skin_type ∈ skin_tokens p)) /\
    StronglySorted lt (map fst out).
Proof.
  intros Hdf. unfold find_compatible_products. rewrite Hdf.
  eexists. split; [reflexivity|]. split; [apply normalize_skin_type_first_match|]. split.
  - intros i p. rewrite filter_In, In_indexed. unfold compatible. cbn [snd].
    rewrite orb_true_iff, !bool_decide_eq_true. reflexivity.
  - apply filter_combine_seq_sorted.
Qed.

Lemma find_compatible_products_oily :
  products_df loaded_skin = Some skin_catalog /\
  find_compatible_products loaded_skin "oily" = Ok [(0, micellar_water)] /\
  normalize_skin_type "oily" = "berminyak" /\
  skin_tokens micellar_water = {["semua"]} /\
  skin_tokens ceramide_moisturizer = {["kering"]}.
Proof.
  split; [reflexivity|].
  destruct (find_compatible_products_exact loaded_skin skin_catalog "oily" eq_refl)
    as (out & Hout & _).
  split; [|repeat split; vm_compute; reflexivity].
  rewrite Hout. vm_compute in Hout. injection Hout as <-. reflexivity.
Defined.

(** * Ranker: the guards *)

(** C10.  When the stored similarity matrix is [None], [rank_on_subset]
    returns the empty list for every candidate list and every [top_n]; it
    does not raise, also when no catalogue is loaded. *)
Theorem rank_on_subset_without_matrix
        (sort_values : list (Z * R) -> list (Z * R)) (self : System)
        (subset_indices : list Z) (top_n : Z) :
  similarity_matrix self = None ->
  rank_on_subset sort_values self subset_indices top_n = Ok [].
Proof.
  intros H. unfold rank_on_subset. rewrite H. destruct subset_indices; reflexivity.
Qed.

Lemma rank_on_subset_without_matrix_witness :
  similarity_matrix loaded = None /\
  rank_on_subset insertion_sort_desc loaded [0%Z; 1%Z] 5 = Ok [].
Proof.
  split; [reflexivity|].
  exact (rank_on_subset_without_matrix insertion_sort_desc loaded [0%Z; 1%Z] 5 eq_refl).
Defined.

Local Open Scope R_scope.

(** * Similarity engine *)

Lemma dot_nil_l (y : list R) : dot [] y = 0.
Proof. reflexivity. Qed.

Lemma dot_cons (a b : R) (x y : list R) : dot (a :: x) (b :: y) = a * b + dot x y.
Proof. reflexivity. Qed.

Lemma dot_comm (x y : list R) : dot x y = dot y x.
Proof.
  revert y. induction x as [|a x IH]; intros [|b y]; try reflexivity.
  rewrite !dot_cons, IH. ring.
Qed.

Lemma dot_self_nonneg (x : list R) : 0 <= dot x x.
Proof.
  induction x as [|a x IH]; [unfold dot; simpl; lra|].
  rewrite dot_cons. nra.
Qed.

Lemma dot_nonneg (x y : list R) :
  Forall (fun v => 0 <= v) x -> Forall (fun v => 0 <= v) y -> 0 <= dot x y.
Proof.
  intros Hx. revert y. induction Hx as [|a x Ha Hx IH]; intros y Hy.
  - unfold dot; simpl; lra.
  - destruct Hy as [|b y Hb Hy]; [unfold dot; simpl; lra|].
    rewrite dot_cons. specialize (IH y Hy). nra.
Qed.

(** Cauchy-Schwarz for rows of one length. *)
Lemma dot_cauchy_schwarz (x y : list R) :
  List.length x = List.length y -> dot x y * dot x y <= dot x x * dot y y.
Proof.
  revert y. induction x as [|a x IH]; intros [|b y] Hlen; try discriminate.
  - unfold dot; simpl; lra.
  - injection Hlen as Hlen. specialize (IH y Hlen).
    rewrite !dot_cons.
    pose proof (dot_self_nonneg x) as HA. pose proof (dot_self_nonneg y) as HB.
    set (D := dot x y) in *. set (A := dot x x) in *. set (B := dot y y) in *.
    assert (H2 : 2 * (a * b * D) <= a * a * B + b * b * A).
    { assert (Hv : 0 <= a * a * B + b * b * A) by nra.
      destruct (Rle_dec (2 * (a * b * D)) 0) as [Hneg|Hpos]; [lra|].
      apply Rnot_le_lt in Hpos.
      apply Rsqr_incr_0_var; [|exact Hv]. unfold Rsqr.
      pose proof (Rle_0_sqr (a * b)) as Hab. unfold Rsqr in Hab.
      assert (H1 : (a * b) * (a * b) * (D * D) <= (a * b) * (a * b) * (A * B))
        by (apply Rmult_le_compat_l; assumption).
      pose proof (Rle_0_sqr (a * a * B - b * b * A)) as H3. unfold Rsqr in H3.
      lra. }
    nra.
Qed.

Lemma dot_scale (c d : R) (x y : list R) :
  dot (map (fun v => v / c) x) (map (fun v => v / d) y) = dot x y / (c * d).
Proof.
  destruct (Req_dec c 0) as [->|Hc].
  { replace (map (fun v => v / 0) x) with (map (fun _ : R => 0) x).
    2:{ apply map_ext. intros v. unfold Rdiv. rewrite Rinv_0. ring. }
    rewrite Rmult_0_l. unfold Rdiv. rewrite Rinv_0, Rmult_0_r.
    revert y. induction x as [|a x IH]; intros [|b y]; try reflexivity.
    simpl. rewrite dot_cons, IH. ring. }
  destruct (Req_dec d 0) as [->|Hd].
  { replace (map (fun v => v / 0) y) with (map (fun _ : R => 0) y).
    2:{ apply map_ext. intros v. unfold Rdiv. rewrite Rinv_0. ring. }
    rewrite Rmult_0_r. unfold Rdiv. rewrite Rinv_0, Rmult_0_r.
    revert y. induction x as [|a x IH]; intros [|b y]; try reflexivity.
    simpl. rewrite dot_cons, IH. ring. }
  revert y. induction x as [|a x IH]; intros [|b y]; simpl;
    try (unfold dot; simpl; field; now split).
  rewrite !dot_cons, IH. field. now split.
Qed.

Lemma handle_zero_pos (n : R) : 0 <= n -> 0 < handle_zero n.
Proof. intros H. unfold handle_zero. destruct (Req_dec_T n 0); lra. Qed.

Lemma row_norm_nonneg (x : list R) : 0 <= row_norm x.
Proof. apply sqrt_pos. Qed.

Lemma row_norm_sqr (x : list R) : row_norm x * row_norm x = dot x x.
Proof. apply sqrt_sqrt, dot_self_nonneg. Qed.

(** The cosine of two rows, as [cosine_similarity] computes it. *)
Lemma dot_normalize_row (x y : list R) :
  dot (normalize_row x) (normalize_row y)
  = dot x y / (handle_zero (row_norm x) * handle_zero (row_norm y)).
Proof. apply dot_scale. Qed.

Lemma cosine_symmetric (x y : list R) :
  dot (normalize_row x) (normalize_row y) = dot (normalize_row y) (normalize_row x).
Proof. apply dot_comm. Qed.

Lemma cosine_self_nonzero (x : list R) :
  dot x x <> 0 -> dot (normalize_row x) (normalize_row x) = 1.
Proof.
  intros H. rewrite dot_normalize_row. unfold handle_zero.
  destruct (Req_dec_T (row_norm x) 0) as [E|E].
  - exfalso. apply H. rewrite <- row_norm_sqr, E. ring.
  - rewrite row_norm_sqr. now field.
Qed.

Lemma cosine_self_zero (x : list R) :
  dot x x = 0 -> dot (normalize_row x) (normalize_row x) = 0.
Proof. intros H. rewrite dot_normalize_row, H. unfold Rdiv. ring. Qed.

Lemma cosine_range (x y : list R) :
  List.length x = List.length y ->
  Forall (fun v => 0 <= v) x -> Forall (fun v => 0 <= v) y ->
  0 <= dot (normalize_row x) (normalize_row y) <= 1.
Proof.
  intros Hlen Hx Hy. rewrite dot_normalize_row.
  pose proof (dot_nonneg x y Hx Hy) as Hd.
  pose proof (dot_cauchy_schwarz x y Hlen) as Hcs.
  pose proof (row_norm_nonneg x) as Hnx. pose proof (row_norm_nonneg y) as Hny.
  pose proof (row_norm_sqr x) as Hsx. pose proof (row_norm_sqr y) as Hsy.
  pose proof (handle_zero_pos _ Hnx) as Hpx. pose proof (handle_zero_pos _ Hny) as Hpy.
  assert (Hle : dot x y <= handle_zero (row_norm x) * handle_zero (row_norm y)).
  { assert (Hxy : dot x y <= row_norm x * row_norm y).
    { apply Rsqr_incr_0_var; [|nra]. unfold Rsqr. nra. }
    unfold handle_zero in *.
    destruct (Req_dec_T (row_norm x) 0) as [Ex|Ex];
      destruct (Req_dec_T (row_norm y) 0) as [Ey|Ey]; nra. }
  assert (Hp : 0 < handle_zero (row_norm x) * handle_zero (row_norm y)) by nra.
  split.
  - apply Rmult_le_pos; [exact Hd | left; now apply Rinv_0_lt_compat].
  - apply (Rmult_le_reg_r (handle_zero (row_norm x) * handle_zero (row_norm y))); [exact Hp|].
    unfold Rdiv. rewrite Rmult_assoc, Rinv_l, Rmult_1_r, Rmult_1_l; [exact Hle | lra].
Qed.

Lemma entry_cosine_similarity (X : list (list R)) (i j : nat) :
  (i < List.length X)%nat -> (j < List.length X)%nat ->
  entry (cosine_similarity X) i j
  = dot (normalize_row (nth i X [])) (normalize_row (nth j X [])).
Proof.
  intros Hi Hj. unfold entry, cosine_similarity.
  set (Xn := map normalize_row X).
  assert (HXn : List.length Xn = List.length X) by apply length_map.
  rewrite (nth_indep _ [] (map (fun b => dot (normalize_row []) b) Xn))
    by (rewrite length_map; lia).
  rewrite (map_nth (fun a => map (fun b => dot a b) Xn) Xn (normalize_row []) i).
  rewrite (nth_indep _ 0 (dot (nth i Xn (normalize_row [])) (normalize_row [])))
    by (rewrite length_map; lia).
  rewrite (map_nth (fun b => dot (nth i Xn (normalize_row [])) b) Xn (normalize_row []) j).
  unfold Xn. rewrite !(map_nth normalize_row X [] ). reflexivity.
Qed.

Lemma cosine_similarity_shape (X : list (list R)) :
  List.length (cosine_similarity X) = List.length X /\
  Forall (fun row => List.length row = List.length X) (cosine_similarity X).
Proof.
  unfold cosine_similarity. split; [now rewrite !length_map|].
  apply Forall_map. apply List.Forall_forall. intros a _. cbv beta.
  now rewrite !length_map.
Qed.

Lemma n_columns_cosine_similarity (X : list (list R)) :
  n_columns (cosine_similarity X) = List.length X.
Proof.
  destruct X as [|x X]; [reflexivity|].
  unfold cosine_similarity, n_columns. cbn [map List.length]. now rewrite !length_map.
Qed.

Lemma dot_self_zero_all (x : list R) : dot x x = 0 -> Forall (fun v => v = 0) x.
Proof.
  induction x as [|a x IH]; [constructor|]. rewrite dot_cons. intros H.
  pose proof (dot_self_nonneg x) as Hx. pose proof (Rle_0_sqr a) as Ha. unfold Rsqr in Ha.
  assert (Ha0 : a * a = 0) by lra. assert (Hx0 : dot x x = 0) by lra.
  constructor; [|now apply IH].
  destruct (Rmult_integral _ _ Ha0); assumption.
Qed.

Lemma dot_zero_l (x y : list R) : Forall (fun v => v = 0) x -> dot x y = 0.
Proof.
  intros Hx. revert y. induction Hx as [|a x Ha Hx IH]; intros [|b y]; try reflexivity.
  rewrite dot_cons, IH, Ha. ring.
Qed.

(** C2, as the code has it.  For a catalogue that is not empty on which the
    vectoriser returns weights, one row for each product and none negative,
    [build_similarity_matrix] stores a matrix with one row and one column
    for each product that is symmetric and has no negative entry; the
    diagonal entry of a product whose row of weights is all zero is 0. *)
Theorem similarity_matrix_properties
        (fit_transform : list string -> result (list (list R))) (self : System)
        (df : list Product) (X : list (list R)) :
  products_df self = Some df -> df <> [] ->
  fit_transform (map combined_features df) = Ok X ->
  tfidf_well_formed X (List.length df) ->
  exists self' M,
    build_similarity_matrix fit_transform self = Ok self' /\
    products_df self' = Some df /\
    similarity_matrix self' = Some M /\
    List.length M = List.length df /\
    Forall (fun row => List.length row = List.length df) M /\
    forall i j, (i < List.length df)%nat -> (j < List.length df)%nat ->
      entry M i j = entry M j i /\
      0 <= entry M i j /\
      (Forall (fun v => v = 0) (nth i X []) -> entry M i i = 0).
Proof.
  intros Hdf _ HX (Hlen & [d Hd] & Hpos). unfold build_similarity_matrix.
  rewrite Hdf, HX. cbn [bind].
  eexists _, _. split; [reflexivity|]. split; [reflexivity|]. split; [reflexivity|].
  destruct (cosine_similarity_shape X) as [H1 H2].
  split; [now rewrite H1|]. split; [now rewrite <- Hlen|].
  intros i j Hi Hj. rewrite <- Hlen in Hi, Hj.
  rewrite !entry_cosine_similarity by assumption.
  assert (Hrow : forall k, (k < List.length X)%nat ->
                           List.length (nth k X []) = d /\ Forall (fun v => 0 <= v) (nth k X [])).
  { intros k Hk. rewrite List.Forall_forall in Hd, Hpos.
    pose proof (nth_In X [] Hk) as Hin. split; [now apply Hd | now apply Hpos]. }
  destruct (Hrow i Hi) as [Hli Hpi]. destruct (Hrow j Hj) as [Hlj Hpj].
  split; [apply cosine_symmetric|]. split; [apply cosine_range; congruence|].
  intros Hz. apply cosine_self_zero. now apply dot_zero_l.
Qed.

Lemma similarity_matrix_properties_witness :
  exists self' M,
    build_similarity_matrix (one_term_vectorizer "micellar") loaded = Ok self' /\
    similarity_matrix self' = Some M /\
    List.length M = 2%nat /\
    entry M 0 1 = entry M 1 0 /\ 0 <= entry M 0 1 /\ entry M 1 1 = 0.
Proof.
  assert (Hwf : tfidf_well_formed [[1]; [0]] (List.length two_products)).
  { split; [reflexivity|]. split.
    - exists 1%nat. repeat constructor.
    - repeat constructor; lra. }
  destruct (similarity_matrix_properties (one_term_vectorizer "micellar") loaded
              two_products [[1]; [0]] eq_refl ltac:(discriminate) eq_refl Hwf)
    as (self' & M & Hb & _ & HM & Hlen & _ & Hprop).
  exists self', M. split; [exact Hb|]. split; [exact HM|]. split; [exact Hlen|].
  destruct (Hprop 0%nat 1%nat ltac:(simpl; lia) ltac:(simpl; lia)) as (Hs & Hr & _).
  split; [exact Hs|]. split; [exact Hr|].
  destruct (Hprop 1%nat 1%nat ltac:(simpl; lia) ltac:(simpl; lia)) as (_ & _ & Hz).
  apply Hz. cbn [nth]. repeat constructor.
Defined.

(** C2: the diagonal entry of a row without a kept term is 0; and on the
    numbers of the machine the similarities of two rows of three equal
    weights, scaled to unit length as the vectoriser leaves them, are
    1.0000000000000002 (0x1.0000000000001p+0), on the diagonal and off it:
    neither 1.0 nor within [0, 1]; and on a catalogue without any token the
    vectoriser raises and no matrix is stored. *)
Lemma diagonal_not_one :
  build_similarity_matrix (one_term_vectorizer "micellar") loaded = Ok built /\
  one_term_vectorizer "micellar" (map combined_features two_products) = Ok [[1]; [0]] /\
  tfidf_well_formed [[1]; [0]] (List.length two_products) /\
  (exists M, similarity_matrix built = Some M /\ entry M 1 1 = 0 /\ entry M 1 1 <> 1) /\
  cosine_similarity_f64
    [normalize_row_f64 [1; 1; 1]%float; normalize_row_f64 [1; 1; 1]%float; [0; 0; 0]%float]
  = [[0x1.0000000000001p+0; 0x1.0000000000001p+0; 0];
     [0x1.0000000000001p+0; 0x1.0000000000001p+0; 0];
     [0; 0; 0]]%float /\
  PrimFloat.ltb 1%float 0x1.0000000000001p+0%float = true /\
  build_similarity_matrix (one_term_vectorizer "micellar") loaded_unlabelled
  = Raise ValueError.
Proof.
  split; [vm_compute; reflexivity|]. split; [vm_compute; reflexivity|]. split.
  { split; [reflexivity|]. split.
    - exists 1%nat. repeat constructor.
    - repeat constructor; lra. }
  split; [|split; [reflexivity | split; [reflexivity | vm_compute; reflexivity]]].
  eexists. split; [reflexivity|].
  assert (H : entry (cosine_similarity [[1]; [0]]) 1 1 = 0).
  { rewrite entry_cosine_similarity by (simpl; lia).
    apply cosine_self_zero. unfold dot. simpl. lra. }
  rewrite H. split; [reflexivity | lra].
Qed.

(** * Ranker *)

Lemma all_some_map {A B : Type} (f : A -> option B) (g : A -> B) (l : list A) :
  (forall x, In x l -> f x = Some (g x)) -> all_some (map f l) = Some (map g l).
Proof.
  induction l as [|a l IH]; intros H; [reflexivity|]. simpl.
  rewrite (H a (or_introl eq_refl)), IH; [reflexivity|].
  intros x Hx. apply H. now right.
Qed.

Lemma result_list_map {A B : Type} (h : A -> result B) (h' : A -> B) (l : list A) :
  (forall x, In x l -> h x = Ok (h' x)) -> result_list (map h l) = Ok (map h' l).
Proof.
  induction l as [|a l IH]; intros H; [reflexivity|]. simpl.
  rewrite (H a (or_introl eq_refl)). simpl. rewrite IH; [reflexivity|].
  intros x Hx. apply H. now right.
Qed.

Lemma combine_map {A B C : Type} (f : A -> B) (g : A -> C) (l : list A) :
  combine (map f l) (map g l) = map (fun x => (f x, g x)) l.
Proof. induction l as [|a l IH]; [reflexivity|]. simpl. now rewrite IH. Qed.

Lemma combine_map_r {A C : Type} (g : A -> C) (l : list A) :
  combine l (map g l) = map (fun x => (x, g x)) l.
Proof. induction l as [|a l IH]; [reflexivity|]. simpl. now rewrite IH. Qed.

Lemma array_index_valid (n : nat) (k : Z) :
  valid_index n k -> array_index n k = Some (Z.to_nat k).
Proof.
  intros [H0 H1]. unfold array_index.
  destruct (0 <=? k)%Z eqn:E0; [|lia]. destruct (k <? Z.of_nat n)%Z eqn:E1; [reflexivity | lia].
Qed.

Lemma loc_valid {A : Type} (df : list A) (d : A) (k : Z) :
  valid_index (List.length df) k -> loc df k = Some (nth (Z.to_nat k) df d).
Proof.
  intros [H0 H1]. unfold loc. destruct (0 <=? k)%Z eqn:E0; [|lia].
  apply nth_error_nth'. lia.
Qed.

Lemma list_max_Z_lt (n : Z) (x : Z) (r : list Z) :
  (x < n)%Z -> Forall (fun k => (k < n)%Z) r -> (fold_left Z.max r x < n)%Z.
Proof.
  intros Hx Hr. revert x Hx. induction Hr as [|y r Hy Hr IH]; intros x Hx; simpl.
  - exact Hx.
  - apply IH. lia.
Qed.

Lemma In_df_head {A : Type} (n : Z) (l : list A) (x : A) : In x (df_head n l) -> In x l.
Proof.
  unfold df_head. destruct (0 <=? n)%Z; intros H.
  - rewrite <- (firstn_skipn (Z.to_nat n) l). apply in_or_app. now left.
  - rewrite <- (firstn_skipn (List.length l - Z.to_nat (- n)) l). apply in_or_app. now left.
Qed.

Lemma df_head_all {A : Type} (n : Z) (l : list A) :
  (Z.of_nat (List.length l) <= n)%Z -> df_head n l = l.
Proof.
  intros H. unfold df_head. destruct (0 <=? n)%Z eqn:E; [|lia].
  apply firstn_all2. lia.
Qed.

Lemma df_head_length {A : Type} (n : Z) (l : list A) :
  (0 <= n)%Z -> (Z.of_nat (List.length (df_head n l)) <= n)%Z.
Proof.
  intros H. unfold df_head. destruct (0 <=? n)%Z eqn:E; [|lia].
  rewrite length_firstn. lia.
Qed.

Lemma blended_score_eq (M : list (list R)) (subset : list Z) (k : Z) (p : Product) :
  blend (mean (map (fun j => entry M (Z.to_nat k) j) (map Z.to_nat subset)))
        (normalized_rating p)
  = blended_score M subset k p.
Proof.
  unfold blend, blended_score, mean_similarity, normalized_rating, rating_or_default.
  rewrite List.map_map. lra.
Qed.

(** The result of [rank_on_subset] on candidates that are rows of the
    catalogue and of the matrix. *)
Lemma rank_on_subset_valid
      (sort_values : list (Z * R) -> list (Z * R)) (self : System)
      (df : list Product) (M : list (list R)) (d : Product)
      (subset_indices : list Z) (top_n : Z) :
  (forall l, Permutation (sort_values l) l) ->
  products_df self = Some df -> similarity_matrix self = Some M ->
  subset_indices <> [] ->
  Forall (valid_index (List.length df)) subset_indices ->
  Forall (valid_index (List.length M)) subset_indices ->
  Forall (valid_index (n_columns M)) subset_indices ->
  rank_on_subset sort_values self subset_indices top_n
  = Ok (map (fun row => (fst row, snd row, nth (Z.to_nat (fst row)) df d))
            (df_head top_n
               (sort_values
                  (map (fun k => (k, blended_score M subset_indices k
                                       (nth (Z.to_nat k) df d)))
                       subset_indices)))).
Proof.
  intros Hsort Hdf HM Hne Hv Hr Hc.
  rewrite List.Forall_forall in Hv, Hr, Hc.
  unfold rank_on_subset. destruct subset_indices as [|k0 rest] eqn:Es; [contradiction|].
  rewrite <- Es in *. rewrite HM, Hdf. cbn [opt_result bind].
  assert (Hmax : (Z.of_nat (List.length df) <=? list_max_Z subset_indices)%Z = false).
  { apply Z.leb_gt. rewrite Es. cbn [list_max_Z]. apply list_max_Z_lt.
    - apply (Hv k0). rewrite Es. now left.
    - apply List.Forall_forall. intros k Hk. apply (Hv k). rewrite Es. now right. }
  rewrite Hmax. unfold ix_submatrix.
  rewrite (all_some_map _ Z.to_nat) by (intros k Hk; now apply array_index_valid, Hr).
  rewrite (all_some_map _ Z.to_nat) by (intros k Hk; now apply array_index_valid, Hc).
  cbn [bind]. unfold loc_list.
  rewrite (all_some_map _ (fun k => nth (Z.to_nat k) df d))
    by (intros k Hk; now apply loc_valid, Hv).
  cbn [bind]. rewrite !List.map_map, combine_map, List.map_map, combine_map_r. cbn [fst snd].
  rewrite (map_ext _ (fun k => (k, blended_score M subset_indices k (nth (Z.to_nat k) df d))))
    by (intros k; now rewrite blended_score_eq).
  apply result_list_map. intros row Hrow.
  apply In_df_head in Hrow. apply (Permutation_in _ (Hsort _)) in Hrow.
  apply in_map_iff in Hrow as (k & <- & Hk). cbn [fst snd].
  rewrite (loc_valid df d k) by now apply Hv. reflexivity.
Qed.

Lemma mean_singleton (x : R) : mean [x] = x.
Proof. unfold mean, sum_R. simpl. field. Qed.

Lemma insert_desc_perm (x : Z * R) (l : list (Z * R)) :
  Permutation (insert_desc x l) (x :: l).
Proof.
  induction l as [|y l IH]; simpl; [reflexivity|].
  destruct (Rlt_dec (snd x) (snd y)); [|reflexivity].
  rewrite IH. apply perm_swap.
Qed.

Lemma insertion_sort_desc_perm (l : list (Z * R)) :
  Permutation (insertion_sort_desc l) l.
Proof.
  induction l as [|x l IH]; simpl; [reflexivity|].
  unfold insertion_sort_desc in *. simpl. rewrite insert_desc_perm. now constructor.
Qed.

Lemma insert_desc_sorted (x : Z * R) (l : list (Z * R)) :
  StronglySorted (fun a b => snd b <= snd a) l ->
  StronglySorted (fun a b => snd b <= snd a) (insert_desc x l).
Proof.
  induction 1 as [|y l Hs IH Hy]; simpl; [repeat constructor|].
  destruct (Rlt_dec (snd x) (snd y)) as [Hlt|Hge].
  - constructor; [exact IH|].
    apply (Permutation_Forall (Permutation_sym (insert_desc_perm x l))).
    constructor; [lra | exact Hy].
  - constructor; [now constructor|].
    constructor; [lra|]. eapply List.Forall_impl; [|exact Hy].
    intros a Ha. cbv beta in Ha. lra.
Qed.

Lemma insertion_sort_desc_sorted (l : list (Z * R)) :
  StronglySorted (fun a b => snd b <= snd a) (insertion_sort_desc l).
Proof.
  induction l as [|x l IH]; [constructor|].
  unfold insertion_sort_desc in *. simpl. now apply insert_desc_sorted.
Qed.

(** C1, as the code has it.  For a list, not empty, of candidate indices
    that are rows of the catalogue and of the matrix, every returned entry
    [(k, s, p)] is a candidate [k] with its row [p] and the score
    [s = 0.6 x mean similarity of k to the candidates + 0.4 x (rating / 5)],
    a missing rating counting as 3; all candidates are returned when [top_n]
    is at least their number.  For a single candidate the mean similarity is
    its diagonal entry of the matrix, which is 0 when its row of weights is
    all zero. *)
Theorem rank_on_subset_blended_score
        (sort_values : list (Z * R) -> list (Z * R)) (self : System)
        (df : list Product) (M : list (list R))
        (subset_indices : list Z) (top_n : Z) :
  (forall l, Permutation (sort_values l) l) ->
  products_df self = Some df -> similarity_matrix self = Some M ->
  List.length M = List.length df -> n_columns M = List.length df ->
  subset_indices <> [] ->
  Forall (valid_index (List.length df)) subset_indices ->
  exists out,
    rank_on_subset sort_values self subset_indices top_n = Ok out /\
    (forall k s p, In (k, s, p) out ->
       In k subset_indices /\ loc df k = Some p /\
       s = blended_score M subset_indices k p) /\
    ((Z.of_nat (List.length subset_indices) <= top_n)%Z ->
     Permutation (map (fun t => fst (fst t)) out) subset_indices) /\
    (forall k, subset_indices = [k] ->
       mean_similarity M subset_indices k = entry M (Z.to_nat k) (Z.to_nat k)) /\
    (forall X k, M = cosine_similarity X -> subset_indices = [k] ->
       Forall (fun v => v = 0) (nth (Z.to_nat k) X []) ->
       mean_similarity M subset_indices k = 0).
Proof.
  intros Hsort Hdf HM Hrows Hcols Hne Hv.
  assert (Hd : exists d : Product, True).
  { destruct subset_indices as [|k r]; [contradiction|].
    inversion Hv as [|? ? [H0 H1] _]; subst.
    destruct df as [|d df']; [simpl in H1; lia | now exists d]. }
  destruct Hd as [d _].
  rewrite (rank_on_subset_valid sort_values self df M d subset_indices top_n)
    by (try assumption; congruence).
  eexists. split; [reflexivity|].
  assert (Hsingle : forall k, subset_indices = [k] ->
            mean_similarity M subset_indices k = entry M (Z.to_nat k) (Z.to_nat k)).
  { intros k ->. unfold mean_similarity. cbn [map]. apply mean_singleton. }
  rewrite List.Forall_forall in Hv.
  split; [|split; [|split]].
  - intros k s p Hin. apply in_map_iff in Hin as (row & [= <- <- <-] & Hrow).
    apply In_df_head in Hrow. apply (Permutation_in _ (Hsort _)) in Hrow.
    apply in_map_iff in Hrow as (k & <- & Hk). cbn [fst snd].
    split; [exact Hk|]. split; [now apply loc_valid, Hv | reflexivity].
  - intros Hn. rewrite df_head_all.
    + rewrite List.map_map. cbn [fst].
      rewrite <- (List.map_map (fun row : Z * R => row) fst), List.map_id.
      rewrite (Permutation_map fst (Hsort _)), List.map_map. cbn [fst].
      now rewrite List.map_id.
    + rewrite (Permutation_length (Hsort _)), length_map. exact Hn.
  - exact Hsingle.
  - intros X k -> Hs Hx. rewrite (Hsingle k Hs).
    assert (Hk : valid_index (List.length df) k) by (apply Hv; rewrite Hs; now left).
    destruct Hk as [H0 H1].
    assert (HX : List.length (cosine_similarity X) = List.length X)
      by (unfold cosine_similarity; now rewrite !length_map).
    rewrite entry_cosine_similarity by lia.
    now apply cosine_self_zero, dot_zero_l.
Qed.

Lemma rank_on_subset_blended_score_witness :
  exists out,
    rank_on_subset insertion_sort_desc built [0%Z; 1%Z] 5 = Ok out /\
    Permutation (map (fun t => fst (fst t)) out) [0%Z; 1%Z] /\
    (forall k s p, In (k, s, p) out ->
       s = blended_score (cosine_similarity [[1]; [0]]) [0%Z; 1%Z] k p).
Proof.
  destruct (rank_on_subset_blended_score insertion_sort_desc built two_products
              (cosine_similarity [[1]; [0]]) [0%Z; 1%Z] 5
              insertion_sort_desc_perm eq_refl eq_refl eq_refl eq_refl
              ltac:(discriminate)
              ltac:(repeat constructor; simpl; lia))
    as (out & Hout & Hscore & Hperm & _).
  exists out. split; [exact Hout|]. split; [apply Hperm; simpl; lia|].
  intros k s p Hin. now apply Hscore.
Defined.

(** C1: a candidate whose row of weights is zero, ranked alone. *)
Lemma singleton_zero_row_similarity :
  build_similarity_matrix (one_term_vectorizer "micellar") loaded = Ok built /\
  rank_on_subset insertion_sort_desc built [1%Z] 5
  = Ok [(1%Z, 0.6 * 0 + 0.4 * (3 / 5), unlabelled_serum)] /\
  mean_similarity (cosine_similarity [[1]; [0]]) [1%Z] 1 = 0 /\
  mean_similarity (cosine_similarity [[1]; [0]]) [1%Z] 1 <> 1.
Proof.
  assert (Hm : mean_similarity (cosine_similarity [[1]; [0]]) [1%Z] 1 = 0).
  { unfold mean_similarity. cbn [map]. rewrite mean_singleton.
    change (Z.to_nat 1) with 1%nat.
    rewrite entry_cosine_similarity by (simpl; lia).
    apply cosine_self_zero. unfold dot. simpl. lra. }
  split; [vm_compute; reflexivity|]. split; [|split; [exact Hm | rewrite Hm; lra]].
  rewrite (rank_on_subset_valid insertion_sort_desc built two_products
             (cosine_similarity [[1]; [0]]) micellar_water [1%Z] 5);
    try reflexivity; try discriminate; try apply insertion_sort_desc_perm;
    try (repeat constructor; simpl; lia).
  cbn [map insertion_sort_desc fold_right insert_desc df_head Z.leb Z.compare
       Z.to_nat Pos.to_nat Pos.iter_op Nat.add firstn fst snd nth two_products].
  unfold blended_score. rewrite Hm. reflexivity.
Qed.

(** * Ranker: candidate lists that are not rows of the catalogue *)

Lemma rank_on_subset_empty
      (sort_values : list (Z * R) -> list (Z * R)) (self : System) (top_n : Z) :
  rank_on_subset sort_values self [] top_n = Ok [].
Proof. reflexivity. Qed.

Lemma fold_max_bounds (r : list Z) (x : Z) :
  (x <= fold_left Z.max r x)%Z /\ Forall (fun k => (k <= fold_left Z.max r x)%Z) r.
Proof.
  revert x. induction r as [|y r IH]; intros x; simpl.
  - split; [lia | constructor].
  - destruct (IH (Z.max x y)) as [H1 H2].
    split; [lia|]. constructor; [lia | exact H2].
Qed.

Lemma list_max_Z_ge (x : Z) (r : list Z) (k : Z) :
  In k (x :: r) -> (k <= fold_left Z.max r x)%Z.
Proof.
  destruct (fold_max_bounds r x) as [H1 H2]. rewrite List.Forall_forall in H2.
  intros [<-|H]; [exact H1 | now apply H2].
Qed.

(** X12.  The guard of line 201 returns the empty list, without an error,
    when a candidate index is the number of rows or larger, whatever the
    other indices are. *)
Lemma rank_on_subset_index_too_large
      (sort_values : list (Z * R) -> list (Z * R)) (self : System)
      (df : list Product) (subset_indices : list Z) (top_n : Z) (k : Z) :
  products_df self = Some df ->
  In k subset_indices -> (Z.of_nat (List.length df) <= k)%Z ->
  rank_on_subset sort_values self subset_indices top_n = Ok [].
Proof.
  intros Hdf Hk Hlen. unfold rank_on_subset.
  destruct subset_indices as [|x r]; [reflexivity|].
  destruct (similarity_matrix self); [|reflexivity].
  rewrite Hdf. cbn [opt_result bind].
  assert (H : (Z.of_nat (List.length df) <=? list_max_Z (x :: r))%Z = true).
  { apply Z.leb_le. cbn [list_max_Z]. pose proof (list_max_Z_ge x r k Hk). lia. }
  now rewrite H.
Qed.

(** On candidates that are rows of the catalogue the result has at most
    [top_n] entries, in descending order of score. *)
Lemma rank_on_subset_top_n_sorted
      (sort_values : list (Z * R) -> list (Z * R)) (self : System)
      (df : list Product) (M : list (list R))
      (subset_indices : list Z) (top_n : Z) :
  (forall l, Permutation (sort_values l) l) ->
  (forall l, StronglySorted (fun a b => snd b <= snd a) (sort_values l)) ->
  products_df self = Some df -> similarity_matrix self = Some M ->
  List.length M = List.length df -> n_columns M = List.length df ->
  subset_indices <> [] ->
  Forall (valid_index (List.length df)) subset_indices ->
  (0 < top_n)%Z ->
  exists out,
    rank_on_subset sort_values self subset_indices top_n = Ok out /\
    (Z.of_nat (List.length out) <= top_n)%Z /\
    StronglySorted (fun a b => snd (fst b) <= snd (fst a)) out.
Proof.
  intros Hperm Hsorted Hdf HM Hrows Hcols Hne Hv Hn.
  assert (Hd : exists d : Product, True).
  { destruct subset_indices as [|k r]; [contradiction|].
    inversion Hv as [|? ? [H0 H1] _]; subst.
    destruct df as [|d df']; [simpl in H1; lia | now exists d]. }
  destruct Hd as [d _].
  rewrite (rank_on_subset_valid sort_values self df M d subset_indices top_n)
    by (try assumption; congruence).
  eexists. split; [reflexivity|]. split.
  - rewrite length_map. apply df_head_length. lia.
  - set (l := sort_values _). specialize (Hsorted (map (fun k => (k, blended_score M subset_indices k (nth (Z.to_nat k) df d))) subset_indices)).
    fold l in Hsorted. clearbody l.
    unfold df_head. destruct (0 <=? top_n)%Z eqn:E; [|lia].
    generalize (Z.to_nat top_n). intros n. revert n.
    induction Hsorted as [|a l Hs IH Ha]; intros [|n]; simpl; try constructor.
    + apply IH.
    + apply Forall_map. cbn [fst snd].
      rewrite List.Forall_forall in Ha |- *. intros b Hb. apply Ha.
      rewrite <- (firstn_skipn n l). apply in_or_app. now left.
Qed.

(** C5: a negative candidate index passes the guard, and [loc] raises. *)
Theorem rank_on_subset_negative_index :
  build_similarity_matrix (one_term_vectorizer "micellar") loaded = Ok built /\
  (Z.of_nat (List.length two_products) <=? list_max_Z [(-1)%Z])%Z = false /\
  rank_on_subset insertion_sort_desc built [(-1)%Z] 5 = Raise KeyError.
Proof. repeat split; vm_compute; reflexivity. Qed.

(** * Ranker: the order of equal scores *)

Lemma df_head_length_exact {A : Type} (n : Z) (l : list A) :
  Z.of_nat (List.length (df_head n l))
  = if (0 <=? n)%Z then Z.min n (Z.of_nat (List.length l))
    else Z.max 0 (Z.of_nat (List.length l) + n).
Proof.
  unfold df_head. destruct (0 <=? n)%Z eqn:E; rewrite length_firstn; lia.
Qed.

Lemma StronglySorted_firstn {A : Type} (R : A -> A -> Prop) (n : nat) (l : list A) :
  StronglySorted R l -> StronglySorted R (firstn n l).
Proof.
  intros H. revert n. induction H as [|a l Hs IH Ha]; intros [|n]; simpl; try constructor.
  - apply IH.
  - rewrite List.Forall_forall in Ha |- *. intros b Hb. apply Ha.
    rewrite <- (firstn_skipn n l). apply in_or_app. now left.
Qed.

Lemma StronglySorted_df_head {A : Type} (R : A -> A -> Prop) (n : Z) (l : list A) :
  StronglySorted R l -> StronglySorted R (df_head n l).
Proof. intros H. unfold df_head. destruct (0 <=? n)%Z; now apply StronglySorted_firstn. Qed.

Lemma StronglySorted_map {A B : Type} (R : A -> A -> Prop) (S : B -> B -> Prop)
      (f : A -> B) (l : list A) :
  (forall a b, R a b -> S (f a) (f b)) ->
  StronglySorted R l -> StronglySorted S (map f l).
Proof.
  intros Hf H. induction H as [|a l Hs IH Ha]; simpl; constructor; [exact IH|].
  apply Forall_map. eapply List.Forall_impl; [|exact Ha]. intros b Hb. now apply Hf.
Qed.

Lemma precedes_map {A B : Type} (f : A -> B) (x y : A) (l : list A) :
  precedes x y l -> precedes (f x) (f y) (map f l).
Proof.
  intros (l1 & l2 & l3 & ->). exists (map f l1), (map f l2), (map f l3).
  now rewrite map_app, (map_cons f x), map_app, (map_cons f y).
Qed.

Lemma precedes_map_inv {A B : Type} (f : A -> B) (a b : B) (l : list A) :
  precedes a b (map f l) ->
  exists x y, precedes x y l /\ f x = a /\ f y = b.
Proof.
  intros (m1 & m2 & m3 & H).
  apply map_eq_app in H as (l1 & r & -> & <- & H).
  apply map_eq_cons in H as (x & r' & -> & <- & H).
  apply map_eq_app in H as (l2 & r'' & -> & <- & H).
  apply map_eq_cons in H as (y & l3 & -> & <- & <-).
  exists x, y. split; [|split; reflexivity]. now exists l1, l2, l3.
Qed.

Lemma precedes_app_l {A : Type} (x y : A) (l k : list A) :
  precedes x y l -> precedes x y (l ++ k).
Proof.
  intros (l1 & l2 & l3 & ->). exists l1, l2, (l3 ++ k)%list.
  now rewrite <- !app_assoc, <- !app_comm_cons, <- app_assoc, <- app_comm_cons.
Qed.

Lemma precedes_df_head {A : Type} (n : Z) (x y : A) (l : list A) :
  precedes x y (df_head n l) -> precedes x y l.
Proof.
  unfold df_head. destruct (0 <=? n)%Z; intros H.
  - rewrite <- (firstn_skipn (Z.to_nat n) l). now apply precedes_app_l.
  - rewrite <- (firstn_skipn (List.length l - Z.to_nat (- n)) l). now apply precedes_app_l.
Qed.

Lemma precedes_filter {A : Type} (f : A -> bool) (x y : A) (l : list A) :
  precedes x y l -> f x = true -> f y = true -> precedes x y (List.filter f l).
Proof.
  intros (l1 & l2 & l3 & ->) Hx Hy.
  exists (List.filter f l1), (List.filter f l2), (List.filter f l3).
  rewrite List.filter_app. cbn [List.filter]. rewrite Hx, List.filter_app. cbn [List.filter].
  now rewrite Hy.
Qed.

Lemma filter_eq_app_cons {A : Type} (f : A -> bool) (l a b : list A) (x : A) :
  List.filter f l = (a ++ x :: b)%list ->
  exists l1 l2, l = (l1 ++ x :: l2)%list /\ List.filter f l2 = b.
Proof.
  revert a. induction l as [|y l IH]; intros a H.
  - destruct a; discriminate.
  - cbn [List.filter] in H. destruct (f y) eqn:E.
    + destruct a as [|a0 a].
      * injection H as -> H. exists [], l. split; [reflexivity | exact H].
      * injection H as -> H. destruct (IH a H) as (l1 & l2 & -> & H2).
        exists (a0 :: l1), l2. split; [reflexivity | exact H2].
    + destruct (IH a H) as (l1 & l2 & -> & H2).
      exists (y :: l1), l2. split; [reflexivity | exact H2].
Qed.

Lemma precedes_filter_inv {A : Type} (f : A -> bool) (x y : A) (l : list A) :
  precedes x y (List.filter f l) -> precedes x y l.
Proof.
  intros (a & b & c & H).
  apply filter_eq_app_cons in H as (l1 & r & -> & H).
  apply filter_eq_app_cons in H as (l2 & l3 & -> & _).
  now exists l1, l2, l3.
Qed.

Lemma precedes_sorted_lt (x y : Z) (l : list Z) :
  StronglySorted Z.lt l -> precedes x y l -> (x < y)%Z.
Proof.
  intros Hs (l1 & l2 & l3 & ->).
  induction l1 as [|a l1 IH]; cbn [app] in Hs.
  - inversion Hs as [|? ? _ Hall]; subst. rewrite List.Forall_forall in Hall.
    apply Hall. apply in_or_app. right. now left.
  - inversion Hs; subst. now apply IH.
Qed.

Lemma score_is_true (v : R) (row : Z * R) : score_is v row = true <-> snd row = v.
Proof. unfold score_is. destruct (Req_dec_T (snd row) v); split; congruence. Qed.

Lemma insert_desc_stable (x : Z * R) (l : list (Z * R)) (v : R) :
  List.filter (score_is v) (insert_desc x l) = List.filter (score_is v) (x :: l).
Proof.
  induction l as [|y l IH]; [reflexivity|]. cbn [insert_desc].
  destruct (Rlt_dec (snd x) (snd y)) as [Hlt|Hge]; [|reflexivity].
  cbn [List.filter] in *. rewrite IH.
  destruct (score_is v x) eqn:Ex; [|reflexivity].
  destruct (score_is v y) eqn:Ey; [|reflexivity].
  apply score_is_true in Ex, Ey. lra.
Qed.

Lemma insertion_sort_desc_stable : stable_on_ties insertion_sort_desc.
Proof.
  intros l v. induction l as [|x l IH]; [reflexivity|].
  unfold insertion_sort_desc in *. cbn [fold_right].
  rewrite insert_desc_stable. cbn [List.filter]. now rewrite IH.
Qed.

(** Two descending lists with the same rows of every score, in the same
    order, are one list. *)
Lemma sorted_stable_unique (l1 l2 : list (Z * R)) :
  StronglySorted (fun a b => snd b <= snd a) l1 ->
  StronglySorted (fun a b => snd b <= snd a) l2 ->
  (forall v, List.filter (score_is v) l1 = List.filter (score_is v) l2) ->
  l1 = l2.
Proof.
  intros H1. revert l2. induction H1 as [|a r1 Hs1 IH Ha]; intros l2 H2 Hf.
  - destruct l2 as [|b r2]; [reflexivity|]. specialize (Hf (snd b)).
    cbn [List.filter] in Hf. rewrite (proj2 (score_is_true _ _) eq_refl) in Hf. discriminate.
  - destruct l2 as [|b r2].
    { specialize (Hf (snd a)). cbn [List.filter] in Hf.
      rewrite (proj2 (score_is_true _ _) eq_refl) in Hf. discriminate. }
    inversion H2 as [|? ? Hs2 Hb]; subst.
    rewrite List.Forall_forall in Ha, Hb.
    assert (Hba : snd b <= snd a).
    { assert (Hin : In b (List.filter (score_is (snd b)) (a :: r1))).
      { rewrite Hf. cbn [List.filter]. rewrite (proj2 (score_is_true _ _) eq_refl). now left. }
      apply filter_In in Hin as [[<-|Hin] _]; [lra | now apply Ha]. }
    assert (Hab : snd a <= snd b).
    { assert (Hin : In a (List.filter (score_is (snd a)) (b :: r2))).
      { rewrite <- Hf. cbn [List.filter]. rewrite (proj2 (score_is_true _ _) eq_refl). now left. }
      apply filter_In in Hin as [[<-|Hin] _]; [lra | now apply Hb]. }
    assert (Heq : snd a = snd b) by lra.
    pose proof (Hf (snd a)) as Hv. cbn [List.filter] in Hv.
    rewrite (proj2 (score_is_true (snd a) a) eq_refl) in Hv.
    rewrite (proj2 (score_is_true (snd a) b) (eq_sym Heq)) in Hv.
    injection Hv as <- Hv. f_equal. apply IH; [exact Hs2|].
    intros v. specialize (Hf v). cbn [List.filter] in Hf.
    destruct (score_is v a); [now injection Hf | exact Hf].
Qed.

(** What a stable sort would give, had the source asked for one: entries of
    equal score in the order their indices have in the candidate list. *)
Lemma rank_on_subset_stable_ties
        (sort_values : list (Z * R) -> list (Z * R)) (self : System)
        (df : list Product) (M : list (list R))
        (subset_indices : list Z) (top_n : Z) :
  (forall l, Permutation (sort_values l) l) ->
  (forall l, StronglySorted (fun a b => snd b <= snd a) (sort_values l)) ->
  stable_on_ties sort_values ->
  products_df self = Some df -> similarity_matrix self = Some M ->
  List.length M = List.length df -> n_columns M = List.length df ->
  subset_indices <> [] ->
  Forall (valid_index (List.length df)) subset_indices ->
  exists out,
    rank_on_subset sort_values self subset_indices top_n = Ok out /\
    ties_keep_list_order subset_indices out /\
    (StronglySorted Z.lt subset_indices -> ties_ascending_index out) /\
    rank_on_subset insertion_sort_desc self subset_indices top_n = Ok out.
Proof.
  intros Hperm Hsorted Hstable Hdf HM Hrows Hcols Hne Hv.
  assert (Hd : exists d : Product, True).
  { destruct subset_indices as [|k r]; [contradiction|].
    inversion Hv as [|? ? [H0 H1] _]; subst.
    destruct df as [|d df']; [simpl in H1; lia | now exists d]. }
  destruct Hd as [d _].
  rewrite (rank_on_subset_valid sort_values self df M d subset_indices top_n)
    by (try assumption; congruence).
  rewrite (rank_on_subset_valid insertion_sort_desc self df M d subset_indices top_n)
    by (try assumption; try apply insertion_sort_desc_perm; congruence).
  set (pairs := map (fun k => (k, blended_score M subset_indices k (nth (Z.to_nat k) df d)))
                    subset_indices).
  eexists. split; [reflexivity|].
  assert (Hlist : ties_keep_list_order subset_indices
            (map (fun row : Z * R => (fst row, snd row, nth (Z.to_nat (fst row)) df d))
                 (df_head top_n (sort_values pairs)))).
  { intros a b Hab Hscore.
    apply precedes_map_inv in Hab as (ra & rb & Hab & <- & <-). cbn [fst snd] in *.
    apply precedes_df_head in Hab.
    apply (precedes_filter (score_is (snd ra))) in Hab;
      [|now apply score_is_true | apply score_is_true; congruence].
    rewrite Hstable in Hab. apply precedes_filter_inv in Hab.
    apply (precedes_map fst) in Hab. unfold pairs in Hab.
    rewrite List.map_map in Hab. cbn [fst] in Hab. now rewrite List.map_id in Hab. }
  split; [exact Hlist|]. split.
  - intros Hasc a b Hab Hscore. apply (precedes_sorted_lt _ _ subset_indices Hasc).
    now apply Hlist.
  - do 3 f_equal. apply sorted_stable_unique.
    + apply insertion_sort_desc_sorted.
    + apply Hsorted.
    + intros v. now rewrite insertion_sort_desc_stable, Hstable.
Qed.

Lemma insert_after_ties_perm (x : Z * R) (l : list (Z * R)) :
  Permutation (insert_after_ties x l) (x :: l).
Proof.
  induction l as [|y l IH]; simpl; [reflexivity|].
  destruct (Rle_dec (snd x) (snd y)); [|reflexivity].
  rewrite IH. apply perm_swap.
Qed.

Lemma sort_ties_reversed_perm (l : list (Z * R)) :
  Permutation (sort_ties_reversed l) l.
Proof.
  induction l as [|x l IH]; simpl; [reflexivity|].
  unfold sort_ties_reversed in *. simpl. rewrite insert_after_ties_perm. now constructor.
Qed.

Lemma insert_after_ties_sorted (x : Z * R) (l : list (Z * R)) :
  StronglySorted (fun a b => snd b <= snd a) l ->
  StronglySorted (fun a b => snd b <= snd a) (insert_after_ties x l).
Proof.
  induction 1 as [|y l Hs IH Hy]; simpl; [repeat constructor|].
  destruct (Rle_dec (snd x) (snd y)) as [Hle|Hgt].
  - constructor; [exact IH|].
    apply (Permutation_Forall (Permutation_sym (insert_after_ties_perm x l))).
    constructor; [exact Hle | exact Hy].
  - constructor; [now constructor|].
    constructor; [lra|]. eapply List.Forall_impl; [|exact Hy].
    intros a Ha. cbv beta in Ha. lra.
Qed.

Lemma sort_ties_reversed_sorted (l : list (Z * R)) :
  StronglySorted (fun a b => snd b <= snd a) (sort_ties_reversed l).
Proof.
  induction l as [|x l IH]; [constructor|].
  unfold sort_ties_reversed in *. simpl. now apply insert_after_ties_sorted.
Qed.

(** Two descending lists of the same numbers are one list. *)
Lemma sorted_scores_unique (l1 l2 : list R) :
  StronglySorted (fun a b => b <= a) l1 -> StronglySorted (fun a b => b <= a) l2 ->
  Permutation l1 l2 -> l1 = l2.
Proof.
  intros H1. revert l2. induction H1 as [|a r1 Hs1 IH Ha]; intros l2 H2 Hp.
  - now apply Permutation_nil in Hp.
  - destruct l2 as [|b r2]; [apply Permutation_sym, Permutation_nil in Hp; discriminate|].
    inversion H2 as [|? ? Hs2 Hb]; subst.
    rewrite List.Forall_forall in Ha, Hb.
    assert (Hba : b <= a).
    { assert (Hin : In b (a :: r1))
        by (apply (Permutation_in _ (Permutation_sym Hp)); now left).
      destruct Hin as [<-|Hin]; [lra | now apply Ha]. }
    assert (Hab : a <= b).
    { assert (Hin : In a (b :: r2)) by (apply (Permutation_in _ Hp); now left).
      destruct Hin as [<-|Hin]; [lra | now apply Hb]. }
    assert (E : a = b) by lra. subst b. f_equal.
    apply IH; [exact Hs2 | now apply Permutation_cons_inv in Hp].
Qed.

Lemma NoDup_map_eq {A B : Type} (f : A -> B) (l : list A) (x y : A) :
  List.NoDup (map f l) -> In x l -> In y l -> f x = f y -> x = y.
Proof.
  induction l as [|a l IH]; [intros _ []|]. cbn [map]. intros Hnd Hx Hy E.
  inversion Hnd as [|? ? Hna Hnd']; subst.
  destruct Hx as [->|Hx], Hy as [->|Hy]; [reflexivity | | |now apply IH].
  - exfalso. apply Hna. rewrite E. now apply in_map.
  - exfalso. apply Hna. rewrite <- E. now apply in_map.
Qed.

(** Two descending lists of the same rows, no two of one score, are one
    list. *)
Lemma sorted_rows_unique (l1 l2 : list (Z * R)) :
  StronglySorted (fun a b => snd b <= snd a) l1 ->
  StronglySorted (fun a b => snd b <= snd a) l2 ->
  Permutation l1 l2 -> List.NoDup (map snd l1) -> l1 = l2.
Proof.
  intros H1. revert l2. induction H1 as [|a r1 Hs1 IH Ha]; intros l2 H2 Hp Hnd.
  - now apply Permutation_nil in Hp.
  - destruct l2 as [|b r2]; [apply Permutation_sym, Permutation_nil in Hp; discriminate|].
    inversion H2 as [|? ? Hs2 Hb]; subst.
    rewrite List.Forall_forall in Ha, Hb.
    assert (Hbin : In b (a :: r1))
      by (apply (Permutation_in _ (Permutation_sym Hp)); now left).
    assert (Hba : snd b <= snd a).
    { destruct Hbin as [<-|Hin]; [lra | now apply Ha]. }
    assert (Hab : snd a <= snd b).
    { assert (Hin : In a (b :: r2)) by (apply (Permutation_in _ Hp); now left).
      destruct Hin as [<-|Hin]; [lra | now apply Hb]. }
    assert (E : a = b).
    { apply (NoDup_map_eq snd (a :: r1)); [exact Hnd | now left | exact Hbin | lra]. }
    subst b. f_equal.
    apply IH; [exact Hs2 | now apply Permutation_cons_inv in Hp |].
    cbn [map] in Hnd. now inversion Hnd.
Qed.

Lemma df_head_map {A B : Type} (f : A -> B) (n : Z) (l : list A) :
  df_head n (map f l) = map f (df_head n l).
Proof.
  unfold df_head. rewrite length_map. destruct (0 <=? n)%Z; apply firstn_map.
Qed.

(** C6, as the code has it.  For candidates that are rows of the catalogue
    and whatever the library sort does among equal keys (two results of
    [sort_values] are compared, each a permutation in descending order of
    score), the result is in descending order of score and the scores come
    out in one sequence; when no two candidates have one score the result is
    determined. *)
Theorem rank_on_subset_tie_order
        (sort_values sort_values' : list (Z * R) -> list (Z * R)) (self : System)
        (df : list Product) (M : list (list R))
        (subset_indices : list Z) (top_n : Z) :
  (forall l, Permutation (sort_values l) l) ->
  (forall l, StronglySorted (fun a b => snd b <= snd a) (sort_values l)) ->
  (forall l, Permutation (sort_values' l) l) ->
  (forall l, StronglySorted (fun a b => snd b <= snd a) (sort_values' l)) ->
  products_df self = Some df -> similarity_matrix self = Some M ->
  List.length M = List.length df -> n_columns M = List.length df ->
  subset_indices <> [] ->
  Forall (valid_index (List.length df)) subset_indices ->
  exists out out',
    rank_on_subset sort_values self subset_indices top_n = Ok out /\
    rank_on_subset sort_values' self subset_indices top_n = Ok out' /\
    StronglySorted (fun a b => snd (fst b) <= snd (fst a)) out /\
    map (fun t => snd (fst t)) out = map (fun t => snd (fst t)) out' /\
    (List.NoDup (map (candidate_score df M subset_indices) subset_indices) ->
     out = out').
Proof.
  intros Hperm Hsorted Hperm' Hsorted' Hdf HM Hrows Hcols Hne Hv.
  assert (Hd : exists d : Product, True).
  { destruct subset_indices as [|k r]; [contradiction|].
    inversion Hv as [|? ? [H0 H1] _]; subst.
    destruct df as [|d df']; [simpl in H1; lia | now exists d]. }
  destruct Hd as [d _].
  rewrite (rank_on_subset_valid sort_values self df M d subset_indices top_n)
    by (try assumption; congruence).
  rewrite (rank_on_subset_valid sort_values' self df M d subset_indices top_n)
    by (try assumption; congruence).
  set (pairs := map (fun k => (k, blended_score M subset_indices k (nth (Z.to_nat k) df d)))
                    subset_indices).
  eexists _, _. split; [reflexivity|]. split; [reflexivity|]. split; [|split].
  - apply (StronglySorted_map (fun a b : Z * R => snd b <= snd a)); [now intros a b|].
    apply StronglySorted_df_head, Hsorted.
  - rewrite !List.map_map. cbn [fst snd].
    rewrite <- !(df_head_map snd). f_equal.
    apply sorted_scores_unique.
    + apply (StronglySorted_map (fun a b : Z * R => snd b <= snd a)); [now intros a b|].
      apply Hsorted.
    + apply (StronglySorted_map (fun a b : Z * R => snd b <= snd a)); [now intros a b|].
      apply Hsorted'.
    + apply Permutation_map. now rewrite Hperm, Hperm'.
  - intros Hnd. do 3 f_equal. apply sorted_rows_unique.
    + apply Hsorted.
    + apply Hsorted'.
    + now rewrite Hperm, Hperm'.
    + apply (Permutation_NoDup (Permutation_sym (Permutation_map snd (Hperm pairs)))).
      unfold pairs. rewrite List.map_map. cbn [snd].
      apply (NoDup_map_inv Some). rewrite List.map_map.
      erewrite map_ext_in; [exact Hnd|].
      intros k Hk. cbv beta. unfold candidate_score.
      rewrite List.Forall_forall in Hv.
      now rewrite (loc_valid df d k (Hv k Hk)).
Qed.

Lemma rank_on_subset_tie_order_witness :
  exists out out',
    rank_on_subset insertion_sort_desc tied [0%Z; 1%Z] 5 = Ok out /\
    rank_on_subset sort_ties_reversed tied [0%Z; 1%Z] 5 = Ok out' /\
    StronglySorted (fun a b => snd (fst b) <= snd (fst a)) out /\
    map (fun t => snd (fst t)) out = map (fun t => snd (fst t)) out'.
Proof.
  destruct (rank_on_subset_tie_order insertion_sort_desc sort_ties_reversed tied
              twin_products [[1; 1]; [1; 1]] [0%Z; 1%Z] 5
              insertion_sort_desc_perm insertion_sort_desc_sorted
              sort_ties_reversed_perm sort_ties_reversed_sorted
              eq_refl eq_refl eq_refl eq_refl
              ltac:(discriminate)
              ltac:(repeat constructor; simpl; lia))
    as (out & out' & Hout & Hout' & Hs & Hscores & _).
  exists out, out'. repeat split; assumption.
Defined.

Lemma not_precedes_1_0 : ~ precedes 1%Z 0%Z [0%Z; 1%Z].
Proof.
  intros (l1 & l2 & l3 & H).
  destruct l1 as [|a l1]; [discriminate H|]. injection H as _ H.
  destruct l1 as [|b l1]; [|destruct l1; discriminate H]. injection H as H.
  destruct l2; discriminate H.
Qed.

(** C6: two candidates of equal score, given in ascending order of index.
    The stable sort returns them in that order, and a sort that is not
    stable, as good a result of [sort_values] with its default kind, returns
    them reversed: neither in the order of the candidate list nor in
    ascending order of index. *)
Lemma tied_candidates_reversed :
  (forall l, Permutation (sort_ties_reversed l) l) /\
  (forall l, StronglySorted (fun a b => snd b <= snd a) (sort_ties_reversed l)) /\
  StronglySorted Z.lt [0%Z; 1%Z] /\
  exists s,
    blended_score [[1; 1]; [1; 1]] [0%Z; 1%Z] 0 micellar_water = s /\
    blended_score [[1; 1]; [1; 1]] [0%Z; 1%Z] 1 micellar_water = s /\
    rank_on_subset insertion_sort_desc tied [0%Z; 1%Z] 5
    = Ok [(0%Z, s, micellar_water); (1%Z, s, micellar_water)] /\
    rank_on_subset sort_ties_reversed tied [0%Z; 1%Z] 5
    = Ok [(1%Z, s, micellar_water); (0%Z, s, micellar_water)] /\
    ~ ties_keep_list_order [0%Z; 1%Z]
        [(1%Z, s, micellar_water); (0%Z, s, micellar_water)] /\
    ~ ties_ascending_index [(1%Z, s, micellar_water); (0%Z, s, micellar_water)].
Proof.
  split; [exact sort_ties_reversed_perm|]. split; [exact sort_ties_reversed_sorted|].
  split; [repeat constructor|].
  exists (blended_score [[1; 1]; [1; 1]] [0%Z; 1%Z] 0 micellar_water).
  split; [reflexivity|]. split; [reflexivity|].
  split; [|split; [|split]].
  - rewrite (rank_on_subset_valid insertion_sort_desc tied twin_products
               [[1; 1]; [1; 1]] micellar_water [0%Z; 1%Z] 5);
      try reflexivity; try discriminate; try apply insertion_sort_desc_perm;
      try (repeat constructor; simpl; lia).
    cbn [map]. change (Z.to_nat 1) with 1%nat. change (Z.to_nat 0) with 0%nat.
    cbn [nth twin_products].
    change (blended_score [[1; 1]; [1; 1]] [0%Z; 1%Z] 1 micellar_water)
      with (blended_score [[1; 1]; [1; 1]] [0%Z; 1%Z] 0 micellar_water).
    set (s := blended_score _ _ _ _). clearbody s.
    unfold insertion_sort_desc. cbn [fold_right insert_desc snd].
    destruct (Rlt_dec s s) as [H|_]; [lra|]. reflexivity.
  - rewrite (rank_on_subset_valid sort_ties_reversed tied twin_products
               [[1; 1]; [1; 1]] micellar_water [0%Z; 1%Z] 5);
      try reflexivity; try discriminate; try apply sort_ties_reversed_perm;
      try (repeat constructor; simpl; lia).
    cbn [map]. change (Z.to_nat 1) with 1%nat. change (Z.to_nat 0) with 0%nat.
    cbn [nth twin_products].
    change (blended_score [[1; 1]; [1; 1]] [0%Z; 1%Z] 1 micellar_water)
      with (blended_score [[1; 1]; [1; 1]] [0%Z; 1%Z] 0 micellar_water).
    set (s := blended_score _ _ _ _). clearbody s.
    unfold sort_ties_reversed. cbn [fold_right insert_after_ties snd].
    destruct (Rle_dec s s) as [_|H]; [|lra]. reflexivity.
  - intros Hlist. apply not_precedes_1_0.
    apply (Hlist (1%Z, blended_score [[1; 1]; [1; 1]] [0%Z; 1%Z] 0 micellar_water,
                  micellar_water)
                 (0%Z, blended_score [[1; 1]; [1; 1]] [0%Z; 1%Z] 0 micellar_water,
                  micellar_water)); [|reflexivity].
    now exists [], [], [].
  - intros Hasc.
    specialize (Hasc (1%Z, blended_score [[1; 1]; [1; 1]] [0%Z; 1%Z] 0 micellar_water,
                      micellar_water)
                     (0%Z, blended_score [[1; 1]; [1; 1]] [0%Z; 1%Z] 0 micellar_water,
                      micellar_water)).
    cbn [fst snd] in Hasc. assert (H : (1 < 0)%Z); [|lia].
    apply Hasc; [|reflexivity]. now exists [], [], [].
Qed.

(** * Skin tokens: number of tokens, joined texts *)

Lemma phrase_tokens_length (parts : list string) :
  (List.length (phrase_tokens parts) <= List.length parts)%nat.
Proof.
  unfold phrase_tokens. induction parts as [|p parts IH]; [reflexivity|].
  cbn [flat_map]. rewrite length_app. cbn [List.length].
  destruct (_canonicalize_skin_token p) as [t|]; [destruct (truthy (Some t))|];
    cbn [List.length]; lia.
Qed.

Lemma size_list_to_set_le (l : list string) :
  (size (list_to_set (C := gset string) l) <= List.length l)%nat.
Proof.
  induction l as [|x l IH]; [now rewrite list_to_set_nil, size_empty|].
  rewrite list_to_set_cons, size_union_alt, size_singleton. cbn [List.length].
  assert (Hsub : list_to_set l ∖ {[x]} ⊆ (list_to_set l : gset string))
    by (apply subseteq_difference_l; reflexivity).
  apply subseteq_size in Hsub. lia.
Qed.

(** X1.  The token set of a text is never empty and has at most one token
    for each phrase the delimiters [,|/;&] cut the text into. *)
Theorem parse_skin_tokens_size (raw : string) :
  (1 <= size (_parse_skin_tokens (Some raw)) <= List.length (re_split (lower raw)))%nat.
Proof.
  assert (Hparts : (1 <= List.length (re_split (lower raw)))%nat).
  { pose proof (re_split_nonempty (lower raw)). destruct (re_split (lower raw)); [contradiction|].
    cbn [List.length]. lia. }
  destruct (parse_skin_tokens_cases (Some raw)) as
    [[[=] _] | (raw' & [= <-] & [[_ E] | [(_ & _ & E) | (_ & Hn & E)]])];
    rewrite E; try (rewrite size_singleton; lia).
  split.
  - destruct (phrase_tokens (re_split (lower raw))) as [|t l]; [contradiction|].
    rewrite list_to_set_cons, size_union_alt, size_singleton. lia.
  - etransitivity; [apply size_list_to_set_le | apply phrase_tokens_length].
Qed.

Lemma re_split_app_delim (x y : string) (d : ascii) :
  is_delim d = true -> re_split (x ++ String d y) = (re_split x ++ re_split y)%list.
Proof.
  intros Hd. induction x as [|c x IH].
  - change ("" ++ String d y) with (String d y). cbn [re_split]. now rewrite Hd.
  - rewrite append_cons. cbn [re_split]. rewrite IH.
    destruct (is_delim c); [reflexivity|].
    pose proof (re_split_nonempty x) as Hne.
    destruct (re_split x) as [|p ps]; [contradiction | reflexivity].
Qed.

Lemma lower_char_delim (d : ascii) : is_delim d = true -> lower_char d = d.
Proof. destruct d as [[] [] [] [] [] [] [] []]; try discriminate; reflexivity. Qed.

Lemma phrase_tokens_app (l1 l2 : list string) :
  phrase_tokens (l1 ++ l2) = (phrase_tokens l1 ++ phrase_tokens l2)%list.
Proof. unfold phrase_tokens. apply flat_map_app. Qed.

Lemma prefix_nil (s : string) : String.prefix "" s = true.
Proof. now destruct s. Qed.

Lemma prefix_app_r (w x y : string) :
  String.prefix w x = true -> String.prefix w (x ++ y) = true.
Proof.
  rewrite !prefix_spec. intros [b ->]. exists (b ++ y). apply append_assoc.
Qed.

(** A word without the character [d] that starts before a [d] ends before
    it. *)
Lemma prefix_before_char (w x y : string) (d : ascii) :
  contains (String d "") w = false ->
  String.prefix w (x ++ String d y) = true -> String.prefix w x = true.
Proof.
  revert x. induction w as [|a w IH]; intros x Hd H; [apply prefix_nil|].
  cbn [contains] in Hd. apply orb_false_iff in Hd as [Hp Hd].
  assert (Had : a <> d).
  { intros ->. rewrite (proj2 (prefix_cons d d "" w)) in Hp; [discriminate|].
    split; [reflexivity | apply prefix_nil]. }
  destruct x as [|c x].
  - change ("" ++ String d y) with (String d y) in H.
    apply prefix_cons in H as [E _]. contradiction.
  - rewrite append_cons in H. apply prefix_cons in H as [<- H].
    apply prefix_cons. split; [reflexivity|]. now apply IH.
Qed.

Lemma contains_across_char (w x y : string) (d : ascii) :
  contains (String d "") w = false -> w <> "" ->
  contains w (x ++ String d y) = contains w x || contains w y.
Proof.
  intros Hd Hne. induction x as [|c x IH].
  - change ("" ++ String d y) with (String d y). cbn [contains].
    destruct w as [|a w]; [contradiction|].
    assert (Hp : String.prefix (String a w) (String d y) = false).
    { destruct (String.prefix (String a w) (String d y)) eqn:E; [|reflexivity].
      apply (prefix_before_char _ "" y d Hd) in E. discriminate E. }
    rewrite Hp. reflexivity.
  - rewrite append_cons. cbn [contains]. rewrite IH.
    assert (Hp : String.prefix w (String c (x ++ String d y)) = String.prefix w (String c x)).
    { destruct (String.prefix w (String c x)) eqn:E.
      - rewrite <- append_cons. now apply prefix_app_r.
      - destruct (String.prefix w (String c (x ++ String d y))) eqn:E'; [|reflexivity].
        rewrite <- append_cons in E'. apply (prefix_before_char _ _ _ _ Hd) in E'. congruence. }
    rewrite Hp. now rewrite orb_assoc.
Qed.

Lemma no_delim_in_semua (d : ascii) :
  is_delim d = true -> contains (String d "") "semua" = false.
Proof. destruct d as [[] [] [] [] [] [] [] []]; try discriminate; reflexivity. Qed.

(** X2.  Two texts joined by a delimiter: when neither text contains
    "semua" and each one alone gives a token, the joined text gives the
    union of the two token sets. *)
Theorem parse_skin_tokens_join (a b : string) (d : ascii) :
  is_delim d = true ->
  contains "semua" (lower a) = false -> contains "semua" (lower b) = false ->
  phrase_tokens (re_split (lower a)) <> [] ->
  phrase_tokens (re_split (lower b)) <> [] ->
  _parse_skin_tokens (Some (a ++ String d b))
  = _parse_skin_tokens (Some a) ∪ _parse_skin_tokens (Some b).
Proof.
  intros Hd Ha Hb Hta Htb.
  assert (Hlow : lower (a ++ String d b) = lower a ++ String d (lower b)).
  { rewrite lower_app. cbn [lower]. now rewrite (lower_char_delim d Hd). }
  unfold _parse_skin_tokens. rewrite Hlow, Ha, Hb.
  rewrite (contains_across_char "semua" _ _ d (no_delim_in_semua d Hd)) by discriminate.
  rewrite Ha, Hb. cbn [orb].
  rewrite (re_split_app_delim _ _ d Hd), phrase_tokens_app, list_to_set_app_L.
  set (ta := phrase_tokens (re_split (lower a))) in *.
  set (tb := phrase_tokens (re_split (lower b))) in *.
  assert (Ea : (list_to_set ta : gset string) <> ∅)
    by (intros E; now apply list_to_set_empty_nil in E).
  assert (Eb : (list_to_set tb : gset string) <> ∅)
    by (intros E; now apply list_to_set_empty_nil in E).
  destruct (decide (list_to_set ta ∪ list_to_set tb = (∅ : gset string))) as [E|_].
  { apply empty_union_L in E as [E _]. contradiction. }
  destruct (decide (list_to_set ta = (∅ : gset string))) as [E|_]; [contradiction|].
  destruct (decide (list_to_set tb = (∅ : gset string))) as [E|_]; [contradiction|].
  reflexivity.
Qed.

Lemma parse_skin_tokens_join_witness :
  _parse_skin_tokens (Some ("Kulit kering" ++ String ","%char " berminyak"))
  = _parse_skin_tokens (Some "Kulit kering") ∪ _parse_skin_tokens (Some " berminyak").
Proof.
  apply (parse_skin_tokens_join "Kulit kering" " berminyak" ","%char);
    try (vm_compute; reflexivity); vm_compute; discriminate.
Defined.

(** * Skin tokens: the evidence of a token *)

Lemma canonical_text_contains (w p : string) :
  all_word w = true -> w <> "" ->
  contains w (strip (re_sub_kulit_dan (strip (lower p)))) = true ->
  contains w (lower p) = true.
Proof.
  intros Hw Hne E.
  apply (contains_mono _ _ _ (strip_occurs _)) in E.
  apply (sub_scan_contains w Hw Hne _ _ None (le_n _)) in E.
  now apply (contains_mono _ _ _ (strip_occurs _)) in E.
Qed.

Lemma canonicalize_keyword (p t : string) :
  _canonicalize_skin_token p = Some t ->
  exists w, In w (keywords t) /\ contains w (lower p) = true.
Proof.
  unfold _canonicalize_skin_token.
  destruct (String.eqb p ""); [discriminate|].
  set (t' := strip (re_sub_kulit_dan (strip (lower p)))).
  assert (Hk : forall w, all_word w = true -> w <> "" -> contains w t' = true ->
                         contains w (lower p) = true).
  { intros w Hw Hne. now apply canonical_text_contains. }
  destruct (in_list t' CANON) eqn:Ein.
  - intros [= <-]. apply in_list_In in Ein. clearbody t'. cbn in Ein.
    destruct Ein as [<-|[<-|[<-|[<-|[<-|[<-|[<-|[<-|[]]]]]]]]].
    + exists "jerawat". split; [cbn; tauto | now apply Hk].
    + exists "berminyak". split; [cbn; tauto | now apply Hk].
    + exists "kering". split; [cbn; tauto | now apply Hk].
    + exists "sensitif". split; [cbn; tauto | now apply Hk].
    + exists "normal". split; [cbn; tauto | now apply Hk].
    + exists "kombinasi". split; [cbn; tauto | now apply Hk].
    + exists "kusam". split; [cbn; tauto | now apply Hk].
    + exists "semua". split; [cbn; tauto | now apply Hk].
  - clearbody t'. intros H.
    repeat match type of H with
           | (if ?a || ?b then _ else _) = _ =>
               let Ea := fresh "Ea" in let Eb := fresh "Eb" in
               destruct a eqn:Ea;
               [cbn [orb] in H; injection H as <-; eexists; split;
                [|apply Hk; [| |exact Ea]; [reflexivity | discriminate]]; cbn; tauto|];
               destruct b eqn:Eb;
               [cbn [orb] in H; injection H as <-; eexists; split;
                [|apply Hk; [| |exact Eb]; [reflexivity | discriminate]]; cbn; tauto|];
               cbn [orb] in H
           | (if ?a then _ else _) = _ =>
               let Ea := fresh "Ea" in
               destruct a eqn:Ea;
               [injection H as <-; eexists; split;
                [|apply Hk; [| |exact Ea]; [reflexivity | discriminate]]; cbn; tauto|]
           end.
    discriminate.
Qed.

(** X3.  A token other than "semua" is in the token set of a text only
    when one of the substrings lines 60-67 test for that token occurs in the
    lower-cased text: the parser tags no product with a skin type its text
    does not name. *)
Theorem parse_skin_tokens_keyword_evidence (raw t : string) :
  t ∈ _parse_skin_tokens (Some raw) -> t <> "semua" ->
  exists w, In w (keywords t) /\ contains w (lower raw) = true.
Proof.
  intros Hin Hne.
  destruct (parse_skin_tokens_cases (Some raw)) as
    [[[=] _] | (raw' & [= <-] & [[_ E] | [(_ & _ & E) | (_ & _ & E)]])];
    rewrite E in Hin.
  - apply elem_of_singleton in Hin. contradiction.
  - apply elem_of_singleton in Hin. contradiction.
  - apply elem_of_list_to_set, list_elem_of_In, phrase_tokens_In in Hin as (p & Hp & Hc).
    apply canonicalize_keyword in Hc as (w & Hw & Hcont).
    exists w. split; [exact Hw|].
    apply re_split_occurs, lower_occurs in Hp. rewrite lower_idem in Hp.
    exact (contains_mono _ _ _ Hp Hcont).
Qed.

Lemma parse_skin_tokens_keyword_evidence_witness :
  exists w, In w (keywords "kering") /\
            contains w (lower "Kulit kering, berminyak, sensitif") = true.
Proof.
  apply (parse_skin_tokens_keyword_evidence "Kulit kering, berminyak, sensitif" "kering").
  - vm_compute. reflexivity.
  - discriminate.
Defined.

(** * Schema normaliser: columns of the result, colliding headers *)

Lemma fill_missing_names (order : list string) (df : DataFrame) :
  List.NoDup order ->
  col_names (fold_left add_missing order df)
  = (col_names df
     ++ List.filter (fun c => negb (in_list c (col_names df))) order)%list.
Proof.
  revert df. induction order as [|a order IH]; intros df Hnd; cbn [fold_left List.filter].
  - now rewrite app_nil_r.
  - inversion Hnd as [|? ? Ha Hnd']; subst. rewrite (IH _ Hnd'), add_missing_names.
    destruct (in_list a (col_names df)) eqn:E; cbn [negb]; [reflexivity|].
    rewrite <- app_assoc. cbn [app]. do 2 f_equal.
    apply filter_ext_in. intros c Hc. f_equal.
    unfold in_list. rewrite existsb_app. cbn [existsb].
    destruct (String.eqb_spec c a) as [->|_]; [contradiction|].
    now rewrite !orb_false_r.
Qed.

Section SchemaColumns.

Variable parse_float : string -> option R.
Variable repr_float : R -> string.
Variable nan_as_text : bool.

(** X4.  On a table whose headers stay distinct after normalisation the
    schema normaliser keeps the number of rows and the columns in their
    order, appends the canonical columns that were absent, leaves a column
    that is no canonical one and a present [id] column as they were, and
    turns every cell of a present text column into text: a number into its
    printed form, and a missing value into the text "nan" where
    [astype(str)] makes a text of it (pandas before 3.0: the [fillna('')]
    that follows changes nothing) and into the empty text where it does not
    (pandas 3). *)
Theorem normalize_schema_columns (order : list string) (df : DataFrame) :
  Permutation order required_cols ->
  List.NoDup (map canonical_name (col_names df)) ->
  exists df',
    _normalize_schema parse_float repr_float nan_as_text order df = Ok df' /\
    nrows df' = nrows df /\
    col_names df'
    = (map canonical_name (col_names df)
       ++ List.filter
            (fun c => negb (in_list c (map canonical_name (col_names df)))) order)%list /\
    (forall c, ~ In c required_cols \/
               (c = "id" /\ In "id" (map canonical_name (col_names df))) ->
       get_col c (columns df') = get_col c (columns (rename_columns df))) /\
    (forall c cells, In c required_cols -> ~ In c ("id" :: numeric_cols) ->
       get_col c (columns (rename_columns df)) = Some cells ->
       get_col c (columns df')
       = Some (map (fun x => match x with
                             | CStr s => CStr s
                             | CNum r => CStr (repr_float r)
                             | CNaN => CStr (if nan_as_text then "nan" else "")
                             end) cells)).
Proof.
  intros Hperm Hnd. unfold _normalize_schema.
  rewrite <- rename_columns_names in Hnd |- *.
  set (df1 := rename_columns df) in *.
  assert (Hord : forall c, In c order <-> In c required_cols).
  { intros c. split; [apply (Permutation_in _ Hperm) |
                      apply (Permutation_in _ (Permutation_sym Hperm))]. }
  assert (Hndo : List.NoDup order)
    by exact (Permutation_NoDup (Permutation_sym Hperm) required_cols_NoDup).
  destruct (fill_missing_spec order df1 Hnd) as (Hn2 & Hnd2 & Hold2 & Hall2 & Hnew2).
  pose proof (fill_missing_names order df1 Hndo) as Hnames2.
  set (df2 := fold_left add_missing order df1) in *.
  assert (Hndn : List.NoDup numeric_cols).
  { unfold numeric_cols.
    repeat (constructor; [cbn; intros H; repeat destruct H as [H|H]; try discriminate H; exact H|]).
    constructor. }
  destruct (coerce_numeric_loop parse_float numeric_cols df2 Hndn Hnd2)
    as (df3 & Hf3 & Hn3 & Hnames3 & Hget3).
  { intros c Hc. now apply Hall2, Hord, numeric_cols_required. }
  rewrite Hf3. cbn [bind].
  destruct (stringify_loop repr_float nan_as_text order df3 Hndo)
    as (df4 & Hf4 & Hn4 & Hnames4 & Hget4).
  { intros c Hc. rewrite Hnames3. now apply Hall2. }
  exists df4. split; [exact Hf4|]. split; [now rewrite Hn4, Hn3, Hn2|].
  split; [now rewrite Hnames4, Hnames3|]. split.
  - intros c Hc.
    assert (Hsame : get_col c (columns df4) = get_col c (columns df2)).
    { rewrite Hget4, Hget3. destruct Hc as [Hc| [-> _]].
      - rewrite (proj2 (in_list_false c order)) by (rewrite Hord; exact Hc).
        rewrite (proj2 (in_list_false c numeric_cols))
          by (intros H; apply Hc; now apply numeric_cols_required).
        reflexivity.
      - cbn. now rewrite andb_false_r. }
    rewrite Hsame.
    destruct (in_dec string_dec c (col_names df1)) as [Hin|Hout].
    + now apply Hold2.
    + destruct Hc as [Hc| [-> Hid]]; [|contradiction].
      unfold df2. rewrite (get_col_None c (columns df1)) by exact Hout.
      apply get_col_None. fold (col_names (fold_left add_missing order df1)).
      rewrite fill_missing_names by exact Hndo. intros Hin.
      apply in_app_or in Hin as [Hin|Hin]; [contradiction|].
      apply filter_In in Hin as [Hin _]. apply Hc. now apply Hord.
  - intros c cells Hc Hnot Hcells. rewrite Hget4, Hget3.
    rewrite (proj2 (in_list_iff c order)) by (now apply Hord).
    rewrite (proj2 (in_list_false _ _) Hnot). cbn [negb andb].
    assert (Hnn : in_list c numeric_cols = false).
    { apply in_list_false. intros H. apply Hnot. now right. }
    rewrite Hnn.
    assert (Hin : In c (col_names df1)).
    { unfold col_names. destruct (in_dec string_dec c (map fst (columns df1))) as [H|H]; [exact H|].
      rewrite (get_col_None _ _ H) in Hcells. discriminate. }
    destruct (Hold2 c Hin) as [_ ->]. rewrite Hcells. cbn [option_map]. f_equal.
    apply map_ext. intros [s|r|]; try reflexivity.
    unfold astype_str_cell. now destruct nan_as_text.
Qed.

End SchemaColumns.

Section SchemaDuplicates.

Variable parse_float : string -> option R.
Variable repr_float : R -> string.
Variable nan_as_text : bool.

Lemma coerce_numeric_loop_duplicate (cols : list string) (df : DataFrame) (c : string) :
  (forall x, In x cols -> (1 <= count_col x df)%nat) ->
  In c cols -> (2 <= count_col c df)%nat ->
  for_each (coerce_numeric parse_float) cols df = Raise TypeError.
Proof.
  revert df. induction cols as [|a cols IH]; intros df Hall Hc Hdup; [destruct Hc|].
  cbn [for_each]. unfold coerce_numeric at 1.
  pose proof (Hall a (or_introl eq_refl)) as Ha.
  destruct (count_col a df) as [|[|n]] eqn:E; [lia | | reflexivity].
  cbn [bind]. destruct Hc as [->|Hc]; [lia|].
  apply IH; [|exact Hc|].
  - intros x Hx. rewrite map_col_count. apply Hall. now right.
  - now rewrite map_col_count.
Qed.

(** X5.  When two or more headers are normalised to one of the numeric
    columns [rating], [harga_idr], [size_ml], the schema normaliser raises
    [TypeError], whatever the other columns hold. *)
Theorem normalize_schema_duplicate_numeric (order : list string) (df : DataFrame)
        (c : string) :
  Permutation order required_cols ->
  In c numeric_cols ->
  (2 <= count_col c (rename_columns df))%nat ->
  _normalize_schema parse_float repr_float nan_as_text order df = Raise TypeError.
Proof.
  intros Hperm Hc Hdup. unfold _normalize_schema.
  rewrite (coerce_numeric_loop_duplicate numeric_cols _ c); [reflexivity| |exact Hc|].
  - intros x Hx. apply fill_missing_present.
    apply (Permutation_in _ (Permutation_sym Hperm)). now apply numeric_cols_required.
  - etransitivity; [exact Hdup | apply fill_missing_count].
Qed.

End SchemaDuplicates.

Lemma normalize_schema_columns_witness :
  (exists df',
     _normalize_schema parse_unsigned print_number true required_cols notes_table
     = Ok df' /\
     nrows df' = 2%nat /\
     get_col "catatan" (columns df') = Some [CNum 1; CNaN] /\
     get_col "nama_produk" (columns df') = Some [CStr "Serum"; CStr "nan"]) /\
  (exists df',
     _normalize_schema parse_unsigned print_number false required_cols notes_table
     = Ok df' /\
     get_col "nama_produk" (columns df') = Some [CStr "Serum"; CStr ""]).
Proof.
  assert (Hnd : List.NoDup (map canonical_name (col_names notes_table))).
  { vm_compute. repeat (constructor; [cbn; intros H; repeat destruct H as [H|H]; try discriminate H; exact H|]).
    constructor. }
  assert (Hname : ~ In "nama_produk" ("id" :: numeric_cols)).
  { cbn. intros H. repeat destruct H as [H|H]; try discriminate H. exact H. }
  split.
  - destruct (normalize_schema_columns parse_unsigned print_number true required_cols
                notes_table (Permutation_refl _) Hnd)
      as (df' & Hok & Hrows & _ & Hother & Htext).
    exists df'. split; [exact Hok|]. split; [exact Hrows|]. split.
    + rewrite (Hother "catatan"); [vm_compute; reflexivity|].
      left. cbn. intros H. repeat destruct H as [H|H]; try discriminate H. exact H.
    + rewrite (Htext "nama_produk" [CStr "Serum"; CNaN]);
        [reflexivity | cbn; tauto | exact Hname | vm_compute; reflexivity].
  - destruct (normalize_schema_columns parse_unsigned print_number false required_cols
                notes_table (Permutation_refl _) Hnd)
      as (df' & Hok & _ & _ & _ & Htext).
    exists df'. split; [exact Hok|].
    rewrite (Htext "nama_produk" [CStr "Serum"; CNaN]);
      [reflexivity | cbn; tauto | exact Hname | vm_compute; reflexivity].
Defined.

Lemma normalize_schema_duplicate_numeric_witness :
  _normalize_schema parse_unsigned print_number true required_cols two_ratings
  = Raise TypeError.
Proof.
  apply (normalize_schema_duplicate_numeric parse_unsigned print_number true required_cols
           two_ratings "rating" (Permutation_refl _)).
  - cbn. tauto.
  - vm_compute. lia.
Defined.

(** * Compatibility filter: the query token *)

Lemma normalize_skin_type_standard (g : string * list string) :
  In g skin_type_mapping -> normalize_skin_type (fst g) = fst g.
Proof.
  cbn. intros H. repeat destruct H as [<-|H]; try (vm_compute; reflexivity). contradiction.
Qed.

Lemma normalize_skin_type_canonical (t : string) :
  In t CANON -> normalize_skin_type t = t.
Proof.
  cbn. intros H. repeat destruct H as [<-|H]; try (vm_compute; reflexivity). contradiction.
Qed.

(** X6.  [normalize_skin_type] is idempotent, and it maps every token of
    the canonical vocabulary to itself: the token the selection box hands
    over is the token the filter looks for. *)
Theorem normalize_skin_type_idempotent (user_skin_type : string) :
  normalize_skin_type (normalize_skin_type user_skin_type)
  = normalize_skin_type user_skin_type /\
  (In user_skin_type CANON -> normalize_skin_type user_skin_type = user_skin_type).
Proof.
  split; [|apply normalize_skin_type_canonical].
  unfold normalize_skin_type at 2 3.
  destruct (List.find _ skin_type_mapping) as [g|] eqn:E.
  - apply find_some in E as [Hg _]. now apply normalize_skin_type_standard.
  - unfold normalize_skin_type. rewrite lower_idem, E. reflexivity.
Qed.

Lemma find_compatible_products_rows (self : System) (df : list Product)
      (user_skin_type : string) :
  products_df self = Some df ->
  exists out,
    find_compatible_products self user_skin_type = Ok out /\
    forall i p, In (i, p) out <->
                nth_error df i = Some p /\
                ("semua" ∈ skin_tokens p \/
                 normalize_skin_type user_skin_type ∈ skin_tokens p).
Proof.
  intros Hdf. unfold find_compatible_products. rewrite Hdf.
  eexists. split; [reflexivity|].
  intros i p. rewrite filter_In, In_indexed. unfold compatible. cbn [snd].
  rewrite orb_true_iff, !bool_decide_eq_true. reflexivity.
Qed.

(** X7.  For a query whose normal form is no token of the vocabulary, on a
    catalogue whose token sets hold tokens of the vocabulary only, the
    compatible rows are exactly the rows tagged "semua". *)
Theorem find_compatible_products_unknown_query (self : System) (df : list Product)
        (user_skin_type : string) :
  products_df self = Some df ->
  ~ In (normalize_skin_type user_skin_type) CANON ->
  (forall p t, In p df -> t ∈ skin_tokens p -> In t CANON) ->
  exists out,
    find_compatible_products self user_skin_type = Ok out /\
    forall i p, In (i, p) out <-> nth_error df i = Some p /\ "semua" ∈ skin_tokens p.
Proof.
  intros Hdf Hun Hcanon.
  destruct (find_compatible_products_rows self df user_skin_type Hdf) as (out & Hout & H).
  exists out. split; [exact Hout|]. intros i p. rewrite H. split.
  - intros [Hnth [Hs|Hq]]; [tauto|]. exfalso. apply Hun.
    apply (Hcanon p); [|exact Hq]. now apply nth_error_In in Hnth.
  - tauto.
Qed.

Lemma with_derived_skin_tokens (p : Product) :
  skin_tokens (with_derived p) = _parse_skin_tokens (Some (jenis_kulit_kompatibel p)).
Proof. reflexivity. Qed.

(** X8.  A row whose skin-type text has no phrase that is canonicalised to
    a token is compatible with every query: the fall-back {semua} of the
    parser makes the filter return it whatever the user asks for. *)
Theorem unparseable_skin_text_always_compatible (self : System) (df : list Product)
        (user_skin_type : string) (i : nat) (p : Product) :
  products_df self = Some df ->
  nth_error df i = Some (with_derived p) ->
  (forall phrase, In phrase (re_split (lower (jenis_kulit_kompatibel p))) ->
                  _canonicalize_skin_token phrase = None) ->
  exists out,
    find_compatible_products self user_skin_type = Ok out /\
    In (i, with_derived p) out.
Proof.
  intros Hdf Hnth Hnone.
  destruct (find_compatible_products_rows self df user_skin_type Hdf) as (out & Hout & H).
  exists out. split; [exact Hout|]. apply H. split; [exact Hnth|]. left.
  rewrite with_derived_skin_tokens.
  destruct (parse_skin_tokens_cases (Some (jenis_kulit_kompatibel p))) as
    [[[=] _] | (raw & [= <-] & [[_ E] | [(_ & _ & E) | (_ & Hn & _)]])].
  - rewrite E. now apply elem_of_singleton.
  - rewrite E. now apply elem_of_singleton.
  - exfalso. apply Hn. now apply phrase_tokens_nil.
Qed.

Lemma find_compatible_products_unknown_query_witness :
  exists out,
    find_compatible_products loaded_skin "bertekstur" = Ok out /\
    forall i p, In (i, p) out <->
                nth_error skin_catalog i = Some p /\ "semua" ∈ skin_tokens p.
Proof.
  apply (find_compatible_products_unknown_query loaded_skin skin_catalog "bertekstur" eq_refl).
  - vm_compute. intros H. repeat destruct H as [H|H]; try discriminate H. exact H.
  - intros p t [<-|[<-|[]]] Ht.
    + change (t ∈ _parse_skin_tokens (Some "Semua jenis kulit")) in Ht.
      apply (canonicalize_in_CANON "semua").
      assert (E : _parse_skin_tokens (Some "Semua jenis kulit") = {["semua"]})
        by (vm_compute; reflexivity).
      rewrite E in Ht. apply elem_of_singleton in Ht. subst t. vm_compute. reflexivity.
    + change (t ∈ _parse_skin_tokens (Some "Kulit kering")) in Ht.
      apply (canonicalize_in_CANON "kering").
      assert (E : _parse_skin_tokens (Some "Kulit kering") = {["kering"]})
        by (vm_compute; reflexivity).
      rewrite E in Ht. apply elem_of_singleton in Ht. subst t. vm_compute. reflexivity.
Defined.

Lemma unparseable_skin_text_always_compatible_witness :
  exists out,
    find_compatible_products loaded "kering" = Ok out /\
    In (1%nat, with_derived unlabelled_serum) out.
Proof.
  apply (unparseable_skin_text_always_compatible loaded two_products "kering" 1
           unlabelled_serum eq_refl eq_refl).
  intros phrase Hin. change (In phrase (re_split (lower "-"))) in Hin.
  vm_compute in Hin. destruct Hin as [<-|[]]. vm_compute. reflexivity.
Defined.

(** * Similarity engine: equal rows, zero rows *)

(** X10.  A product whose row of weights is all zero has similarity 0 to
    every product and from every product; two products with the same row of
    weights have the same similarities to and from every product. *)
Theorem cosine_similarity_equal_and_zero_rows (X : list (list R)) (i j k : nat) :
  (i < List.length X)%nat -> (j < List.length X)%nat -> (k < List.length X)%nat ->
  (Forall (fun v => v = 0) (nth i X []) ->
   entry (cosine_similarity X) i k = 0 /\ entry (cosine_similarity X) k i = 0) /\
  (nth i X [] = nth j X [] ->
   entry (cosine_similarity X) i k = entry (cosine_similarity X) j k /\
   entry (cosine_similarity X) k i = entry (cosine_similarity X) k j).
Proof.
  intros Hi Hj Hk. rewrite !entry_cosine_similarity by assumption. split.
  - intros H0. rewrite (dot_comm (normalize_row (nth k X []))).
    rewrite dot_normalize_row, (dot_zero_l _ _ H0).
    unfold Rdiv. split; ring.
  - intros ->. split; reflexivity.
Qed.

Lemma cosine_similarity_equal_and_zero_rows_witness :
  (entry (cosine_similarity [[1; 2]; [0; 0]; [1; 2]]) 1 2 = 0 /\
   entry (cosine_similarity [[1; 2]; [0; 0]; [1; 2]]) 2 1 = 0) /\
  (entry (cosine_similarity [[1; 2]; [0; 0]; [1; 2]]) 0 1
   = entry (cosine_similarity [[1; 2]; [0; 0]; [1; 2]]) 2 1 /\
   entry (cosine_similarity [[1; 2]; [0; 0]; [1; 2]]) 1 0
   = entry (cosine_similarity [[1; 2]; [0; 0]; [1; 2]]) 1 2).
Proof.
  split.
  - apply (cosine_similarity_equal_and_zero_rows [[1; 2]; [0; 0]; [1; 2]] 1 0 2);
      [simpl; lia | simpl; lia | simpl; lia |].
    cbn [nth]. repeat constructor.
  - apply (cosine_similarity_equal_and_zero_rows [[1; 2]; [0; 0]; [1; 2]] 0 2 1);
      [simpl; lia | simpl; lia | simpl; lia | reflexivity].
Defined.

(** * Ranker: size of the result, errors, range of the scores *)

Lemma valid_subset_default (df : list Product) (subset_indices : list Z) :
  subset_indices <> [] -> Forall (valid_index (List.length df)) subset_indices ->
  exists d : Product, True.
Proof.
  intros Hne Hv. destruct subset_indices as [|k r]; [contradiction|].
  inversion Hv as [|? ? [H0 H1] _]; subst.
  destruct df as [|d df']; [simpl in H1; lia | now exists d].
Qed.

(** X11.  On a list, not empty, of candidates that are rows of the
    catalogue, with a matrix of the catalogue's size, the ranker returns
    exactly [min(top_n, number of candidates)] entries for [top_n >= 0] and
    all but the last [-top_n] for a negative [top_n], in descending order of
    score, and each entry is a candidate with its catalogue row. *)
Theorem rank_on_subset_count_and_order
        (sort_values : list (Z * R) -> list (Z * R)) (self : System)
        (df : list Product) (M : list (list R))
        (subset_indices : list Z) (top_n : Z) :
  (forall l, Permutation (sort_values l) l) ->
  (forall l, StronglySorted (fun a b => snd b <= snd a) (sort_values l)) ->
  products_df self = Some df -> similarity_matrix self = Some M ->
  List.length M = List.length df -> n_columns M = List.length df ->
  subset_indices <> [] ->
  Forall (valid_index (List.length df)) subset_indices ->
  exists out,
    rank_on_subset sort_values self subset_indices top_n = Ok out /\
    Z.of_nat (List.length out)
    = (if (0 <=? top_n)%Z then Z.min top_n (Z.of_nat (List.length subset_indices))
       else Z.max 0 (Z.of_nat (List.length subset_indices) + top_n)) /\
    StronglySorted (fun a b => snd (fst b) <= snd (fst a)) out /\
    (forall k s p, In (k, s, p) out -> In k subset_indices /\ nth_error df (Z.to_nat k) = Some p).
Proof.
  intros Hperm Hsorted Hdf HM Hrows Hcols Hne Hv.
  destruct (valid_subset_default df subset_indices Hne Hv) as [d _].
  rewrite (rank_on_subset_valid sort_values self df M d subset_indices top_n)
    by (try assumption; congruence).
  eexists. split; [reflexivity|]. split; [|split].
  - rewrite length_map, df_head_length_exact.
    now rewrite (Permutation_length (Hperm _)), length_map.
  - apply (StronglySorted_map (fun a b : Z * R => snd b <= snd a)); [now intros a b|].
    apply StronglySorted_df_head, Hsorted.
  - intros k s p Hin. apply in_map_iff in Hin as (row & [= <- <- <-] & Hrow).
    apply In_df_head in Hrow. apply (Permutation_in _ (Hperm _)) in Hrow.
    apply in_map_iff in Hrow as (k & <- & Hk). cbn [fst snd].
    split; [exact Hk|]. rewrite List.Forall_forall in Hv. destruct (Hv k Hk) as [H0 H1].
    apply nth_error_nth'. lia.
Qed.

Lemma all_some_None {A B : Type} (f : A -> option B) (l : list A) (x : A) :
  In x l -> f x = None -> all_some (map f l) = None.
Proof.
  induction l as [|a l IH]; [intros []|]. simpl. intros [->|Hin] Hx.
  - now rewrite Hx.
  - destruct (f a); [|reflexivity]. now rewrite (IH Hin Hx).
Qed.

Lemma guard_passes (df : list Product) (subset_indices : list Z) :
  subset_indices <> [] ->
  Forall (fun k => (k < Z.of_nat (List.length df))%Z) subset_indices ->
  (Z.of_nat (List.length df) <=? list_max_Z subset_indices)%Z = false.
Proof.
  intros Hne Hv. destruct subset_indices as [|k0 rest]; [contradiction|].
  apply Z.leb_gt. cbn [list_max_Z]. inversion Hv; subst. now apply list_max_Z_lt.
Qed.

(** X13.  When every candidate index is below the number of rows of the
    catalogue but one of them is outside the similarity matrix (a matrix
    built for an earlier, smaller catalogue), the ranker raises
    [IndexError]. *)
Theorem rank_on_subset_index_error
        (sort_values : list (Z * R) -> list (Z * R)) (self : System)
        (df : list Product) (M : list (list R))
        (subset_indices : list Z) (top_n : Z) (k : Z) :
  products_df self = Some df -> similarity_matrix self = Some M ->
  Forall (fun i => (i < Z.of_nat (List.length df))%Z) subset_indices ->
  In k subset_indices ->
  (k < - Z.of_nat (List.length M) \/ Z.of_nat (List.length M) <= k)%Z ->
  rank_on_subset sort_values self subset_indices top_n = Raise IndexError.
Proof.
  intros Hdf HM Hv Hk Hout. unfold rank_on_subset.
  destruct subset_indices as [|k0 rest] eqn:Es; [destruct Hk|]. rewrite <- Es in *.
  rewrite HM, Hdf. cbn [opt_result bind].
  rewrite guard_passes by (try assumption; rewrite Es; discriminate).
  unfold ix_submatrix.
  rewrite (all_some_None (array_index (List.length M)) subset_indices k Hk); [reflexivity|].
  unfold array_index.
  destruct ((0 <=? k)%Z && (k <? Z.of_nat (List.length M))%Z) eqn:E1; [lia|].
  destruct ((- Z.of_nat (List.length M) <=? k)%Z && (k <? 0)%Z) eqn:E2; [lia | reflexivity].
Qed.

Lemma array_index_in_range (n : nat) (k : Z) :
  (- Z.of_nat n <= k < Z.of_nat n)%Z -> exists i, array_index n k = Some i.
Proof.
  intros H. unfold array_index.
  destruct ((0 <=? k)%Z && (k <? Z.of_nat n)%Z) eqn:E1; [eauto|].
  destruct ((- Z.of_nat n <=? k)%Z && (k <? 0)%Z) eqn:E2; [eauto | lia].
Qed.

Lemma all_some_Some {A B : Type} (f : A -> option B) (l : list A) :
  (forall x, In x l -> exists y, f x = Some y) -> exists r, all_some (map f l) = Some r.
Proof.
  induction l as [|a l IH]; intros H; [now exists []|]. simpl.
  destruct (H a (or_introl eq_refl)) as [y ->].
  destruct IH as [r ->]; [intros x Hx; apply H; now right|]. eauto.
Qed.

(** X14.  When every candidate index is within the range numpy accepts
    for the matrix, [-N <= i < N], and one of them is negative, the guard
    and the matrix lookup pass and [products_df.loc] raises [KeyError]. *)
Theorem rank_on_subset_key_error
        (sort_values : list (Z * R) -> list (Z * R)) (self : System)
        (df : list Product) (M : list (list R))
        (subset_indices : list Z) (top_n : Z) (k : Z) :
  products_df self = Some df -> similarity_matrix self = Some M ->
  List.length M = List.length df -> n_columns M = List.length df ->
  Forall (fun i => (- Z.of_nat (List.length df) <= i < Z.of_nat (List.length df))%Z)
         subset_indices ->
  In k subset_indices -> (k < 0)%Z ->
  rank_on_subset sort_values self subset_indices top_n = Raise KeyError.
Proof.
  intros Hdf HM Hrows Hcols Hv Hk Hneg. unfold rank_on_subset.
  destruct subset_indices as [|k0 rest] eqn:Es; [destruct Hk|]. rewrite <- Es in *.
  rewrite HM, Hdf. cbn [opt_result bind].
  rewrite guard_passes; [| rewrite Es; discriminate |
    eapply List.Forall_impl; [|exact Hv]; intros i Hi; cbv beta in Hi; lia].
  unfold ix_submatrix. rewrite Hrows, Hcols.
  rewrite List.Forall_forall in Hv.
  destruct (all_some_Some (array_index (List.length df)) subset_indices) as [r ->].
  { intros i Hi. apply array_index_in_range. now apply Hv. }
  cbn [bind]. unfold loc_list.
  rewrite (all_some_None (loc df) subset_indices k Hk); [reflexivity|].
  unfold loc. destruct (0 <=? k)%Z eqn:E; [lia | reflexivity].
Qed.

Lemma sum_R_bounds (l : list R) :
  Forall (fun x => 0 <= x <= 1) l -> 0 <= sum_R l <= INR (List.length l).
Proof.
  induction 1 as [|x l Hx Hl IH]; unfold sum_R in *; cbn [fold_right List.length].
  - simpl. lra.
  - rewrite S_INR. lra.
Qed.

Lemma mean_bounds (l : list R) :
  l <> [] -> Forall (fun x => 0 <= x <= 1) l -> 0 <= mean l <= 1.
Proof.
  intros Hne Hl. pose proof (sum_R_bounds l Hl) as Hs.
  assert (Hn : 0 < INR (List.length l)).
  { destruct l; [contradiction|]. cbn [List.length]. rewrite S_INR.
    pose proof (pos_INR (List.length l)). lra. }
  unfold mean. split.
  - apply Rmult_le_pos; [lra | left; now apply Rinv_0_lt_compat].
  - apply (Rmult_le_reg_r (INR (List.length l))); [exact Hn|].
    unfold Rdiv. rewrite Rmult_assoc, Rinv_l, Rmult_1_r, Rmult_1_l; lra.
Qed.

(** X15.  When the similarities of the matrix are in [0, 1] and the
    ratings of the catalogue in [0, 5], every score the ranker returns is
    in [0, 1]. *)
Theorem rank_on_subset_score_range
        (sort_values : list (Z * R) -> list (Z * R)) (self : System)
        (df : list Product) (M : list (list R))
        (subset_indices : list Z) (top_n : Z) :
  (forall l, Permutation (sort_values l) l) ->
  products_df self = Some df -> similarity_matrix self = Some M ->
  List.length M = List.length df -> n_columns M = List.length df ->
  subset_indices <> [] ->
  Forall (valid_index (List.length df)) subset_indices ->
  (forall i j, (i < List.length df)%nat -> (j < List.length df)%nat -> 0 <= entry M i j <= 1) ->
  (forall p r, In p df -> rating p = Some r -> 0 <= r <= 5) ->
  exists out,
    rank_on_subset sort_values self subset_indices top_n = Ok out /\
    forall k s p, In (k, s, p) out -> 0 <= s <= 1.
Proof.
  intros Hperm Hdf HM Hrows Hcols Hne Hv Hentry Hrating.
  destruct (valid_subset_default df subset_indices Hne Hv) as [d _].
  rewrite (rank_on_subset_valid sort_values self df M d subset_indices top_n)
    by (try assumption; congruence).
  eexists. split; [reflexivity|].
  intros k s p Hin. apply in_map_iff in Hin as (row & [= <- <- <-] & Hrow).
  apply In_df_head in Hrow. apply (Permutation_in _ (Hperm _)) in Hrow.
  apply in_map_iff in Hrow as (k & <- & Hk). cbn [fst snd].
  rewrite List.Forall_forall in Hv.
  assert (Hmean : 0 <= mean_similarity M subset_indices k <= 1).
  { unfold mean_similarity. apply mean_bounds.
    - destruct subset_indices; [contradiction | discriminate].
    - apply Forall_map. apply List.Forall_forall. intros j Hj. cbv beta.
      destruct (Hv k Hk), (Hv j Hj). apply Hentry; lia. }
  assert (Hr : 0 <= rating_or_default (nth (Z.to_nat k) df d) <= 5).
  { unfold rating_or_default. destruct (rating (nth (Z.to_nat k) df d)) as [r|] eqn:Er; [|lra].
    apply (Hrating (nth (Z.to_nat k) df d)); [|exact Er].
    apply nth_In. destruct (Hv k Hk). lia. }
  unfold blended_score. lra.
Qed.

Lemma rank_on_subset_count_and_order_witness :
  exists out,
    rank_on_subset insertion_sort_desc built [0%Z; 1%Z] 1 = Ok out /\
    List.length out = 1%nat /\
    StronglySorted (fun a b => snd (fst b) <= snd (fst a)) out.
Proof.
  destruct (rank_on_subset_count_and_order insertion_sort_desc built two_products
              (cosine_similarity [[1]; [0]]) [0%Z; 1%Z] 1
              insertion_sort_desc_perm insertion_sort_desc_sorted
              eq_refl eq_refl eq_refl eq_refl
              ltac:(discriminate)
              ltac:(repeat constructor; simpl; lia))
    as (out & Hout & Hlen & Hs & _).
  exists out. split; [exact Hout|]. split; [|exact Hs].
  cbn in Hlen. lia.
Defined.

Lemma rank_on_subset_index_error_witness :
  rank_on_subset insertion_sort_desc stale [1%Z] 5 = Raise IndexError.
Proof.
  exact (rank_on_subset_index_error insertion_sort_desc stale two_products
           (cosine_similarity [[1]]) [1%Z] 5 1 eq_refl eq_refl
           ltac:(repeat constructor; simpl; lia) ltac:(simpl; tauto)
           (or_intror (Z.le_refl 1))).
Defined.

Lemma rank_on_subset_key_error_witness :
  rank_on_subset insertion_sort_desc tied [0%Z; (-2)%Z] 5 = Raise KeyError.
Proof.
  exact (rank_on_subset_key_error insertion_sort_desc tied twin_products
           [[1; 1]; [1; 1]] [0%Z; (-2)%Z] 5 (-2) eq_refl eq_refl eq_refl eq_refl
           ltac:(repeat constructor; simpl; lia) ltac:(simpl; tauto) ltac:(lia)).
Defined.

Lemma rank_on_subset_score_range_witness :
  exists out,
    rank_on_subset insertion_sort_desc tied [0%Z; 1%Z] 5 = Ok out /\
    forall k s p, In (k, s, p) out -> 0 <= s <= 1.
Proof.
  apply (rank_on_subset_score_range insertion_sort_desc tied twin_products
           [[1; 1]; [1; 1]] [0%Z; 1%Z] 5
           insertion_sort_desc_perm eq_refl eq_refl eq_refl eq_refl
           ltac:(discriminate) ltac:(repeat constructor; simpl; lia)).
  - intros [|[|i]] [|[|j]] Hi Hj; cbn in Hi, Hj; try lia; unfold entry; cbn [nth]; lra.
  - intros p r [<-|[<-|[]]] E; change (Some 5 = Some r) in E; injection E as <-; lra.
Defined.

Lemma rank_on_subset_index_too_large_witness :
  rank_on_subset insertion_sort_desc built [0%Z; 2%Z] 5 = Ok [].
Proof.
  exact (rank_on_subset_index_too_large insertion_sort_desc built two_products
           [0%Z; 2%Z] 5 2 eq_refl ltac:(simpl; tauto) ltac:(simpl; lia)).
Defined.

(** * Price bounds of the slider *)

Lemma fold_Rmin_spec (r : list R) (x : R) :
  In (fold_left Rmin r x) (x :: r) /\ Forall (fun y => fold_left Rmin r x <= y) (x :: r).
Proof.
  revert x. induction r as [|a r IH]; intros x; cbn [fold_left].
  - split; [now left | repeat constructor; lra].
  - destruct (IH (Rmin x a)) as [Hin Hall]. inversion Hall as [|? ? Hm Hr]; subst.
    split.
    + destruct Hin as [Hin|Hin]; [|right; now right].
      rewrite <- Hin. unfold Rmin. destruct (Rle_dec x a); [now left | right; now left].
    + pose proof (Rmin_l x a). pose proof (Rmin_r x a).
      constructor; [lra|]. constructor; [lra | exact Hr].
Qed.

Lemma fold_Rmax_spec (r : list R) (x : R) :
  In (fold_left Rmax r x) (x :: r) /\ Forall (fun y => y <= fold_left Rmax r x) (x :: r).
Proof.
  revert x. induction r as [|a r IH]; intros x; cbn [fold_left].
  - split; [now left | repeat constructor; lra].
  - destruct (IH (Rmax x a)) as [Hin Hall]. inversion Hall as [|? ? Hm Hr]; subst.
    split.
    + destruct Hin as [Hin|Hin]; [|right; now right].
      rewrite <- Hin. unfold Rmax. destruct (Rle_dec x a); [right; now left | now left].
    + pose proof (Rmax_l x a). pose proof (Rmax_r x a).
      constructor; [lra|]. constructor; [lra | exact Hr].
Qed.

Lemma py_int_nonneg (x : R) : 0 <= x -> py_int x = Zfloor x /\ (0 <= py_int x)%Z.
Proof.
  intros H. unfold py_int. destruct (Rle_dec 0 x); [|contradiction].
  split; [reflexivity|]. now apply (Zfloor_lub 0).
Qed.

Lemma py_int_IZR (z : Z) : py_int (IZR z) = z.
Proof.
  unfold py_int. destruct (Rle_dec 0 (IZR z)); [apply ZfloorZ|].
  unfold Zceil. rewrite <- opp_IZR, ZfloorZ. lia.
Qed.

Lemma dropna_numbers_nil (parse_number : string -> option number) (series : list cell) :
  dropna_numbers parse_number series = []
  <-> forall c, In c series -> to_number parse_number c = None.
Proof.
  unfold dropna_numbers.
  induction series as [|c series IH]; [split; [intros _ c [] | reflexivity]|].
  cbn [flat_map]. destruct (to_number parse_number c) as [v|] eqn:E.
  - split; [discriminate|]. intros H. specialize (H c (or_introl eq_refl)). congruence.
  - cbn [app]. rewrite IH. split.
    + intros H c' [<-|Hc']; [exact E | now apply H].
    + intros H c' Hc'. apply H. now right.
Qed.

Lemma fold_number_min_finite (r : list R) (x : R) :
  fold_left number_min (map Finite r) (Finite x) = Finite (fold_left Rmin r x).
Proof.
  revert x. induction r as [|a r IH]; intros x; [reflexivity|].
  cbn [map fold_left]. unfold number_min at 2, Rmin. cbn [number_le].
  destruct (Rle_dec x a); apply IH.
Qed.

Lemma fold_number_max_finite (r : list R) (x : R) :
  fold_left number_max (map Finite r) (Finite x) = Finite (fold_left Rmax r x).
Proof.
  revert x. induction r as [|a r IH]; intros x; [reflexivity|].
  cbn [map fold_left]. unfold number_max at 2, Rmax. cbn [number_le].
  destruct (Rle_dec x a); apply IH.
Qed.

Lemma fold_number_min_neg_inf (r : list number) (x : number) :
  In (Infinite false) (x :: r) -> fold_left number_min r x = Infinite false.
Proof.
  revert x. induction r as [|a r IH]; intros x; cbn [fold_left].
  - intros [->|[]]. reflexivity.
  - intros [->|[->|H]]; apply IH.
    + now left.
    + left. unfold number_min. destruct x as [y|[]]; reflexivity.
    + now right.
Qed.

Lemma fold_number_max_pos_inf (r : list number) (x : number) :
  In (Infinite true) (x :: r) -> fold_left number_max r x = Infinite true.
Proof.
  revert x. induction r as [|a r IH]; intros x; cbn [fold_left].
  - intros [->|[]]. reflexivity.
  - intros [->|[->|H]]; apply IH.
    + left. unfold number_max. destruct a as [y|[]]; reflexivity.
    + left. unfold number_max. destruct x as [y|[]]; reflexivity.
    + now right.
Qed.

Lemma all_finite (numbers : list number) :
  Forall (fun v => exists x, v = Finite x /\ 0 <= x) numbers ->
  exists xs, numbers = map Finite xs /\ Forall (fun x => 0 <= x) xs.
Proof.
  induction 1 as [|v numbers (x & -> & Hx) _ (xs & -> & Hxs)].
  - now exists [].
  - exists (x :: xs). split; [reflexivity | now constructor].
Qed.

Section PriceBounds.

Variable parse_number : string -> option number.

Lemma safe_price_bounds_finite (series : list cell) (xs : list R) :
  dropna_numbers parse_number series = map Finite xs ->
  safe_price_bounds parse_number series = Ok (finite_bounds xs).
Proof.
  intros E. unfold safe_price_bounds. rewrite E.
  destruct xs as [|x r]; [reflexivity|]. cbn [map].
  rewrite fold_number_min_finite, fold_number_max_finite. cbn [int_of_number bind].
  unfold finite_bounds. cbv zeta. now destruct (_ <=? _)%Z.
Qed.

Lemma safe_price_bounds_infinite (series : list cell) (b : bool) :
  In (Infinite b) (dropna_numbers parse_number series) ->
  safe_price_bounds parse_number series = Raise OverflowError.
Proof.
  intros Hin. unfold safe_price_bounds.
  destruct (dropna_numbers parse_number series) as [|x r]; [destruct Hin|].
  destruct b.
  - rewrite (fold_number_max_pos_inf r x Hin).
    destruct (fold_left number_min r x) as [y|c]; reflexivity.
  - now rewrite (fold_number_min_neg_inf r x Hin).
Qed.

Lemma finite_bounds_ordered (xs : list R) :
  Forall (fun x => 0 <= x) xs ->
  (0 <= fst (finite_bounds xs) < snd (finite_bounds xs))%Z.
Proof.
  intros Hpos. unfold finite_bounds.
  destruct xs as [|x r]; [cbn; lia|].
  destruct (fold_Rmin_spec r x) as [Hmin_in Hmin].
  destruct (fold_Rmax_spec r x) as [Hmax_in Hmax].
  rewrite List.Forall_forall in Hpos, Hmin, Hmax.
  pose proof (Hpos _ Hmin_in) as H0. pose proof (Hpos _ Hmax_in) as H1.
  destruct (py_int_nonneg _ H0) as [E0 P0]. destruct (py_int_nonneg _ H1) as [E1 P1].
  assert (Hle : (py_int (fold_left Rmin r x) <= py_int (fold_left Rmax r x))%Z).
  { rewrite E0, E1. apply Zfloor_le. now apply Hmax. }
  cbv zeta. destruct (_ <=? _)%Z eqn:E; cbn [fst snd]; lia.
Qed.

Lemma finite_bounds_cover (xs : list R) (x : R) :
  Forall (fun y => 0 <= y) xs -> In x xs ->
  IZR (fst (finite_bounds xs)) <= x < IZR (snd (finite_bounds xs)) + 1 /\
  (forall z, x = IZR z -> x <= IZR (snd (finite_bounds xs))).
Proof.
  intros Hpos Hx. unfold finite_bounds.
  destruct xs as [|x0 r]; [destruct Hx|].
  destruct (fold_Rmin_spec r x0) as [Hmin_in Hmin].
  destruct (fold_Rmax_spec r x0) as [Hmax_in Hmax].
  rewrite List.Forall_forall in Hpos, Hmin, Hmax.
  pose proof (Hmin _ Hx) as L1. pose proof (Hmax _ Hx) as L2.
  destruct (py_int_nonneg _ (Hpos _ Hmin_in)) as [E0 P0].
  destruct (py_int_nonneg _ (Hpos _ Hmax_in)) as [E1 P1].
  pose proof (Zfloor_bound (fold_left Rmin r x0)) as [B0 _].
  pose proof (Zfloor_bound (fold_left Rmax r x0)) as [_ B1].
  assert (Hz : forall z, x = IZR z -> (z <= py_int (fold_left Rmax r x0))%Z).
  { intros z ->. rewrite E1, <- (ZfloorZ z). now apply Zfloor_le. }
  rewrite <- E0 in B0. rewrite <- E1 in B1.
  set (vmin := py_int (fold_left Rmin r x0)) in *.
  set (vmax := py_int (fold_left Rmax r x0)) in *.
  cbv zeta. destruct (vmax <=? vmin)%Z eqn:E; cbn [fst snd].
  - assert (H1 : IZR (Z.max 0 (vmin - 1)) <= IZR vmin) by (apply IZR_le; lia).
    assert (H2 : IZR vmax <= IZR (vmax + 50000)) by (apply IZR_le; lia).
    split; [lra|]. intros z Ez. specialize (Hz z Ez). rewrite Ez.
    apply IZR_le. lia.
  - split; [lra|]. intros z Ez. specialize (Hz z Ez). rewrite Ez. now apply IZR_le.
Qed.

(** X16.  For a price column whose numbers are finite and not negative,
    [safe_price_bounds] returns bounds with [0 <= lo < hi], also when all
    prices are equal; a column without any number gives (0, 500000); and a
    column with an infinite number ("inf", "1e999") makes [int] raise
    [OverflowError]. *)
Theorem safe_price_bounds_ordered (series : list cell) :
  (Forall (fun v => exists x, v = Finite x /\ 0 <= x)
          (dropna_numbers parse_number series) ->
   exists lo hi,
     safe_price_bounds parse_number series = Ok (lo, hi) /\ (0 <= lo < hi)%Z) /\
  ((forall c, In c series -> to_number parse_number c = None) ->
   safe_price_bounds parse_number series = Ok (0, 500000)%Z) /\
  ((exists b, In (Infinite b) (dropna_numbers parse_number series)) ->
   safe_price_bounds parse_number series = Raise OverflowError).
Proof.
  split; [|split].
  - intros Hfin. destruct (all_finite _ Hfin) as (xs & E & Hpos).
    rewrite (safe_price_bounds_finite series xs E).
    pose proof (finite_bounds_ordered xs Hpos) as H.
    destruct (finite_bounds xs) as [lo hi]. now exists lo, hi.
  - intros Hnan. apply dropna_numbers_nil in Hnan.
    unfold safe_price_bounds. now rewrite Hnan.
  - intros [b Hb]. now apply (safe_price_bounds_infinite series b).
Qed.

(** X17.  For a price column whose numbers are finite and not negative,
    [safe_price_bounds] returns bounds, and every price [x] of the column has
    [lo <= x < hi + 1], and [x <= hi] when [x] is a whole number: only the
    fraction [int] cuts off the largest price can leave it above the upper
    bound. *)
Theorem safe_price_bounds_cover (series : list cell) (x : R) :
  Forall (fun v => exists y, v = Finite y /\ 0 <= y)
         (dropna_numbers parse_number series) ->
  In (Finite x) (dropna_numbers parse_number series) ->
  exists lo hi,
    safe_price_bounds parse_number series = Ok (lo, hi) /\
    IZR lo <= x < IZR hi + 1 /\
    (forall z, x = IZR z -> x <= IZR hi).
Proof.
  intros Hfin Hx. destruct (all_finite _ Hfin) as (xs & E & Hpos).
  rewrite (safe_price_bounds_finite series xs E).
  assert (Hin : In x xs).
  { rewrite E in Hx. apply in_map_iff in Hx as (y & [= ->] & Hy). exact Hy. }
  pose proof (finite_bounds_cover xs x Hpos Hin) as H.
  destruct (finite_bounds xs) as [lo hi]. now exists lo, hi.
Qed.

End PriceBounds.

Lemma dropna_harga_idr_column (parse_number : string -> option number)
      (df : list Product) :
  dropna_numbers parse_number (harga_idr_column df)
  = map Finite (flat_map (fun p => match harga_idr p with Some h => [h] | None => [] end) df).
Proof.
  unfold dropna_numbers, harga_idr_column.
  induction df as [|p df IH]; [reflexivity|]. cbn [map flat_map].
  rewrite map_app, <- IH. now destruct (harga_idr p).
Qed.

(** X18.  With the bounds [safe_price_bounds] computes for the catalogue's
    price column, all prices being whole and not negative, the price of
    every row that has one is within the bounds, and a row without a price,
    counted as -1 by the handler, is below the lower bound. *)
Theorem default_price_range_keeps_priced_rows
        (parse_number : string -> option number) (df : list Product) (p : Product) :
  (forall q h, In q df -> harga_idr q = Some h -> exists z, (0 <= z)%Z /\ h = IZR z) ->
  In p df ->
  exists lo hi,
    safe_price_bounds parse_number (harga_idr_column df) = Ok (lo, hi) /\
    match harga_idr p with
    | Some h => IZR lo <= h <= IZR hi
    | None => -1 < IZR lo
    end.
Proof.
  intros Hwhole Hp.
  set (xs := flat_map (fun p => match harga_idr p with Some h => [h] | None => [] end) df).
  assert (Hxs : forall h, In h xs <-> exists q, In q df /\ harga_idr q = Some h).
  { intros h. unfold xs. rewrite in_flat_map. split.
    - intros (q & Hq & Hh). exists q. split; [exact Hq|].
      destruct (harga_idr q) as [h'|]; [|destruct Hh]. destruct Hh as [->|[]]. reflexivity.
    - intros (q & Hq & E). exists q. split; [exact Hq|]. rewrite E. now left. }
  assert (Hpos : Forall (fun y => 0 <= y) xs).
  { apply List.Forall_forall. intros y Hy. apply Hxs in Hy as (q & Hq & E).
    destruct (Hwhole q y Hq E) as (z & Hz & ->). now apply IZR_le. }
  rewrite (safe_price_bounds_finite parse_number _ xs (dropna_harga_idr_column _ df)).
  pose proof (finite_bounds_ordered xs Hpos) as Hord.
  pose proof (finite_bounds_cover xs) as Hcov.
  destruct (finite_bounds xs) as [lo hi]. cbn [fst snd] in *.
  exists lo, hi. split; [reflexivity|].
  destruct (harga_idr p) as [h|] eqn:E.
  - assert (Hh : In h xs) by (apply Hxs; eauto).
    destruct (Hcov h Hpos Hh) as [[Hlo _] Hhi].
    destruct (Hwhole p h Hp E) as (z & _ & Ez).
    split; [exact Hlo | exact (Hhi z Ez)].
  - destruct Hord as [Hlo _]. apply IZR_le in Hlo. lra.
Qed.

Lemma price_series_numbers :
  dropna_numbers parse_unsigned_or_inf price_series = [Finite 89000; Finite 28000].
Proof. reflexivity. Qed.

Lemma safe_price_bounds_ordered_witness :
  (exists lo hi,
     safe_price_bounds parse_unsigned_or_inf price_series = Ok (lo, hi) /\
     (0 <= lo < hi)%Z) /\
  safe_price_bounds parse_unsigned_or_inf price_series_inf = Raise OverflowError.
Proof.
  split.
  - apply (safe_price_bounds_ordered parse_unsigned_or_inf price_series).
    rewrite price_series_numbers.
    repeat constructor; eexists; (split; [reflexivity | lra]).
  - apply (safe_price_bounds_ordered parse_unsigned_or_inf price_series_inf).
    exists true. right. now left.
Defined.

Lemma safe_price_bounds_cover_witness :
  exists lo hi,
    safe_price_bounds parse_unsigned_or_inf price_series = Ok (lo, hi) /\
    IZR lo <= 28000 < IZR hi + 1.
Proof.
  destruct (safe_price_bounds_cover parse_unsigned_or_inf price_series 28000)
    as (lo & hi & Hok & Hx & _).
  - rewrite price_series_numbers.
    repeat constructor; eexists; (split; [reflexivity | lra]).
  - rewrite price_series_numbers. cbn. tauto.
  - now exists lo, hi.
Defined.

Lemma default_price_range_keeps_priced_rows_witness :
  exists lo hi,
    safe_price_bounds parse_unsigned_or_inf (harga_idr_column skin_catalog) = Ok (lo, hi) /\
    IZR lo <= 34000 <= IZR hi.
Proof.
  apply (default_price_range_keeps_priced_rows parse_unsigned_or_inf skin_catalog
           ceramide_moisturizer).
  - intros q h [<-|[<-|[]]] E.
    + change (Some 45000 = Some h) in E. injection E as <-.
      exists 45000%Z. split; [lia | reflexivity].
    + change (Some 34000 = Some h) in E. injection E as <-.
      exists 34000%Z. split; [lia | reflexivity].
  - cbn. tauto.
Defined.

(** * The handler of the button *)

Lemma Rle_bool_true (x y : R) : Rle_bool x y = true <-> x <= y.
Proof. unfold Rle_bool. destruct (Rle_dec x y); split; intros; try easy. Qed.

Lemma passes_filters_spec (sub_kat brand_choice : string) (min_rating : R)
      (price_range : R * R) (p : Product) :
  passes_filters sub_kat brand_choice min_rating price_range true p = true
  <-> filter_conditions sub_kat brand_choice min_rating price_range p.
Proof.
  unfold passes_filters, filter_conditions. cbn [negb orb].
  rewrite !andb_true_iff, !orb_true_iff, !String.eqb_eq, !Rle_bool_true.
  destruct (rating p), (harga_idr p); tauto.
Qed.

(** What the handler computes on an object with a catalogue and a matrix
    of its size. *)
Lemma recommend_pipeline
      (sort_values : list (Z * R) -> list (Z * R)) (self : System)
      (df : list Product) (M : list (list R))
      (skin_choice_raw sub_kat brand_choice : string) (min_rating : R)
      (price_range : R * R) (top_n : Z) :
  (forall l, Permutation (sort_values l) l) ->
  products_df self = Some df -> similarity_matrix self = Some M ->
  List.length M = List.length df -> n_columns M = List.length df ->
  let filtered :=
    List.filter (fun ip => passes_filters sub_kat brand_choice min_rating price_range
                                          true (snd ip))
      (List.filter (fun ip => compatible (normalize_skin_type skin_choice_raw)
                                         (skin_tokens (snd ip)))
                   (indexed df)) in
  let idxs := map (fun ip : nat * Product => Z.of_nat (fst ip)) filtered in
  (filtered = [] /\
   recommend sort_values self skin_choice_raw sub_kat brand_choice min_rating
             price_range top_n = Ok NoMatch)
  \/
  (filtered <> [] /\
   exists d ranked,
     rank_on_subset sort_values self idxs top_n = Ok ranked /\
     ranked = map (fun row => (fst row, snd row, nth (Z.to_nat (fst row)) df d))
                  (df_head top_n
                     (sort_values
                        (map (fun k => (k, blended_score M idxs k (nth (Z.to_nat k) df d)))
                             idxs))) /\
     recommend sort_values self skin_choice_raw sub_kat brand_choice min_rating
               price_range top_n
     = Ok (match ranked with [] => NoRanking | _ :: _ => Recommendations ranked end)).
Proof.
  intros Hperm Hdf HM Hrows Hcols filtered idxs.
  assert (Hin : forall i p, In (i, p) filtered -> nth_error df i = Some p).
  { intros i p Hip. apply filter_In in Hip as [Hip _]. apply filter_In in Hip as [Hip _].
    now apply In_indexed in Hip. }
  unfold recommend, find_compatible_products. rewrite Hdf. cbn [bind].
  assert (E : forall comp : list (nat * Product),
             List.filter (fun ip => passes_filters sub_kat brand_choice min_rating price_range
                                      match comp with [] => false | _ :: _ => true end (snd ip))
                         comp
             = List.filter (fun ip => passes_filters sub_kat brand_choice min_rating price_range
                                      true (snd ip)) comp).
  { intros [|c comp]; reflexivity. }
  rewrite E. fold filtered. fold idxs.
  assert (Hv : Forall (valid_index (List.length df)) idxs).
  { apply List.Forall_forall. intros k Hk.
    apply in_map_iff in Hk as ([i p] & <- & Hip). cbn [fst].
    apply Hin in Hip. assert (Hlt : (i < List.length df)%nat) by (apply nth_error_Some; congruence). unfold valid_index. lia. }
  clearbody filtered.
  destruct filtered as [|[i0 p0] rest]; [left; split; reflexivity|].
  right. split; [discriminate|].
  exists p0. eexists.
  assert (Hne : idxs <> []) by (subst idxs; discriminate).
  pose proof (rank_on_subset_valid sort_values self df M p0 idxs top_n Hperm Hdf HM Hne Hv) as Hr.
  rewrite Hrows, Hcols in Hr. specialize (Hr Hv Hv).
  split; [exact Hr|]. split; [reflexivity|].
  cbn zeta. fold idxs. rewrite Hr. cbn [bind].
  destruct (map _ (df_head top_n _)); reflexivity.
Qed.

Lemma In_filtered (df : list Product) (q sub_kat brand_choice : string) (min_rating : R)
      (price_range : R * R) (i : nat) (p : Product) :
  In (i, p)
     (List.filter (fun ip => passes_filters sub_kat brand_choice min_rating price_range
                                            true (snd ip))
        (List.filter (fun ip => compatible (normalize_skin_type q) (skin_tokens (snd ip)))
                     (indexed df)))
  <-> nth_error df i = Some p /\
      ("semua" ∈ skin_tokens p \/ normalize_skin_type q ∈ skin_tokens p) /\
      filter_conditions sub_kat brand_choice min_rating price_range p.
Proof.
  rewrite !filter_In, In_indexed. cbn [snd]. rewrite passes_filters_spec.
  unfold compatible. rewrite orb_true_iff, !bool_decide_eq_true. tauto.
Qed.

(** X19.  On an object with a catalogue and a matrix of its size the
    handler of the button does not raise, and every product it recommends
    is a row of the catalogue that is compatible with the chosen skin type
    and passed every filter: sub-category and brand when one is chosen, the
    minimum rating with a missing rating counted as 0, and the price range
    with a missing price counted as -1. *)
Theorem recommend_results_pass_filters
        (sort_values : list (Z * R) -> list (Z * R)) (self : System)
        (df : list Product) (M : list (list R))
        (skin_choice_raw sub_kat brand_choice : string) (min_rating : R)
        (price_range : R * R) (top_n : Z) :
  (forall l, Permutation (sort_values l) l) ->
  products_df self = Some df -> similarity_matrix self = Some M ->
  List.length M = List.length df -> n_columns M = List.length df ->
  exists o,
    recommend sort_values self skin_choice_raw sub_kat brand_choice min_rating
              price_range top_n = Ok o /\
    forall ranked k s p,
      o = Recommendations ranked -> In (k, s, p) ranked ->
      (0 <= k)%Z /\ nth_error df (Z.to_nat k) = Some p /\
      ("semua" ∈ skin_tokens p \/ normalize_skin_type skin_choice_raw ∈ skin_tokens p) /\
      filter_conditions sub_kat brand_choice min_rating price_range p.
Proof.
  intros Hperm Hdf HM Hrows Hcols.
  destruct (recommend_pipeline sort_values self df M skin_choice_raw sub_kat brand_choice
              min_rating price_range top_n Hperm Hdf HM Hrows Hcols)
    as [[_ E] | (_ & d & ranked & _ & Er & E)].
  - exists NoMatch. split; [exact E|]. intros ranked k s p [=].
  - eexists. split; [exact E|]. intros ranked' k s p Ho Hin.
    destruct ranked as [|r0 rs] eqn:Eq; [discriminate|]. injection Ho as <-.
    rewrite Er in Hin.
    apply in_map_iff in Hin as (row & [= <- <- <-] & Hrow).
    apply In_df_head in Hrow. apply (Permutation_in _ (Hperm _)) in Hrow.
    apply in_map_iff in Hrow as (k & <- & Hk). cbn [fst snd].
    apply in_map_iff in Hk as ([i p] & <- & Hip). cbn [fst].
    apply In_filtered in Hip as (Hnth & Hc & Hf).
    rewrite Nat2Z.id, (List.nth_error_nth df i d Hnth). split; [lia | tauto].
Qed.

(** X20.  For a positive [top_n], on an object with a catalogue and a
    matrix of its size, the handler shows the warning of an empty filter
    result exactly when no compatible row passes the filters, and otherwise
    between 1 and [top_n] recommendations: the warning of an empty ranking
    is never shown. *)
Theorem recommend_outcome
        (sort_values : list (Z * R) -> list (Z * R)) (self : System)
        (df : list Product) (M : list (list R))
        (skin_choice_raw sub_kat brand_choice : string) (min_rating : R)
        (price_range : R * R) (top_n : Z) :
  (forall l, Permutation (sort_values l) l) ->
  products_df self = Some df -> similarity_matrix self = Some M ->
  List.length M = List.length df -> n_columns M = List.length df ->
  (0 < top_n)%Z ->
  exists o,
    recommend sort_values self skin_choice_raw sub_kat brand_choice min_rating
              price_range top_n = Ok o /\
    o <> NoRanking /\
    (o = NoMatch <->
     forall i p, nth_error df i = Some p ->
                 "semua" ∈ skin_tokens p \/ normalize_skin_type skin_choice_raw ∈ skin_tokens p ->
                 ~ filter_conditions sub_kat brand_choice min_rating price_range p) /\
    forall ranked, o = Recommendations ranked ->
                   (1 <= Z.of_nat (List.length ranked) <= top_n)%Z.
Proof.
  intros Hperm Hdf HM Hrows Hcols Hn.
  destruct (recommend_pipeline sort_values self df M skin_choice_raw sub_kat brand_choice
              min_rating price_range top_n Hperm Hdf HM Hrows Hcols)
    as [[Hf E] | (Hf & d & ranked & _ & Er & E)].
  - exists NoMatch. split; [exact E|]. split; [discriminate|]. split; [|intros ranked [=]].
    split; [|reflexivity]. intros _ i p Hnth Hc Hcond.
    assert (Hin : In (i, p) (@nil (nat * Product))); [|destruct Hin].
    rewrite <- Hf. apply In_filtered. tauto.
  - assert (Hlen : (1 <= Z.of_nat (List.length ranked) <= top_n)%Z).
    { rewrite Er, length_map, df_head_length_exact.
      rewrite (Permutation_length (Hperm _)), !length_map.
      destruct (0 <=? top_n)%Z eqn:E0; [|lia].
      destruct (List.filter _ _) as [|x l]; [contradiction|]. cbn [List.length]. lia. }
    destruct ranked as [|r0 rs] eqn:Eq; [cbn in Hlen; lia|].
    eexists. split; [exact E|]. split; [discriminate|]. split.
    + split; [discriminate|]. intros Hnone. exfalso.
      destruct (List.filter _ _) as [|[i p] l] eqn:El in Hf; [contradiction|].
      assert (Hin : In (i, p) ((i, p) :: l)) by now left.
      rewrite <- El in Hin. apply In_filtered in Hin as (Hnth & Hc & Hcond).
      exact (Hnone i p Hnth Hc Hcond).
    + intros ranked' [= <-]. exact Hlen.
Qed.

Lemma recommend_results_pass_filters_witness :
  exists o,
    recommend insertion_sort_desc built "kering" "(Semua)" "(Semua)" 4 (0, 500000) 8 = Ok o /\
    forall ranked k s p,
      o = Recommendations ranked -> In (k, s, p) ranked ->
      (0 <= k)%Z /\ nth_error two_products (Z.to_nat k) = Some p /\
      ("semua" ∈ skin_tokens p \/ normalize_skin_type "kering" ∈ skin_tokens p) /\
      filter_conditions "(Semua)" "(Semua)" 4 (0, 500000) p.
Proof.
  exact (recommend_results_pass_filters insertion_sort_desc built two_products
           (cosine_similarity [[1]; [0]]) "kering" "(Semua)" "(Semua)" 4 (0, 500000) 8
           insertion_sort_desc_perm eq_refl eq_refl eq_refl eq_refl).
Defined.

Lemma recommend_outcome_witness :
  exists o,
    recommend insertion_sort_desc built "kering" "(Semua)" "(Semua)" 4 (0, 500000) 8 = Ok o /\
    o <> NoRanking /\
    (o = NoMatch <->
     forall i p, nth_error two_products i = Some p ->
                 "semua" ∈ skin_tokens p \/ normalize_skin_type "kering" ∈ skin_tokens p ->
                 ~ filter_conditions "(Semua)" "(Semua)" 4 (0, 500000) p) /\
    forall ranked, o = Recommendations ranked ->
                   (1 <= Z.of_nat (List.length ranked) <= 8)%Z.
Proof.
  exact (recommend_outcome insertion_sort_desc built two_products
           (cosine_similarity [[1]; [0]]) "kering" "(Semua)" "(Semua)" 4 (0, 500000) 8
           insertion_sort_desc_perm eq_refl eq_refl eq_refl eq_refl ltac:(lia)).
Defined.
